(** * cim::sorted_vector — a shallow embedding of [sorted_vector.h]

    The C++ template [cim::sorted_vector<T>] wraps a [std::vector<T>] that is
    kept in ascending order, tracks whether non-const access may have broken
    the order ([_is_corrupted], [_last_modified]) and offers a family of
    binary / linear searches returning positions of type [size_t].

    The embedding follows the header with its default configuration:
    [CIM_SORTED_VECTOR_AUTOREPAIR] defined,
    [CIM_SORTED_VECTOR_IGNORE_POSSIBLY_CORRUPTED] and
    [CIM_SORTED_VECTOR_USE_MEMMOVE] not defined.

    - [size_t] is a 64-bit unsigned integer: a [Z] in [0, 2^64) whose
      arithmetic wraps ([wrap]); [(size_t)-1] is [npos].
    - [_storage] is a [list T]; [_storage[pos]] outside the vector is
      undefined behaviour and is reported as [Undefined].
    - the element type [T] is any type with the three operators the header
      uses ([==], [<], [>]), class [Elem].
    - [while] loops are fixpoints over a fuel argument; every method supplies
      [S (size)] units, and running out is reported as [OutOfFuel]. *)

From Stdlib Require Import ZArith List Bool Lia Permutation Sorted.
Import ListNotations.
Local Open Scope Z_scope.

(** ** Outcomes of a call *)

Inductive outcome (A : Type) : Type :=
| Done (a : A)     (* the call returns [a] *)
| OutOfRange       (* std::out_of_range thrown by std::vector::at *)
| Undefined        (* access outside [_storage]: undefined behaviour *)
| OutOfFuel.       (* fuel of the embedding exhausted *)

Arguments Done {A} a.
Arguments OutOfRange {A}.
Arguments Undefined {A}.
Arguments OutOfFuel {A}.

Definition bind {A B : Type} (c : outcome A) (k : A -> outcome B) : outcome B :=
  match c with
  | Done a => k a
  | OutOfRange => OutOfRange
  | Undefined => Undefined
  | OutOfFuel => OutOfFuel
  end.

Notation "x <- c ;; k" := (bind c (fun x => k))
  (at level 61, c at next level, right associativity).

(** ** size_t *)

Definition two64 : Z := 18446744073709551616.

(** [(size_t)-1], the "not found" value and the default [end_pos]. *)
Definition npos : Z := 18446744073709551615.

Definition wrap (z : Z) : Z := z mod two64.

Definition sz_add (a b : Z) : Z := wrap (a + b).
Definition sz_sub (a b : Z) : Z := wrap (a - b).

(** [std::vector::max_size()] for any element type is at most
    [PTRDIFF_MAX]; sizes of real vectors stay below [2^63]. *)
Definition max_size : Z := 9223372036854775807.

(** ** Element type: the operators the template requires of [T] *)

Class Elem (T : Type) : Type := {
  eqb : T -> T -> bool;   (* operator== *)
  ltb : T -> T -> bool;   (* operator<  *)
  gtb : T -> T -> bool    (* operator>  *)
}.

Declare Scope elem_scope.
Infix "==" := eqb (at level 70, no associativity) : elem_scope.
Infix "<<" := ltb (at level 70, no associativity) : elem_scope.
Infix ">>" := gtb (at level 70, no associativity) : elem_scope.
Local Open Scope elem_scope.

(** The three operators describe one total order on [T]. *)
Class ElemLaws (T : Type) `{Elem T} : Prop := {
  eqb_eq : forall a b : T, (a == b) = true <-> a = b;
  gtb_ltb : forall a b : T, (a >> b) = (b << a);
  ltb_irrefl : forall a : T, (a << a) = false;
  ltb_trans : forall a b c : T, (a << b) = true -> (b << c) = true -> (a << c) = true;
  ltb_total : forall a b : T, (a << b) = false -> (b << a) = false -> a = b
}.

#[global] Instance Z_Elem : Elem Z := {| eqb := Z.eqb; ltb := Z.ltb; gtb := Z.gtb |}.

Section Container.

Context {T : Type} `{Elem T}.

(** ** std::vector primitives on the backing storage *)

Definition vsize (st : list T) : Z := Z.of_nat (length st).

(** [_storage[pos]], read. *)
Definition rd (st : list T) (pos : Z) : outcome T :=
  if (0 <=? pos) && (pos <? vsize st)
  then match nth_error st (Z.to_nat pos) with
       | Some x => Done x
       | None => Undefined
       end
  else Undefined.

(** [_storage[pos] = t]. *)
Definition wr (st : list T) (pos : Z) (t : T) : outcome (list T) :=
  if (0 <=? pos) && (pos <? vsize st)
  then Done (firstn (Z.to_nat pos) st ++ t :: skipn (S (Z.to_nat pos)) st)
  else Undefined.

(** [_storage.erase(_storage.begin() + pos)]. *)
Definition vec_erase (st : list T) (pos : Z) : outcome (list T) :=
  if (0 <=? pos) && (pos <? vsize st)
  then Done (firstn (Z.to_nat pos) st ++ skipn (S (Z.to_nat pos)) st)
  else Undefined.

(** [_storage.insert(_storage.begin() + pos, t)]. *)
Definition vec_insert (st : list T) (pos : Z) (t : T) : outcome (list T) :=
  if (0 <=? pos) && (pos <=? vsize st)
  then Done (firstn (Z.to_nat pos) st ++ t :: skipn (Z.to_nat pos) st)
  else Undefined.

(** [_storage.push_back(t)]. *)
Definition push_back (st : list T) (t : T) : list T := st ++ [t].

(** [std::sort(_storage.begin(), _storage.end())]: the standard library
    routine is not part of the header; it is modelled by insertion sort on
    [operator<], which returns the ascending arrangement of its input. *)
Fixpoint sort_insert (x : T) (l : list T) : list T :=
  match l with
  | [] => [x]
  | y :: l' => if x << y then x :: y :: l' else y :: sort_insert x l'
  end.

Definition std_sort (l : list T) : list T := fold_right sort_insert [] l.

(** ** The container *)

Record sorted_vector : Type := mk_sv {
  _storage : list T;
  _last_modified : Z;
  _is_corrupted : bool;
  _flag_suspend_autorepair : bool
}.

(** [sorted_vector()] *)
Definition sv_empty : sorted_vector :=
  {| _storage := []; _last_modified := npos;
     _is_corrupted := false; _flag_suspend_autorepair := false |}.

Definition size (sv : sorted_vector) : Z := vsize (_storage sv).

Definition empty (sv : sorted_vector) : bool :=
  match _storage sv with [] => true | _ => false end.

Definition corrupted (sv : sorted_vector) : bool := _is_corrupted sv.

Definition set_storage (sv : sorted_vector) (st : list T) : sorted_vector :=
  {| _storage := st; _last_modified := _last_modified sv;
     _is_corrupted := _is_corrupted sv;
     _flag_suspend_autorepair := _flag_suspend_autorepair sv |}.

Definition set_last_modified (sv : sorted_vector) (p : Z) : sorted_vector :=
  {| _storage := _storage sv; _last_modified := p;
     _is_corrupted := _is_corrupted sv;
     _flag_suspend_autorepair := _flag_suspend_autorepair sv |}.

Definition set_is_corrupted (sv : sorted_vector) (b : bool) : sorted_vector :=
  {| _storage := _storage sv; _last_modified := _last_modified sv;
     _is_corrupted := b;
     _flag_suspend_autorepair := _flag_suspend_autorepair sv |}.

Definition set_flag_suspend_autorepair (sv : sorted_vector) (b : bool) : sorted_vector :=
  {| _storage := _storage sv; _last_modified := _last_modified sv;
     _is_corrupted := _is_corrupted sv;
     _flag_suspend_autorepair := b |}.

(** Fuel handed to every loop of a method: more than the number of elements. *)
Definition fuel_of (sv : sorted_vector) : nat := S (length (_storage sv)).

(** [sort()] *)
Definition sort (sv : sorted_vector) : sorted_vector :=
  set_is_corrupted (set_storage sv (std_sort (_storage sv))) false.

(** [sorted_vector(const std::vector<T> &v)] *)
Definition sv_of_vector (v : list T) : sorted_vector :=
  sort (set_storage sv_empty v).

(** ** Linear searches *)

(** [while (start_pos != end_pos) { if (_storage[start_pos++] == t) return start_pos - 1; } return -1;] *)
Fixpoint find_linear_loop (fuel : nat) (st : list T) (t : T) (start_pos end_pos : Z)
  : outcome Z :=
  match fuel with
  | O => OutOfFuel
  | S fuel' =>
      if negb (start_pos =? end_pos) then
        x <- rd st start_pos ;;
        let start_pos' := sz_add start_pos 1 in
        if x == t then Done (sz_sub start_pos' 1)
        else find_linear_loop fuel' st t start_pos' end_pos
      else Done npos
  end.

Definition find_linear (sv : sorted_vector) (t : T) (start_pos end_pos : Z) : outcome Z :=
  if size sv =? 0 then Done npos else
  let end_pos := if end_pos =? npos then sz_sub (size sv) 1 else end_pos in
  if end_pos <? start_pos then Done npos else
  let end_pos := if end_pos =? npos then sz_sub (size sv) 1 else end_pos in
  find_linear_loop (fuel_of sv) (_storage sv) t start_pos end_pos.

(** The body of [find_linear_first] is the same text as [find_linear]. *)
Definition find_linear_first (sv : sorted_vector) (t : T) (start_pos end_pos : Z)
  : outcome Z :=
  if size sv =? 0 then Done npos else
  let end_pos := if end_pos =? npos then sz_sub (size sv) 1 else end_pos in
  if end_pos <? start_pos then Done npos else
  let end_pos := if end_pos =? npos then sz_sub (size sv) 1 else end_pos in
  find_linear_loop (fuel_of sv) (_storage sv) t start_pos end_pos.

(** [while (start_pos != end_pos) { if (_storage[end_pos--] == t) return end_pos + 1; } return -1;] *)
Fixpoint find_linear_last_loop (fuel : nat) (st : list T) (t : T) (start_pos end_pos : Z)
  : outcome Z :=
  match fuel with
  | O => OutOfFuel
  | S fuel' =>
      if negb (start_pos =? end_pos) then
        x <- rd st end_pos ;;
        let end_pos' := sz_sub end_pos 1 in
        if x == t then Done (sz_add end_pos' 1)
        else find_linear_last_loop fuel' st t start_pos end_pos'
      else Done npos
  end.

Definition find_linear_last (sv : sorted_vector) (t : T) (start_pos end_pos : Z)
  : outcome Z :=
  if size sv =? 0 then Done npos else
  let end_pos := if end_pos =? npos then sz_sub (size sv) 1 else end_pos in
  if end_pos <? start_pos then Done npos else
  let end_pos := if end_pos =? npos then sz_sub (size sv) 1 else end_pos in
  find_linear_last_loop (fuel_of sv) (_storage sv) t start_pos end_pos.

(** ** Binary searches *)

(** The [while (f <= l)] loop of [find]. *)
Fixpoint find_loop (fuel : nat) (st : list T) (t : T) (f l m : Z) : outcome Z :=
  match fuel with
  | O => OutOfFuel
  | S fuel' =>
      if f <=? l then
        xm <- rd st m ;;
        if xm == t then Done m else
        xf <- rd st f ;;
        if xf == t then Done f else
        xl <- rd st l ;;
        if xl == t then Done l else
        if xm << t then
          let f' := sz_add m 1 in
          find_loop fuel' st t f' l (wrap (l + f') / 2)
        else
          if m =? 0 then Done npos else
          let l' := sz_sub m 1 in
          find_loop fuel' st t f l' (wrap (l' + f) / 2)
      else Done npos
  end.

Definition find (sv : sorted_vector) (t : T) (start_pos end_pos : Z) : outcome Z :=
  if empty sv then Done npos else
  if negb (_is_corrupted sv) then
    let f := start_pos in
    let l := if end_pos =? npos then sz_sub (size sv) 1 else end_pos in
    let m := wrap (f + l) / 2 in
    find_loop (fuel_of sv) (_storage sv) t f l m
  else find_linear sv t start_pos end_pos.

(** [size_t prev_pos; while ((t == _storage[pos]) && (pos >= start_pos)) prev_pos = pos--; return prev_pos;]
    [prev_pos] starts uninitialised ([None]). *)
Fixpoint find_first_walk (fuel : nat) (st : list T) (t : T) (start_pos pos : Z)
  (prev_pos : option Z) : outcome Z :=
  match fuel with
  | O => OutOfFuel
  | S fuel' =>
      x <- rd st pos ;;
      if (t == x) && (start_pos <=? pos)
      then find_first_walk fuel' st t start_pos (sz_sub pos 1) (Some pos)
      else match prev_pos with Some p => Done p | None => Undefined end
  end.

Definition find_first (sv : sorted_vector) (t : T) (start_pos end_pos : Z) : outcome Z :=
  if empty sv then Done npos else
  let end_pos := if end_pos =? npos then sz_sub (size sv) 1 else end_pos in
  if negb (_is_corrupted sv) then
    pos <- find sv t start_pos end_pos ;;
    if pos =? npos then Done npos else
    find_first_walk (fuel_of sv) (_storage sv) t start_pos pos None
  else find_linear_first sv t start_pos end_pos.

(** [while ((t == _storage[pos]) && (pos <= end_pos)) prev_pos = pos++; return prev_pos;] *)
Fixpoint find_last_walk (fuel : nat) (st : list T) (t : T) (end_pos pos : Z)
  (prev_pos : option Z) : outcome Z :=
  match fuel with
  | O => OutOfFuel
  | S fuel' =>
      x <- rd st pos ;;
      if (t == x) && (pos <=? end_pos)
      then find_last_walk fuel' st t end_pos (sz_add pos 1) (Some pos)
      else match prev_pos with Some p => Done p | None => Undefined end
  end.

Definition find_last (sv : sorted_vector) (t : T) (start_pos end_pos : Z) : outcome Z :=
  let end_pos := if end_pos =? npos then sz_sub (size sv) 1 else end_pos in
  if negb (_is_corrupted sv) then
    pos <- find sv t start_pos end_pos ;;
    if pos =? npos then Done npos else
    find_last_walk (fuel_of sv) (_storage sv) t end_pos pos None
  else find_linear_last sv t 0 npos.

Definition find_next (sv : sorted_vector) (current_pos end_pos : Z) : outcome Z :=
  let end_pos := if end_pos =? npos then sz_sub (size sv) 1 else end_pos in
  if current_pos =? end_pos then Done npos else
  if negb (_is_corrupted sv) then
    a <- rd (_storage sv) current_pos ;;
    b <- rd (_storage sv) (sz_add current_pos 1) ;;
    if a == b then Done (sz_add current_pos 1) else Done npos
  else
    a <- rd (_storage sv) current_pos ;;
    find_first sv a (sz_add current_pos 1) end_pos.

Definition find_prev (sv : sorted_vector) (current_pos start_pos : Z) : outcome Z :=
  if current_pos <=? start_pos then Done npos else
  if negb (_is_corrupted sv) then
    a <- rd (_storage sv) current_pos ;;
    b <- rd (_storage sv) (sz_sub current_pos 1) ;;
    if a == b then Done (sz_sub current_pos 1) else Done npos
  else
    a <- rd (_storage sv) current_pos ;;
    find_last sv a start_pos (sz_sub current_pos 1).

(** Inner walk of [find_floor]:
    [while (m-- > f) { if (!(_storage[m] == t)) return m + 1; } return f;] *)
Fixpoint find_floor_walk (fuel : nat) (st : list T) (t : T) (f m : Z) : outcome Z :=
  match fuel with
  | O => OutOfFuel
  | S fuel' =>
      let m' := sz_sub m 1 in
      if f <? m then
        x <- rd st m' ;;
        if negb (x == t) then Done (sz_add m' 1)
        else find_floor_walk fuel' st t f m'
      else Done f
  end.

(** The [while (f < l)] loop of [find_floor] and the three-way return after it. *)
Fixpoint find_floor_loop (fuel : nat) (st : list T) (t : T) (f l m : Z) : outcome Z :=
  match fuel with
  | O => OutOfFuel
  | S fuel' =>
      if f <? l then
        xm <- rd st m ;;
        if xm == t then find_floor_walk (S (length st)) st t f m else
        if xm << t then
          let f' := sz_add m 1 in
          find_floor_loop fuel' st t f' l (wrap (l + f') / 2)
        else
          let l' := sz_sub m 1 in
          find_floor_loop fuel' st t f l' (wrap (l' + f) / 2)
      else
        xm <- rd st m ;;
        if xm == t then Done m
        else if xm << t then Done m
        else Done (sz_sub m 1)
  end.

Definition find_floor (sv : sorted_vector) (t : T) (start_pos end_pos : Z) : outcome Z :=
  if empty sv then Done npos else
  let end_pos := if end_pos =? npos then sz_sub (size sv) 1 else end_pos in
  if negb (_is_corrupted sv) then
    xs <- rd (_storage sv) start_pos ;;
    if xs >> t then Done npos else
    xe <- rd (_storage sv) end_pos ;;
    if xe << t then Done end_pos else
    let f := start_pos in
    let l := end_pos in
    let m := wrap (f + l) / 2 in
    find_floor_loop (fuel_of sv) (_storage sv) t f l m
  else Done npos.

(** Inner walk of [find_ceil]:
    [while (m++ < l) { if (!(_storage[m] == t)) return m - 1; } return l;] *)
Fixpoint find_ceil_walk (fuel : nat) (st : list T) (t : T) (l m : Z) : outcome Z :=
  match fuel with
  | O => OutOfFuel
  | S fuel' =>
      let m' := sz_add m 1 in
      if m <? l then
        x <- rd st m' ;;
        if negb (x == t) then Done (sz_sub m' 1)
        else find_ceil_walk fuel' st t l m'
      else Done l
  end.

Fixpoint find_ceil_loop (fuel : nat) (st : list T) (t : T) (f l m : Z) : outcome Z :=
  match fuel with
  | O => OutOfFuel
  | S fuel' =>
      if f <? l then
        xm <- rd st m ;;
        if xm == t then find_ceil_walk (S (length st)) st t l m else
        if xm << t then
          let f' := sz_add m 1 in
          find_ceil_loop fuel' st t f' l (wrap (f' + l) / 2)
        else
          let l' := sz_sub m 1 in
          find_ceil_loop fuel' st t f l' (wrap (f + l') / 2)
      else
        xm <- rd st m ;;
        if xm == t then Done m
        else if xm >> t then Done m
        else Done (sz_add m 1)
  end.

(** Note the first test reads [_storage[0]], not [_storage[start_pos]]. *)
Definition find_ceil (sv : sorted_vector) (t : T) (start_pos end_pos : Z) : outcome Z :=
  if empty sv then Done npos else
  let end_pos := if end_pos =? npos then sz_sub (size sv) 1 else end_pos in
  if negb (_is_corrupted sv) then
    x0 <- rd (_storage sv) 0 ;;
    if x0 >> t then Done 0 else
    xe <- rd (_storage sv) end_pos ;;
    if xe << t then Done npos else
    let f := start_pos in
    let l := end_pos in
    let m := wrap (f + l) / 2 in
    find_ceil_loop (fuel_of sv) (_storage sv) t f l m
  else Done npos.

(** ** Repair *)

(** [single_shift_left(start_pos, end_pos)]: the element at [start_pos] is
    taken out and put back at [end_pos].  Moves are modelled as copies. *)
Definition single_shift_left (sv : sorted_vector) (start_pos end_pos : Z)
  : outcome sorted_vector :=
  if start_pos =? end_pos then Done sv else
  let end_pos := if end_pos =? npos then sz_sub (size sv) 1 else end_pos in
  t <- rd (_storage sv) start_pos ;;
  st1 <- vec_erase (_storage sv) start_pos ;;
  st2 <- vec_insert st1 end_pos t ;;
  Done (set_storage sv st2).

(** [single_shift_right(start_pos, end_pos)]: the element at [end_pos] is
    taken out and put back at [start_pos]. *)
Definition single_shift_right (sv : sorted_vector) (start_pos end_pos : Z)
  : outcome sorted_vector :=
  if start_pos =? end_pos then Done sv else
  let end_pos := if end_pos =? npos then sz_sub (size sv) 1 else end_pos in
  t <- rd (_storage sv) end_pos ;;
  st1 <- vec_erase (_storage sv) end_pos ;;
  st2 <- vec_insert st1 start_pos t ;;
  Done (set_storage sv st2).

(** [repair()].  In both shifting branches the displaced element is moved
    out into [t] before the shift and assigned back after it; with moves
    modelled as copies the slot it leaves is overwritten by that last
    assignment. *)
Definition repair (sv : sorted_vector) : outcome sorted_vector :=
  if _is_corrupted sv then
    sv' <-
      (if _last_modified sv =? npos then Done (sort sv)
       else
         let sv := set_is_corrupted sv false in
         let lm := _last_modified sv in
         c1 <- (if 0 <? lm then
                  a <- rd (_storage sv) lm ;;
                  b <- rd (_storage sv) (sz_sub lm 1) ;;
                  Done (a << b)
                else Done false) ;;
         if c1 then
           x <- rd (_storage sv) lm ;;
           pos_ceil <- find_ceil sv x 0 (sz_sub lm 1) ;;
           let t := x in
           sv1 <- single_shift_right sv pos_ceil lm ;;
           st <- wr (_storage sv1) pos_ceil t ;;
           Done (set_storage sv1 st)
         else
           c2 <- (if lm <? sz_sub (size sv) 1 then
                    a <- rd (_storage sv) lm ;;
                    b <- rd (_storage sv) (sz_add lm 1) ;;
                    Done (a >> b)
                  else Done false) ;;
           if c2 then
             x <- rd (_storage sv) lm ;;
             pos_floor <- find_floor sv x (sz_add lm 1) (sz_sub (size sv) 1) ;;
             let t := x in
             sv1 <- single_shift_left sv lm pos_floor ;;
             st <- wr (_storage sv1) pos_floor t ;;
             Done (set_storage sv1 st)
           else Done sv) ;;
    Done (set_last_modified sv' npos)
  else Done sv.

(** The prologue of the mutating methods:
    [if (_is_corrupted) { if (!_flag_suspend_autorepair) repair(); }] *)
Definition autorepair (sv : sorted_vector) : outcome sorted_vector :=
  if _is_corrupted sv then
    if negb (_flag_suspend_autorepair sv) then repair sv else Done sv
  else Done sv.

(** ** Element access *)

(** Non-const [at(pos)]: [return _storage.at(pos);].  The result is the
    container after the call; the returned reference designates
    [_storage[pos]]. *)
Definition at_mut (sv : sorted_vector) (pos : Z) : outcome sorted_vector :=
  if (0 <=? pos) && (pos <? size sv) then Done sv else OutOfRange.

(** Non-const [operator[](pos)]. *)
Definition index_mut (sv : sorted_vector) (pos : Z) : outcome sorted_vector :=
  sv <- (if negb (_flag_suspend_autorepair sv) then repair sv else Done sv) ;;
  let sv := if _is_corrupted sv then set_last_modified sv npos
            else set_last_modified sv pos in
  let sv := set_is_corrupted sv true in
  _ <- rd (_storage sv) pos ;;
  Done sv.

(** Writing [v] through a reference to [_storage[pos]] obtained earlier. *)
Definition store_ref (sv : sorted_vector) (pos : Z) (v : T) : outcome sorted_vector :=
  st <- wr (_storage sv) pos v ;;
  Done (set_storage sv st).

(** The statement [sv[pos] = v;]. *)
Definition assign_index (sv : sorted_vector) (pos : Z) (v : T) : outcome sorted_vector :=
  sv <- index_mut sv pos ;;
  store_ref sv pos v.

(** The statement [sv.at(pos) = v;]. *)
Definition assign_at (sv : sorted_vector) (pos : Z) (v : T) : outcome sorted_vector :=
  sv <- at_mut sv pos ;;
  store_ref sv pos v.

(** Non-const [begin()]: the container after the call and the position of
    the iterator it returns. *)
Definition begin_mut (sv : sorted_vector) : outcome (sorted_vector * Z) :=
  sv <- (if negb (_flag_suspend_autorepair sv) then repair sv else Done sv) ;;
  let sv := if _is_corrupted sv then set_last_modified sv npos
            else set_last_modified sv 0 in
  let sv := set_is_corrupted sv true in
  Done (sv, 0).

(** [sorted_vector_iterator::operator*()]: [return _owner->operator[](_pos);] *)
Definition iterator_deref (owner : sorted_vector) (_pos : Z) : outcome sorted_vector :=
  index_mut owner _pos.

(** ** Insertion *)

(** [push(const T &t)]; the overload taking [T &&] has the same text. *)
Definition push (sv : sorted_vector) (t : T) : outcome sorted_vector :=
  sv <- autorepair sv ;;
  if negb (_is_corrupted sv) then
    if size sv =? 0 then Done (set_storage sv (push_back (_storage sv) t)) else
    pos <- find_ceil sv t 0 npos ;;
    if pos =? npos then Done (set_storage sv (push_back (_storage sv) t))
    else
      x <- rd (_storage sv) pos ;;
      if x == t then
        st <- vec_insert (_storage sv) (sz_add pos 1) t ;;
        Done (set_storage sv st)
      else
        st <- vec_insert (_storage sv) pos t ;;
        Done (set_storage sv st)
  else Done (set_storage sv (push_back (_storage sv) t)).

(** [replace(const T &t)]; the overload taking [T &&] has the same text. *)
Definition replace (sv : sorted_vector) (t : T) : outcome sorted_vector :=
  sv <- autorepair sv ;;
  pos <- find sv t 0 npos ;;
  if negb (pos =? npos) then
    st <- wr (_storage sv) pos t ;;
    Done (set_storage sv st)
  else push sv t.

(** [merge(const std::vector<T> &v)]; [merge(const sorted_vector<T> &sv)]
    does the same with [sv._storage]. *)
Definition merge (sv : sorted_vector) (v : list T) : outcome sorted_vector :=
  let sv := set_storage sv (_storage sv ++ v) in
  let sv := set_last_modified sv npos in
  let sv := set_is_corrupted sv true in
  repair sv.

(** [suspend_autorepair()] *)
Definition suspend_autorepair (sv : sorted_vector) : sorted_vector :=
  let sv := set_flag_suspend_autorepair sv true in
  let sv := set_last_modified sv npos in
  set_is_corrupted sv true.

(** [resume_autorepair()] *)
Definition resume_autorepair (sv : sorted_vector) : outcome sorted_vector :=
  repair (set_flag_suspend_autorepair sv false).

(** ** Sequences of calls *)

Inductive op : Type :=
| Push (t : T)
| Replace (t : T)
| Merge (v : list T).

Definition apply_op (sv : sorted_vector) (o : op) : outcome sorted_vector :=
  match o with
  | Push t => push sv t
  | Replace t => replace sv t
  | Merge v => merge sv v
  end.

Fixpoint run (ops : list op) (sv : sorted_vector) : outcome sorted_vector :=
  match ops with
  | [] => Done sv
  | o :: ops' => sv' <- apply_op sv o ;; run ops' sv'
  end.

(** The most elements a call can add. *)
Definition growth (o : op) : Z :=
  match o with
  | Push _ => 1
  | Replace _ => 1
  | Merge v => vsize v
  end.

Fixpoint total_growth (ops : list op) : Z :=
  match ops with
  | [] => 0
  | o :: ops' => growth o + total_growth ops'
  end.

(** ** Vocabulary of the specification *)

(** [a <= b] on elements, from [operator<]. *)
Definition le (a b : T) : Prop := (b << a) = false.

(** Invariant I1: every adjacent pair of the storage is in order. *)
Definition ascending (st : list T) : Prop :=
  forall i x y, rd st i = Done x -> rd st (i + 1) = Done y -> le x y.

(** The positions [s .. e] of the storage are in order. *)
Definition sorted_range (st : list T) (s e : Z) : Prop :=
  forall i j x y, s <= i -> i <= j -> j <= e ->
    rd st i = Done x -> rd st j = Done y -> le x y.

(** Every element at a position in [[a, b)] is less than [t]. *)
Definition all_lt (st : list T) (a b : Z) (t : T) : Prop :=
  forall j x, a <= j < b -> rd st j = Done x -> (x << t) = true.

(** Every element at a position in [(a, b]] is greater than [t]. *)
Definition all_gt (st : list T) (a b : Z) (t : T) : Prop :=
  forall j x, a < j <= b -> rd st j = Done x -> (t << x) = true.

(** What [find_ceil] lands on inside [s .. e]: the last position holding [t],
    or, when no position holds [t], the first position holding more. *)
Definition ceil_at (st : list T) (t : T) (s e r : Z) : Prop :=
  s <= r <= e /\
  exists x, rd st r = Done x /\
    ((x = t /\ all_gt st r e t) \/ ((t << x) = true /\ all_lt st s r t)).

(** What [find_floor] lands on inside [s .. e]: the first position holding
    [t], or, when no position holds [t], the last position holding less. *)
Definition floor_at (st : list T) (t : T) (s e r : Z) : Prop :=
  s <= r <= e /\
  exists x, rd st r = Done x /\
    ((x = t /\ all_lt st s r t) \/ ((x << t) = true /\ all_gt st r e t)).

(** [r] is the largest position whose value is [<= t]. *)
Definition is_largest_le (st : list T) (t : T) (r : Z) : Prop :=
  (exists x, rd st r = Done x /\ le x t) /\
  (forall j y, rd st j = Done y -> le y t -> j <= r).

(** [r] is the smallest position whose value is [>= t]. *)
Definition is_smallest_ge (st : list T) (t : T) (r : Z) : Prop :=
  (exists x, rd st r = Done x /\ le t x) /\
  (forall j y, rd st j = Done y -> le t y -> r <= j).

(** The boundary [find_floor] honours in the sorted state: not-found exactly
    when every element is greater than [t]; otherwise a position holding a
    value [<= t], namely the first position holding [t] when [t] is stored
    and the last position holding less than [t] when it is not. *)
Definition floor_boundary (sv : sorted_vector) (t : T) : Prop :=
  exists r, find_floor sv t 0 npos = Done r /\
    (r = npos <-> forall x, In x (_storage sv) -> (t << x) = true) /\
    (r <> npos ->
       exists x, rd (_storage sv) r = Done x /\ le x t /\
         (In t (_storage sv) -> x = t /\ all_lt (_storage sv) 0 r t) /\
         (~ In t (_storage sv) -> all_gt (_storage sv) r (size sv - 1) t)).

(** The boundary [find_ceil] honours in the sorted state: not-found exactly
    when every element is less than [t]; otherwise a position holding a value
    [>= t], namely the last position holding [t] when [t] is stored and the
    first position holding more than [t] when it is not. *)
Definition ceil_boundary (sv : sorted_vector) (t : T) : Prop :=
  exists r, find_ceil sv t 0 npos = Done r /\
    (r = npos <-> forall x, In x (_storage sv) -> (x << t) = true) /\
    (r <> npos ->
       exists x, rd (_storage sv) r = Done x /\ le t x /\
         (In t (_storage sv) -> x = t /\ all_gt (_storage sv) r (size sv - 1) t) /\
         (~ In t (_storage sv) -> all_lt (_storage sv) 0 r t)).

(** *** Reference linear scans

    The specification compares the searches with a plain scan of the
    storage.  [ref_find] is the first position holding [t]; [ref_floor] and
    [ref_ceil] follow the glossary ("largest element <= key", "smallest
    element >= key") and give the position of that element. *)
Fixpoint ref_find_from (st : list T) (t : T) (i : Z) : option Z :=
  match st with
  | [] => None
  | x :: st' => if x == t then Some i else ref_find_from st' t (i + 1)
  end.

Definition ref_find (st : list T) (t : T) : option Z := ref_find_from st t 0.

Fixpoint ref_floor_from (st : list T) (t : T) (i : Z) (best : option (Z * T))
  : option Z :=
  match st with
  | [] => option_map fst best
  | x :: st' =>
      let best' :=
        if t << x then best
        else match best with
             | None => Some (i, x)
             | Some (_, b) => if x << b then best else Some (i, x)
             end in
      ref_floor_from st' t (i + 1) best'
  end.

Definition ref_floor (st : list T) (t : T) : option Z := ref_floor_from st t 0 None.

Fixpoint ref_ceil_from (st : list T) (t : T) (i : Z) (best : option (Z * T))
  : option Z :=
  match st with
  | [] => option_map fst best
  | x :: st' =>
      let best' :=
        if x << t then best
        else match best with
             | None => Some (i, x)
             | Some (_, b) => if x << b then Some (i, x) else best
             end in
      ref_ceil_from st' t (i + 1) best'
  end.

Definition ref_ceil (st : list T) (t : T) : option Z := ref_ceil_from st t 0 None.

(** The outcome of [sv[i] = v; repair();] started from [sv0] with [tracked]
    the dirty index recorded in between:
    both calls return, and the storage after [repair()] is the full sort of
    the storage after the mutation. *)
Definition mutation_then_repair_sorts (sv0 : sorted_vector) (i : Z) (v : T)
  (tracked : Z) : Prop :=
  exists sv1 sv2,
    assign_index sv0 i v = Done sv1 /\
    _is_corrupted sv1 = true /\ _last_modified sv1 = tracked /\
    repair sv1 = Done sv2 /\
    _storage sv2 = std_sort (_storage sv1) /\
    _is_corrupted sv2 = false.

(** The sorted state: not flagged as corrupted and stored in order. *)
Definition settled (sv : sorted_vector) : Prop :=
  _is_corrupted sv = false /\ StronglySorted le (_storage sv).

End Container.

Arguments sorted_vector : clear implicits.
Arguments op : clear implicits.


(** ** The remaining methods of the container *)

Section MoreMethods.

Context {T : Type} `{Elem T}.

(** Const [operator[](pos)]: [return _storage[pos];], no dirty tracking. *)
Definition index_const (sv : sorted_vector T) (pos : Z) : outcome T :=
  rd (_storage sv) pos.

(** Const [front()]: the const [operator[]] at position 0. *)
Definition front_const (sv : sorted_vector T) : outcome T :=
  index_const sv 0.

(** Const [back()]: the const [operator[]] at position [_storage.size() - 1]. *)
Definition back_const (sv : sorted_vector T) : outcome T :=
  index_const sv (sz_sub (size sv) 1).

(** [erase(pos)] *)
Definition erase (sv : sorted_vector T) (pos : Z) : outcome (sorted_vector T) :=
  sv <- autorepair sv ;;
  st <- vec_erase (_storage sv) pos ;;
  Done (set_storage sv st).

(** [_storage.erase(_storage.begin() + first, _storage.begin() + last)]:
    both iterators must lie inside the vector and be in order. *)
Definition vec_erase_range (st : list T) (first last : Z) : outcome (list T) :=
  if (0 <=? first) && (first <=? last) && (last <=? vsize st)
  then Done (firstn (Z.to_nat first) st ++ skipn (Z.to_nat last) st)
  else Undefined.

(** [erase(pos_start, pos_end)]: the second iterator is
    [_storage.begin() + pos_end + 1], so [pos_end] is erased too.  A
    [pos_end] that is not a position of the vector gives an iterator outside
    it and is reported as [Undefined]. *)
Definition erase_range (sv : sorted_vector T) (pos_start pos_end : Z)
  : outcome (sorted_vector T) :=
  sv <- autorepair sv ;;
  st <- (if (0 <=? pos_end) && (pos_end <? size sv)
         then vec_erase_range (_storage sv) pos_start (pos_end + 1)
         else Undefined) ;;
  Done (set_storage sv st).

(** [merge_replace(const std::vector<T> &v)]:
    [for (size_t i = 0; i < v.size(); i++) replace(v[i]);] *)
Fixpoint merge_replace (sv : sorted_vector T) (v : list T)
  : outcome (sorted_vector T) :=
  match v with
  | [] => Done sv
  | t :: v' => sv' <- replace sv t ;; merge_replace sv' v'
  end.

(** A caller's loop [for (t : v) sv.push(t);]. *)
Definition push_each (sv : sorted_vector T) (v : list T)
  : outcome (sorted_vector T) :=
  run (map Push v) sv.

End MoreMethods.

(** ** sorted_vector_with_key *)

Section WithKey.

(** [key_of] stands for the member access [.CIM_KEYNAME]; [Key] has its own
    [==] and [<]. *)
Context {T Key : Type} `{Elem Key} (key_of : T -> Key).

(** [sorted_vector_with_key::find_linear]: the loop of [find_linear] with the
    key of the element compared. *)
Fixpoint find_linear_loop_with_key (fuel : nat) (st : list T) (key : Key)
  (start_pos end_pos : Z) : outcome Z :=
  match fuel with
  | O => OutOfFuel
  | S fuel' =>
      if negb (start_pos =? end_pos) then
        x <- rd st start_pos ;;
        let start_pos' := sz_add start_pos 1 in
        if key_of x == key then Done (sz_sub start_pos' 1)
        else find_linear_loop_with_key fuel' st key start_pos' end_pos
      else Done npos
  end.

Definition find_linear_with_key (sv : sorted_vector T) (key : Key)
  (start_pos end_pos : Z) : outcome Z :=
  if size sv =? 0 then Done npos else
  let end_pos := if end_pos =? npos then sz_sub (size sv) 1 else end_pos in
  if end_pos <? start_pos then Done npos else
  let end_pos := if end_pos =? npos then sz_sub (size sv) 1 else end_pos in
  find_linear_loop_with_key (fuel_of sv) (_storage sv) key start_pos end_pos.

(** [sorted_vector_with_key::find]: the loop of [find] with the key of the
    element compared; [this->operator[]] is the const overload. *)
Fixpoint find_loop_with_key (fuel : nat) (st : list T) (key : Key) (f l m : Z)
  : outcome Z :=
  match fuel with
  | O => OutOfFuel
  | S fuel' =>
      if f <=? l then
        xm <- rd st m ;;
        if key_of xm == key then Done m else
        xf <- rd st f ;;
        if key_of xf == key then Done f else
        xl <- rd st l ;;
        if key_of xl == key then Done l else
        if key_of xm << key then
          let f' := sz_add m 1 in
          find_loop_with_key fuel' st key f' l (wrap (l + f') / 2)
        else
          if m =? 0 then Done npos else
          let l' := sz_sub m 1 in
          find_loop_with_key fuel' st key f l' (wrap (l' + f) / 2)
      else Done npos
  end.

Definition find_with_key (sv : sorted_vector T) (key : Key)
  (start_pos end_pos : Z) : outcome Z :=
  if size sv =? 0 then Done npos else
  if negb (corrupted sv) then
    let f := start_pos in
    let l := if end_pos =? npos then sz_sub (size sv) 1 else end_pos in
    let m := wrap (f + l) / 2 in
    find_loop_with_key (fuel_of sv) (_storage sv) key f l m
  else find_linear_with_key sv key start_pos end_pos.

(** The container of the keys, in the same state. *)
Definition keys_of (sv : sorted_vector T) : sorted_vector Key :=
  mk_sv (map key_of (_storage sv)) (_last_modified sv)
        (_is_corrupted sv) (_flag_suspend_autorepair sv).

End WithKey.
(** * Properties *)

(** ** The integers are an element type *)

#[global] Instance Z_ElemLaws : ElemLaws Z.
Proof.
  constructor; simpl.
  - intros a b. apply Z.eqb_eq.
  - intros a b. apply Z.gtb_ltb.
  - intros a. apply Z.ltb_irrefl.
  - intros a b c Hab Hbc. apply Z.ltb_lt in Hab, Hbc. apply Z.ltb_lt. lia.
  - intros a b Hab Hba. apply Z.ltb_ge in Hab, Hba. lia.
Qed.

(** ** size_t arithmetic inside the representable range *)

Lemma wrap_small (z : Z) : 0 <= z < two64 -> wrap z = z.
Proof. intros Hz. unfold wrap. apply Z.mod_small. exact Hz. Qed.

Lemma sz_add_small (a b : Z) : 0 <= a + b < two64 -> sz_add a b = a + b.
Proof. intros Hz. unfold sz_add. apply wrap_small. exact Hz. Qed.

Lemma sz_sub_small (a b : Z) : 0 <= a - b < two64 -> sz_sub a b = a - b.
Proof. intros Hz. unfold sz_sub. apply wrap_small. exact Hz. Qed.

Lemma sz_sub_zero_one : sz_sub 0 1 = npos.
Proof. reflexivity. Qed.

Ltac size_t :=
  unfold max_size, two64, npos in *; lia.

Section Laws.

Context {T : Type} `{ElemLaws T}.

(** ** Order reasoning on the three operators *)

Lemma eqb_refl (a : T) : (a == a) = true.
Proof. apply eqb_eq. reflexivity. Qed.

Lemma eqb_neq (a b : T) : (a == b) = false <-> a <> b.
Proof.
  split.
  - intros E Hab. apply eqb_eq in Hab. congruence.
  - intros Hab. destruct (a == b) eqn:E; [|reflexivity].
    apply eqb_eq in E. contradiction.
Qed.

Lemma ltb_asym (a b : T) : (a << b) = true -> (b << a) = false.
Proof.
  intros Hab. destruct (b << a) eqn:E; [|reflexivity].
  pose proof (ltb_trans _ _ _ Hab E) as C. rewrite ltb_irrefl in C. discriminate.
Qed.

Lemma lt_le_trans (a b c : T) : (a << b) = true -> le b c -> (a << c) = true.
Proof.
  unfold le. intros Hab Hbc.
  destruct (a << c) eqn:Eac; [reflexivity|].
  destruct (c << a) eqn:Eca.
  - pose proof (ltb_trans _ _ _ Eca Hab). congruence.
  - pose proof (ltb_total _ _ Eac Eca). subst c. congruence.
Qed.

Lemma le_lt_trans (a b c : T) : le a b -> (b << c) = true -> (a << c) = true.
Proof.
  unfold le. intros Hab Hbc.
  destruct (a << c) eqn:Eac; [reflexivity|].
  destruct (c << a) eqn:Eca.
  - pose proof (ltb_trans _ _ _ Hbc Eca). congruence.
  - pose proof (ltb_total _ _ Eac Eca). subst c. congruence.
Qed.

Lemma le_refl (a : T) : le a a.
Proof. apply ltb_irrefl. Qed.

Lemma le_trans (a b c : T) : le a b -> le b c -> le a c.
Proof.
  unfold le. intros Hab Hbc.
  destruct (c << a) eqn:E; [|reflexivity].
  pose proof (lt_le_trans _ _ _ E Hab). congruence.
Qed.

Lemma lt_le (a b : T) : (a << b) = true -> le a b.
Proof. apply ltb_asym. Qed.

Lemma le_antisym (a b : T) : le a b -> le b a -> a = b.
Proof. unfold le. intros. apply ltb_total; assumption. Qed.

Lemma le_neq_lt (a b : T) : le a b -> a <> b -> (a << b) = true.
Proof.
  unfold le. intros Hab Hn. destruct (a << b) eqn:E; [reflexivity|].
  exfalso. apply Hn. apply ltb_total; assumption.
Qed.

Lemma le_total (a b : T) : le a b \/ le b a.
Proof.
  unfold le. destruct (b << a) eqn:E; [right|left; reflexivity].
  apply ltb_asym. exact E.
Qed.

#[local] Hint Resolve le_refl lt_le le_trans lt_le_trans le_lt_trans ltb_asym : ord.

(** ** Reading and rebuilding the storage *)

Lemma rd_Done (st : list T) (i : Z) (x : T) :
  rd st i = Done x ->
  0 <= i < vsize st /\ nth_error st (Z.to_nat i) = Some x.
Proof.
  unfold rd.
  destruct ((0 <=? i) && (i <? vsize st)) eqn:E; [|discriminate].
  apply andb_true_iff in E. destruct E as [E1 E2].
  apply Z.leb_le in E1. apply Z.ltb_lt in E2.
  destruct (nth_error st (Z.to_nat i)) eqn:N; [|discriminate].
  intros [= ->]. auto.
Qed.

Lemma rd_bounds (st : list T) (i : Z) (x : T) :
  rd st i = Done x -> 0 <= i < vsize st.
Proof. intros R. apply rd_Done in R. tauto. Qed.

Lemma rd_nth_error (st : list T) (k : nat) (x : T) :
  nth_error st k = Some x -> rd st (Z.of_nat k) = Done x.
Proof.
  intros N. unfold rd, vsize.
  assert (k < length st)%nat as L by (apply nth_error_Some; congruence).
  replace ((0 <=? Z.of_nat k) && (Z.of_nat k <? Z.of_nat (length st))) with true.
  - rewrite Nat2Z.id, N. reflexivity.
  - symmetry. apply andb_true_iff. split; [apply Z.leb_le|apply Z.ltb_lt]; lia.
Qed.

Lemma rd_ok (st : list T) (i : Z) :
  0 <= i < vsize st -> exists x, rd st i = Done x.
Proof.
  intros Hi. unfold vsize in Hi.
  destruct (nth_error st (Z.to_nat i)) eqn:N.
  - exists t. rewrite <- (Z2Nat.id i) by lia. apply rd_nth_error. exact N.
  - apply nth_error_None in N. lia.
Qed.

Lemma rd_In (st : list T) (i : Z) (x : T) : rd st i = Done x -> In x st.
Proof. intros R. apply rd_Done in R. eapply nth_error_In. apply R. Qed.

Lemma In_rd (st : list T) (x : T) : In x st -> exists i, rd st i = Done x.
Proof.
  intros I. apply In_nth_error in I. destruct I as [k N].
  exists (Z.of_nat k). apply rd_nth_error. exact N.
Qed.

Lemma rd_det (st : list T) (i : Z) (x y : T) :
  rd st i = Done x -> rd st i = Done y -> x = y.
Proof. congruence. Qed.

(** Reading inside [a ++ b]. *)
Lemma rd_app_l (a b : list T) (i : Z) :
  0 <= i < vsize a -> rd (a ++ b) i = rd a i.
Proof.
  intros Hi. unfold rd, vsize in *. rewrite length_app.
  replace ((0 <=? i) && (i <? Z.of_nat (length a + length b))) with true
    by (symmetry; apply andb_true_iff; split; [apply Z.leb_le|apply Z.ltb_lt]; lia).
  replace ((0 <=? i) && (i <? Z.of_nat (length a))) with true
    by (symmetry; apply andb_true_iff; split; [apply Z.leb_le|apply Z.ltb_lt]; lia).
  rewrite nth_error_app1 by lia. reflexivity.
Qed.

Lemma rd_app_r (a b : list T) (i : Z) :
  vsize a <= i -> rd (a ++ b) i = rd b (i - vsize a).
Proof.
  intros Hi. unfold rd, vsize in *. rewrite length_app.
  destruct (Z.ltb_spec i (Z.of_nat (length a + length b))) as [L|L].
  - replace ((0 <=? i) && true) with true
      by (symmetry; apply andb_true_iff; split; [apply Z.leb_le; lia|reflexivity]).
    replace ((0 <=? i - Z.of_nat (length a)) && (i - Z.of_nat (length a) <? Z.of_nat (length b)))
      with true
      by (symmetry; apply andb_true_iff; split; [apply Z.leb_le|apply Z.ltb_lt]; lia).
    rewrite nth_error_app2 by lia.
    replace (Z.to_nat (i - Z.of_nat (length a))) with (Z.to_nat i - length a)%nat by lia.
    reflexivity.
  - rewrite andb_false_r.
    replace (i - Z.of_nat (length a) <? Z.of_nat (length b)) with false
      by (symmetry; apply Z.ltb_ge; lia).
    rewrite andb_false_r. reflexivity.
Qed.

Lemma rd_cons_0 (x : T) (l : list T) : rd (x :: l) 0 = Done x.
Proof. reflexivity. Qed.

Lemma rd_cons_S (x : T) (l : list T) (i : Z) :
  0 < i -> rd (x :: l) i = rd l (i - 1).
Proof.
  intros Hi. change (x :: l) with ([x] ++ l).
  rewrite rd_app_r by (unfold vsize; simpl; lia). reflexivity.
Qed.

Lemma vsize_nonneg (st : list T) : 0 <= vsize st.
Proof. unfold vsize. lia. Qed.

Lemma vsize_app (a b : list T) : vsize (a ++ b) = vsize a + vsize b.
Proof. unfold vsize. rewrite length_app. lia. Qed.

Lemma vsize_firstn (st : list T) (p : Z) :
  0 <= p <= vsize st -> vsize (firstn (Z.to_nat p) st) = p.
Proof. unfold vsize. intros Hp. rewrite length_firstn. lia. Qed.

Lemma vsize_skipn (st : list T) (p : Z) :
  0 <= p <= vsize st -> vsize (skipn (Z.to_nat p) st) = vsize st - p.
Proof. unfold vsize. intros Hp. rewrite length_skipn. lia. Qed.

Lemma rd_firstn (st : list T) (p i : Z) :
  0 <= i < p -> p <= vsize st -> rd (firstn (Z.to_nat p) st) i = rd st i.
Proof.
  intros Hi Hp.
  rewrite <- (firstn_skipn (Z.to_nat p) st) at 2.
  rewrite rd_app_l; [reflexivity|]. rewrite vsize_firstn; lia.
Qed.

Lemma rd_skipn (st : list T) (p i : Z) :
  0 <= p <= vsize st -> 0 <= i -> rd (skipn (Z.to_nat p) st) i = rd st (p + i).
Proof.
  intros Hp Hi.
  rewrite <- (firstn_skipn (Z.to_nat p) st) at 2.
  rewrite rd_app_r by (rewrite vsize_firstn; lia).
  rewrite vsize_firstn by lia. f_equal. lia.
Qed.

(** Membership in a prefix or a suffix, by position. *)
Lemma In_firstn_rd (st : list T) (p : Z) (x : T) :
  0 <= p <= vsize st -> In x (firstn (Z.to_nat p) st) ->
  exists i, 0 <= i < p /\ rd st i = Done x.
Proof.
  intros Hp I. apply In_rd in I. destruct I as [i R].
  pose proof (rd_bounds _ _ _ R) as B. rewrite vsize_firstn in B by lia.
  exists i. split; [lia|]. rewrite <- R. symmetry. apply rd_firstn; lia.
Qed.

Lemma In_skipn_rd (st : list T) (p : Z) (x : T) :
  0 <= p <= vsize st -> In x (skipn (Z.to_nat p) st) ->
  exists i, p <= i < vsize st /\ rd st i = Done x.
Proof.
  intros Hp I. apply In_rd in I. destruct I as [i R].
  pose proof (rd_bounds _ _ _ R) as B. rewrite vsize_skipn in B by lia.
  exists (p + i). split; [lia|]. rewrite <- R. symmetry. apply rd_skipn; lia.
Qed.

(** ** Ascending storage *)

Lemma SS_nth (st : list T) :
  StronglySorted le st ->
  forall (i j : nat) (x y : T), (i <= j)%nat ->
    nth_error st i = Some x -> nth_error st j = Some y -> le x y.
Proof.
  induction 1 as [|a l HS IH HF]; intros i j x y Hij Hi Hj.
  - destruct i; discriminate.
  - destruct i as [|i]; destruct j as [|j]; simpl in *.
    + injection Hi as <-. injection Hj as <-. apply le_refl.
    + injection Hi as <-. apply nth_error_In in Hj.
      rewrite Forall_forall in HF. apply HF. exact Hj.
    + lia.
    + apply (IH i j); [lia|assumption|assumption].
Qed.

Lemma SS_rd (st : list T) (i j : Z) (x y : T) :
  StronglySorted le st -> i <= j ->
  rd st i = Done x -> rd st j = Done y -> le x y.
Proof.
  intros HS Hij Ri Rj. apply rd_Done in Ri, Rj.
  destruct Ri as [Bi Ni]. destruct Rj as [Bj Nj].
  apply (SS_nth st HS (Z.to_nat i) (Z.to_nat j)); [lia|assumption|assumption].
Qed.

Lemma ascending_tail (a : T) (l : list T) : ascending (a :: l) -> ascending l.
Proof.
  intros HA i x y Ri Rj.
  pose proof (rd_bounds _ _ _ Ri) as B.
  apply (HA (i + 1)).
  - rewrite rd_cons_S by lia. replace (i + 1 - 1) with i by lia. exact Ri.
  - rewrite rd_cons_S by lia. replace (i + 1 + 1 - 1) with (i + 1) by lia. exact Rj.
Qed.

Lemma ascending_Sorted (st : list T) : ascending st -> Sorted le st.
Proof.
  induction st as [|a l IH]; intros HA; constructor.
  - apply IH. eapply ascending_tail. exact HA.
  - destruct l as [|b l']; constructor.
    apply (HA 0); [apply rd_cons_0|].
    rewrite rd_cons_S by lia. apply rd_cons_0.
Qed.

Lemma ascending_SS (st : list T) : ascending st -> StronglySorted le st.
Proof.
  intros HA. apply Sorted_StronglySorted.
  - intros a b c. apply le_trans.
  - apply ascending_Sorted. exact HA.
Qed.

Lemma SS_ascending (st : list T) : StronglySorted le st -> ascending st.
Proof.
  intros HS i x y Ri Rj. eapply (SS_rd st i (i + 1)); eauto. lia.
Qed.

Lemma SS_app (a b : list T) :
  StronglySorted le a -> StronglySorted le b ->
  (forall x y, In x a -> In y b -> le x y) ->
  StronglySorted le (a ++ b).
Proof.
  induction a as [|x a IH]; intros Ha Hb Hab; simpl; [exact Hb|].
  inversion Ha as [|? ? Ha' HF]; subst.
  constructor.
  - apply IH; [assumption|assumption|]. intros; apply Hab; simpl; auto.
  - apply Forall_app. split; [assumption|].
    apply Forall_forall. intros y Hy. apply Hab; simpl; auto.
Qed.

Lemma SS_app_inv_l (a b : list T) : StronglySorted le (a ++ b) -> StronglySorted le a.
Proof.
  induction a as [|x a IH]; intros HS; [constructor|].
  simpl in HS. inversion HS as [|? ? HS' HF]; subst.
  constructor; [apply IH; assumption|].
  apply Forall_app in HF. tauto.
Qed.

Lemma SS_app_inv_r (a b : list T) : StronglySorted le (a ++ b) -> StronglySorted le b.
Proof.
  induction a as [|x a IH]; intros HS; [exact HS|].
  simpl in HS. inversion HS; subst. apply IH. assumption.
Qed.

Lemma SS_app_inv_cross (a b : list T) (x y : T) :
  StronglySorted le (a ++ b) -> In x a -> In y b -> le x y.
Proof.
  intros HS Ix Iy.
  apply In_nth_error in Ix, Iy. destruct Ix as [i Ni]. destruct Iy as [j Nj].
  apply (SS_nth _ HS i (length a + j)%nat).
  - assert (i < length a)%nat by (apply nth_error_Some; congruence). lia.
  - rewrite nth_error_app1; [exact Ni|apply nth_error_Some; congruence].
  - rewrite nth_error_app2 by lia.
    replace (length a + j - length a)%nat with j by lia. exact Nj.
Qed.

Lemma SS_firstn (st : list T) (n : nat) :
  StronglySorted le st -> StronglySorted le (firstn n st).
Proof.
  intros HS. rewrite <- (firstn_skipn n st) in HS. eapply SS_app_inv_l. exact HS.
Qed.

Lemma SS_skipn (st : list T) (n : nat) :
  StronglySorted le st -> StronglySorted le (skipn n st).
Proof.
  intros HS. rewrite <- (firstn_skipn n st) in HS. eapply SS_app_inv_r. exact HS.
Qed.

(** Putting [v] at position [p] of an ascending list keeps it ascending when
    everything before [p] is [<= v] and everything from [p] on is [>= v]. *)
Lemma SS_insert_at (l0 : list T) (p : Z) (v : T) :
  StronglySorted le l0 -> 0 <= p <= vsize l0 ->
  (forall j x, 0 <= j < p -> rd l0 j = Done x -> le x v) ->
  (forall j x, p <= j -> rd l0 j = Done x -> le v x) ->
  StronglySorted le (firstn (Z.to_nat p) l0 ++ v :: skipn (Z.to_nat p) l0).
Proof.
  intros HS Hp Hlo Hhi.
  apply SS_app.
  - apply SS_firstn. exact HS.
  - constructor; [apply SS_skipn; exact HS|].
    apply Forall_forall. intros y Iy.
    apply In_skipn_rd in Iy; [|lia]. destruct Iy as [j [Bj Rj]].
    apply (Hhi j); [lia|exact Rj].
  - intros x y Ix Iy.
    apply In_firstn_rd in Ix; [|lia]. destruct Ix as [i [Bi Ri]].
    destruct Iy as [<-|Iy].
    + apply (Hlo i); assumption.
    + apply In_skipn_rd in Iy; [|lia]. destruct Iy as [j [Bj Rj]].
      apply (SS_rd l0 i j); [assumption|lia|assumption|assumption].
Qed.

(** *** The model of std::sort sorts *)

Lemma sort_insert_perm (x : T) (l : list T) : Permutation (x :: l) (sort_insert x l).
Proof.
  induction l as [|y l IH]; simpl; [apply Permutation_refl|].
  destruct (x << y); [apply Permutation_refl|].
  eapply Permutation_trans; [apply perm_swap|]. apply perm_skip. exact IH.
Qed.

Lemma std_sort_perm (l : list T) : Permutation l (std_sort l).
Proof.
  induction l as [|x l IH]; simpl; [constructor|].
  eapply Permutation_trans; [|apply sort_insert_perm].
  apply perm_skip. exact IH.
Qed.

Lemma sort_insert_SS (x : T) (l : list T) :
  StronglySorted le l -> StronglySorted le (sort_insert x l).
Proof.
  induction 1 as [|y l HS IH HF]; simpl.
  - constructor; constructor.
  - destruct (x << y) eqn:E.
    + constructor; [constructor; assumption|].
      constructor; [apply lt_le; exact E|].
      eapply Forall_impl; [|exact HF].
      intros z Hz. eapply le_trans; [apply lt_le; exact E|exact Hz].
    + constructor; [exact IH|].
      eapply Permutation_Forall; [apply sort_insert_perm|].
      constructor; [exact E|exact HF].
Qed.

Lemma std_sort_SS (l : list T) : StronglySorted le (std_sort l).
Proof.
  induction l as [|x l IH]; simpl; [constructor|].
  apply sort_insert_SS. exact IH.
Qed.

Lemma std_sort_length (l : list T) : length (std_sort l) = length l.
Proof. symmetry. apply Permutation_length. apply std_sort_perm. Qed.

(** Two ascending arrangements of the same elements are the same list. *)
Lemma SS_perm_unique (l1 : list T) :
  forall l2, StronglySorted le l1 -> StronglySorted le l2 ->
    Permutation l1 l2 -> l1 = l2.
Proof.
  induction l1 as [|a l1 IH]; intros l2 H1 H2 P.
  - apply Permutation_nil in P. congruence.
  - destruct l2 as [|b l2].
    + apply Permutation_sym, Permutation_nil in P. discriminate.
    + inversion H1 as [|? ? H1' F1]; subst.
      inversion H2 as [|? ? H2' F2]; subst.
      rewrite Forall_forall in F1, F2.
      assert (a = b) as ->.
      { assert (In a (b :: l2)) as Ia
          by (eapply Permutation_in; [exact P|simpl; auto]).
        assert (In b (a :: l1)) as Ib
          by (eapply Permutation_in; [apply Permutation_sym; exact P|simpl; auto]).
        destruct Ia as [->|Ia]; [reflexivity|].
        destruct Ib as [->|Ib]; [reflexivity|].
        apply le_antisym; [apply F1; exact Ib|apply F2; exact Ia]. }
      f_equal. apply IH; [assumption|assumption|].
      eapply Permutation_cons_inv. exact P.
Qed.

Lemma SS_std_sort_id (l : list T) : StronglySorted le l -> std_sort l = l.
Proof.
  intros HS. symmetry. apply SS_perm_unique;
    [exact HS|apply std_sort_SS|apply std_sort_perm].
Qed.

(** ** Binary search for the ceiling *)

Lemma div2_mid (f l : Z) : f <= l -> f <= (f + l) / 2 <= l.
Proof. intros. split; [apply Z.div_le_lower_bound|apply Z.div_le_upper_bound]; lia. Qed.

Lemma div2_mid_lt (f l : Z) : f < l -> f <= (f + l) / 2 < l.
Proof. intros. split; [apply Z.div_le_lower_bound|apply Z.div_lt_upper_bound]; lia. Qed.

Lemma div2_adjacent (l : Z) : (l + 1 + l) / 2 = l.
Proof. replace (l + 1 + l) with (1 + l * 2) by lia. rewrite Z.div_add by lia. reflexivity. Qed.

Lemma div2_same (l : Z) : (l + l) / 2 = l.
Proof. replace (l + l) with (l * 2) by lia. apply Z.div_mul. lia. Qed.

Lemma find_ceil_walk_spec (st : list T) (t : T) (s e l : Z) :
  vsize st <= max_size -> sorted_range st s e -> l <= e < vsize st ->
  all_gt st l e t ->
  forall (fuel : nat) (m : Z),
    0 <= s <= m -> m <= l -> rd st m = Done t -> Z.of_nat fuel > l - m ->
    exists r, find_ceil_walk fuel st t l m = Done r /\
              m <= r <= l /\ rd st r = Done t /\ all_gt st r e t.
Proof.
  intros Hmax HS He Hgt.
  induction fuel as [|fuel IH]; intros m Hm Hml Rm Hfuel; [lia|].
  simpl. destruct (Z.ltb_spec m l) as [Lt|Ge].
  - rewrite sz_add_small by size_t.
    destruct (rd_ok st (m + 1)) as [x Rx]; [lia|]. rewrite Rx. simpl.
    destruct (x == t) eqn:E; simpl.
    + apply eqb_eq in E. subst x.
      destruct (IH (m + 1)) as [r [Hr [Br [Rr Gr]]]]; [lia|lia|exact Rx|lia|].
      exists r. repeat split; try assumption; lia.
    + rewrite sz_sub_small by size_t. replace (m + 1 - 1) with m by lia.
      exists m. repeat split; try assumption; try lia.
      intros j y Hj Rj.
      assert (le t x) as Htx by (apply (HS m (m + 1)); try assumption; lia).
      assert ((t << x) = true) as Ltx.
      { apply le_neq_lt; [exact Htx|]. apply eqb_neq in E. congruence. }
      eapply lt_le_trans; [exact Ltx|].
      apply (HS (m + 1) j); try assumption; lia.
  - exists l. assert (m = l) by lia. subst m.
    repeat split; try assumption; lia.
Qed.

Lemma find_ceil_loop_spec (st : list T) (t : T) (e : Z) :
  vsize st <= max_size -> 0 <= e < vsize st -> sorted_range st 0 e ->
  (exists x0, rd st 0 = Done x0 /\ le x0 t) ->
  (exists xe, rd st e = Done xe /\ le t xe) ->
  forall (fuel : nat) (f l : Z),
    0 <= f <= e -> 0 <= l <= e -> f <= l + 1 ->
    all_lt st 0 f t -> all_gt st l e t ->
    Z.of_nat fuel >= l - f + 2 ->
    exists r, find_ceil_loop fuel st t f l ((f + l) / 2) = Done r /\
              ceil_at st t 0 e r.
Proof.
  intros Hmax He HS [x0 [R0 L0]] [xe [Re Le]].
  induction fuel as [|fuel IH]; intros f l Hf Hl Hfl Hlt Hgt Hfuel; [lia|].
  simpl. destruct (Z.ltb_spec f l) as [Lt|Ge].
  - (* the loop body *)
    pose proof (div2_mid_lt f l Lt) as Hm. set (m := (f + l) / 2) in *.
    destruct (rd_ok st m) as [xm Rm]; [lia|]. rewrite Rm. simpl.
    destruct (xm == t) eqn:E.
    + apply eqb_eq in E. subst xm.
      destruct (find_ceil_walk_spec st t 0 e l Hmax HS ltac:(lia) Hgt
                  (S (length st)) m) as [r [Hr [Br [Rr Gr]]]];
        [lia|lia|exact Rm|unfold vsize in *; lia|].
      exists r. split; [exact Hr|].
      split; [lia|]. exists t. split; [exact Rr|]. left. split; [reflexivity|exact Gr].
    + destruct (xm << t) eqn:Lm.
      * (* f = m + 1 *)
        assert (m < e) as Hme.
        { destruct (Z.eq_dec m e) as [->|]; [|lia].
          rewrite Rm in Re. injection Re as <-. unfold le in Le. congruence. }
        rewrite sz_add_small by size_t.
        rewrite wrap_small by size_t.
        apply IH; try lia; try assumption.
        intros j y Hj Rj.
        eapply le_lt_trans; [|exact Lm].
        apply (HS j m); try assumption; lia.
      * (* l = m - 1 *)
        assert (0 < m) as Hm0.
        { destruct (Z.eq_dec m 0) as [Em|]; [|lia].
          rewrite Em in Rm. rewrite Rm in R0. injection R0 as <-.
          exfalso. apply eqb_neq in E. apply E. apply le_antisym; assumption. }
        rewrite sz_sub_small by size_t.
        rewrite wrap_small by size_t.
        apply IH; try lia; try assumption.
        intros j y Hj Rj.
        assert ((t << xm) = true) as Gm.
        { apply le_neq_lt; [exact Lm|]. apply eqb_neq in E. congruence. }
        destruct (Z.le_gt_cases j l) as [Hjl|Hjl].
        -- eapply lt_le_trans; [exact Gm|].
           apply (HS m j); try assumption; lia.
        -- apply (Hgt j); [lia|exact Rj].
  - (* after the loop *)
    assert ((f + l) / 2 = l) as ->.
    { assert (f = l \/ f = l + 1) as [->| ->] by lia;
        [apply div2_same|apply div2_adjacent]. }
    destruct (rd_ok st l) as [xl Rl]; [lia|]. rewrite Rl. simpl.
    destruct (xl == t) eqn:E.
    + apply eqb_eq in E. subst xl. exists l. split; [reflexivity|].
      split; [lia|]. exists t. split; [exact Rl|]. left. split; [reflexivity|exact Hgt].
    + rewrite gtb_ltb. destruct (t << xl) eqn:G.
      * exists l. split; [reflexivity|].
        split; [lia|]. exists xl. split; [exact Rl|]. right. split; [exact G|].
        assert (f = l) as <-; [|exact Hlt].
        destruct (Z.eq_dec f l); [assumption|].
        assert ((xl << t) = true) as C by (apply (Hlt l); [lia|exact Rl]).
        apply ltb_asym in C. congruence.
      * assert ((xl << t) = true) as Lx.
        { apply le_neq_lt; [exact G|]. apply eqb_neq in E. exact E. }
        assert (l < e) as Hle.
        { destruct (Z.eq_dec l e) as [->|]; [|lia].
          rewrite Rl in Re. injection Re as <-. unfold le in Le. congruence. }
        rewrite sz_add_small by size_t.
        destruct (rd_ok st (l + 1)) as [y Ry]; [lia|].
        exists (l + 1). split; [reflexivity|].
        split; [lia|]. exists y. split; [exact Ry|]. right.
        split; [apply (Hgt (l + 1)); [lia|exact Ry]|].
        intros j z Hj Rj.
        destruct (Z.eq_dec j l) as [->|].
        -- rewrite Rl in Rj. injection Rj as <-. exact Lx.
        -- apply (Hlt j); [lia|exact Rj].
Qed.

Lemma empty_false (sv : sorted_vector T) : 0 < size sv -> empty sv = false.
Proof.
  unfold empty, size, vsize. destruct (_storage sv); simpl; [lia|reflexivity].
Qed.

Lemma empty_true (sv : sorted_vector T) : size sv = 0 -> empty sv = true.
Proof.
  unfold empty, size, vsize. destruct (_storage sv); simpl; [reflexivity|lia].
Qed.

(** The [end_pos] a search works with, after the default [-1] is resolved. *)
Lemma end_pos_resolved (sv : sorted_vector T) (end_pos e : Z) :
  size sv <= max_size -> 0 <= e < size sv ->
  end_pos = e \/ (end_pos = npos /\ e = size sv - 1) ->
  (if end_pos =? npos then sz_sub (size sv) 1 else end_pos) = e.
Proof.
  intros Hmax He [->|[-> ->]].
  - destruct (Z.eqb_spec e npos); [size_t|reflexivity].
  - simpl. apply sz_sub_small. size_t.
Qed.

(** [find_ceil] over [0 .. e] of a container in the sorted state. *)
Lemma find_ceil_spec (sv : sorted_vector T) (t : T) (end_pos e : Z) :
  _is_corrupted sv = false -> size sv <= max_size -> 0 <= e < size sv ->
  end_pos = e \/ (end_pos = npos /\ e = size sv - 1) ->
  sorted_range (_storage sv) 0 e ->
  exists r, find_ceil sv t 0 end_pos = Done r /\
    ((r = npos /\ exists xe, rd (_storage sv) e = Done xe /\ (xe << t) = true)
     \/ ceil_at (_storage sv) t 0 e r).
Proof.
  intros Hc Hmax He Hend HS.
  unfold find_ceil. rewrite empty_false by lia.
  rewrite (end_pos_resolved sv end_pos e Hmax He Hend). rewrite Hc. simpl.
  unfold size in *.
  destruct (rd_ok (_storage sv) 0) as [x0 R0]; [lia|]. rewrite R0. simpl.
  rewrite gtb_ltb. destruct (t << x0) eqn:G0.
  - exists 0. split; [reflexivity|]. right.
    split; [lia|]. exists x0. split; [exact R0|]. right. split; [exact G0|].
    intros j y Hj. lia.
  - destruct (rd_ok (_storage sv) e) as [xe Re]; [lia|]. rewrite Re. simpl.
    destruct (xe << t) eqn:Le.
    + exists npos. split; [reflexivity|]. left. split; [reflexivity|].
      exists xe. auto.
    + rewrite wrap_small by size_t.
      destruct (find_ceil_loop_spec (_storage sv) t e Hmax He HS) with
        (fuel := fuel_of sv) (f := 0) (l := e) as [r [Hr Cr]].
      * exists x0. auto.
      * exists xe. auto.
      * lia.
      * lia.
      * lia.
      * intros j y Hj. lia.
      * intros j y Hj. lia.
      * unfold fuel_of, vsize in *. lia.
      * exists r. split; [exact Hr|]. right. exact Cr.
Qed.

(** ** Binary search for the floor *)

Lemma find_floor_walk_spec (st : list T) (t : T) (s e f : Z) :
  vsize st <= max_size -> sorted_range st s e -> 0 <= s <= f -> e < vsize st ->
  all_lt st s f t ->
  forall (fuel : nat) (m : Z),
    f <= m <= e -> rd st m = Done t -> Z.of_nat fuel > m - f ->
    exists r, find_floor_walk fuel st t f m = Done r /\
              f <= r <= m /\ rd st r = Done t /\ all_lt st s r t.
Proof.
  intros Hmax HS Hs He Hlt.
  induction fuel as [|fuel IH]; intros m Hm Rm Hfuel; [lia|].
  simpl. destruct (Z.ltb_spec f m) as [Lt|Ge].
  - rewrite sz_sub_small by size_t.
    destruct (rd_ok st (m - 1)) as [x Rx]; [lia|]. rewrite Rx. simpl.
    destruct (x == t) eqn:E; simpl.
    + apply eqb_eq in E. subst x.
      destruct (IH (m - 1)) as [r [Hr [Br [Rr Gr]]]]; [lia|exact Rx|lia|].
      exists r. repeat split; try assumption; lia.
    + rewrite sz_add_small by size_t. replace (m - 1 + 1) with m by lia.
      exists m. repeat split; try assumption; try lia.
      intros j y Hj Rj.
      assert (le x t) as Hxt by (apply (HS (m - 1) m); try assumption; lia).
      assert ((x << t) = true) as Lxt.
      { apply le_neq_lt; [exact Hxt|]. apply eqb_neq in E. exact E. }
      eapply le_lt_trans; [|exact Lxt].
      apply (HS j (m - 1)); try assumption; lia.
  - exists f. assert (m = f) by lia. subst m.
    repeat split; try assumption; lia.
Qed.

Lemma find_floor_loop_spec (st : list T) (t : T) (s e : Z) :
  vsize st <= max_size -> 0 <= s <= e -> e < vsize st -> sorted_range st s e ->
  (exists xs, rd st s = Done xs /\ le xs t) ->
  (exists xe, rd st e = Done xe /\ le t xe) ->
  forall (fuel : nat) (f l : Z),
    s <= f <= e -> s <= l <= e -> f <= l + 1 ->
    all_lt st s f t -> all_gt st l e t ->
    Z.of_nat fuel >= l - f + 2 ->
    exists r, find_floor_loop fuel st t f l ((l + f) / 2) = Done r /\
              floor_at st t s e r.
Proof.
  intros Hmax Hse He HS [xs [Rs Ls]] [xe [Re Le]].
  induction fuel as [|fuel IH]; intros f l Hf Hl Hfl Hlt Hgt Hfuel; [lia|].
  simpl. destruct (Z.ltb_spec f l) as [Lt|Ge].
  - pose proof (div2_mid_lt f l Lt) as Hm. rewrite (Z.add_comm f l) in Hm.
    set (m := (l + f) / 2) in *.
    destruct (rd_ok st m) as [xm Rm]; [lia|]. rewrite Rm. simpl.
    destruct (xm == t) eqn:E.
    + apply eqb_eq in E. subst xm.
      destruct (find_floor_walk_spec st t s e f Hmax HS ltac:(lia) He Hlt
                  (S (length st)) m) as [r [Hr [Br [Rr Gr]]]];
        [lia|exact Rm|unfold vsize in *; lia|].
      exists r. split; [exact Hr|].
      split; [lia|]. exists t. split; [exact Rr|]. left. split; [reflexivity|exact Gr].
    + destruct (xm << t) eqn:Lm.
      * rewrite sz_add_small by size_t.
        rewrite wrap_small by size_t.
        apply IH; try lia; try assumption.
        intros j y Hj Rj.
        eapply le_lt_trans; [|exact Lm].
        apply (HS j m); try assumption; lia.
      * assert (s < m) as Hm0.
        { destruct (Z.eq_dec m s) as [Em|]; [|lia].
          rewrite Em in Rm. rewrite Rm in Rs. injection Rs as <-.
          exfalso. apply eqb_neq in E. apply E. apply le_antisym; assumption. }
        rewrite sz_sub_small by size_t.
        rewrite wrap_small by size_t.
        apply IH; try lia; try assumption.
        intros j y Hj Rj.
        assert ((t << xm) = true) as Gm.
        { apply le_neq_lt; [exact Lm|]. apply eqb_neq in E. congruence. }
        destruct (Z.le_gt_cases j l) as [Hjl|Hjl].
        -- eapply lt_le_trans; [exact Gm|].
           apply (HS m j); try assumption; lia.
        -- apply (Hgt j); [lia|exact Rj].
  - assert ((l + f) / 2 = l) as ->.
    { assert (f = l \/ f = l + 1) as [->| ->] by lia;
        [apply div2_same|rewrite Z.add_comm; apply div2_adjacent]. }
    destruct (rd_ok st l) as [xl Rl]; [lia|]. rewrite Rl. simpl.
    assert ((xl << t) = false -> f = l) as Hfl'.
    { intros N. destruct (Z.eq_dec f l); [assumption|].
      assert ((xl << t) = true) as C by (apply (Hlt l); [lia|exact Rl]).
      congruence. }
    destruct (xl == t) eqn:E.
    + apply eqb_eq in E. subst xl. exists l. split; [reflexivity|].
      split; [lia|]. exists t. split; [exact Rl|]. left. split; [reflexivity|].
      rewrite <- Hfl'; [exact Hlt|apply ltb_irrefl].
    + destruct (xl << t) eqn:L.
      * exists l. split; [reflexivity|].
        split; [lia|]. exists xl. split; [exact Rl|]. right. split; [exact L|exact Hgt].
      * specialize (Hfl' eq_refl). subst f.
        assert ((t << xl) = true) as Gx.
        { apply le_neq_lt; [exact L|]. apply eqb_neq in E. congruence. }
        assert (s < l) as Hsl.
        { destruct (Z.eq_dec l s) as [El|]; [|lia].
          rewrite El in Rl. rewrite Rl in Rs. injection Rs as <-.
          unfold le in Ls. congruence. }
        rewrite sz_sub_small by size_t.
        destruct (rd_ok st (l - 1)) as [y Ry]; [lia|].
        exists (l - 1). split; [reflexivity|].
        split; [lia|]. exists y. split; [exact Ry|]. right.
        split; [apply (Hlt (l - 1)); [lia|exact Ry]|].
        intros j z Hj Rj.
        destruct (Z.eq_dec j l) as [->|].
        -- rewrite Rl in Rj. injection Rj as <-. exact Gx.
        -- apply (Hgt j); [lia|exact Rj].
Qed.

(** [find_floor] over [s .. e] of a container in the sorted state. *)
Lemma find_floor_spec (sv : sorted_vector T) (t : T) (s end_pos e : Z) :
  _is_corrupted sv = false -> size sv <= max_size -> 0 <= s <= e -> e < size sv ->
  end_pos = e \/ (end_pos = npos /\ e = size sv - 1) ->
  sorted_range (_storage sv) s e ->
  exists r, find_floor sv t s end_pos = Done r /\
    ((r = npos /\ exists xs, rd (_storage sv) s = Done xs /\ (t << xs) = true)
     \/ floor_at (_storage sv) t s e r).
Proof.
  intros Hc Hmax Hse He Hend HS.
  unfold find_floor. rewrite empty_false by lia.
  rewrite (end_pos_resolved sv end_pos e Hmax ltac:(lia) Hend). rewrite Hc. simpl.
  unfold size in *.
  destruct (rd_ok (_storage sv) s) as [xs Rs]; [lia|]. rewrite Rs. simpl.
  rewrite gtb_ltb. destruct (t << xs) eqn:G0.
  - exists npos. split; [reflexivity|]. left. split; [reflexivity|]. exists xs. auto.
  - destruct (rd_ok (_storage sv) e) as [xe Re]; [lia|]. rewrite Re. simpl.
    destruct (xe << t) eqn:Le.
    + exists e. split; [reflexivity|]. right.
      split; [lia|]. exists xe. split; [exact Re|]. right. split; [exact Le|].
      intros j y Hj. lia.
    + rewrite wrap_small by size_t. rewrite (Z.add_comm s e).
      destruct (find_floor_loop_spec (_storage sv) t s e Hmax Hse He HS) with
        (fuel := fuel_of sv) (f := s) (l := e) as [r [Hr Cr]].
      * exists xs. auto.
      * exists xe. auto.
      * lia.
      * lia.
      * lia.
      * intros j y Hj. lia.
      * intros j y Hj. lia.
      * unfold fuel_of, vsize in *. lia.
      * exists r. split; [exact Hr|]. right. exact Cr.
Qed.

(** ** Floor and ceiling of a sorted container *)

Lemma ascending_sorted_range (st : list T) (s e : Z) :
  ascending st -> sorted_range st s e.
Proof.
  intros HA i j x y _ Hij _ Ri Rj.
  apply (SS_rd st i j); [apply ascending_SS; exact HA|exact Hij|exact Ri|exact Rj].
Qed.

Lemma size_zero_storage (sv : sorted_vector T) : size sv = 0 -> _storage sv = [].
Proof.
  unfold size, vsize. destruct (_storage sv); simpl; [reflexivity|lia].
Qed.

(** C3 (amended). In a sorted container searched over the default range,
    [find_floor t] is not-found exactly when every element is greater than
    [t]; otherwise it is a position holding a value [<= t]: the smallest
    position holding [t] when [t] is stored, and the largest position holding
    less than [t] when it is not.  [find_ceil t] is not-found exactly when
    every element is less than [t]; otherwise it is a position holding a value
    [>= t]: the largest position holding [t] when [t] is stored, and the
    smallest position holding more than [t] when it is not. *)
Theorem find_floor_ceil_boundaries (sv : sorted_vector T) (t : T) :
  _is_corrupted sv = false -> size sv <= max_size -> ascending (_storage sv) ->
  floor_boundary sv t /\ ceil_boundary sv t.
Proof.
  intros Hc Hmax HA. unfold floor_boundary, ceil_boundary.
  destruct (Z.eq_dec (size sv) 0) as [Z0|NZ].
  { (* empty container *)
    pose proof (size_zero_storage sv Z0) as E.
    unfold find_floor, find_ceil. rewrite (empty_true sv Z0). rewrite E.
    split; exists npos; (split; [reflexivity|]);
      (split; [split; [intros _ x []|reflexivity]|congruence]). }
  assert (0 < size sv) as Hpos by (unfold size in *; pose proof (vsize_nonneg (_storage sv)); lia).
  set (e := size sv - 1).
  pose proof (ascending_sorted_range (_storage sv) 0 e HA) as HS.
  split.
  - destruct (find_floor_spec sv t 0 npos e Hc Hmax) as [r [Hr Cases]];
      [lia|lia|right; auto|exact HS|].
    exists r. split; [exact Hr|].
    destruct Cases as [[-> [xs [Rs Gs]]]|[Br [x [Rx Cx]]]].
    + split; [|congruence]. split; [|reflexivity].
      intros _ y Iy. apply In_rd in Iy. destruct Iy as [j Rj].
      eapply lt_le_trans; [exact Gs|].
      apply (HS 0 j); try assumption; pose proof (rd_bounds _ _ _ Rj); unfold e, size; lia.
    + assert (r <> npos) as Nr by (unfold e in Br; size_t).
      split.
      * split; [congruence|]. intros All. exfalso.
        pose proof (All x (rd_In _ _ _ Rx)) as Gx.
        destruct Cx as [[-> _]|[Lx _]].
        -- rewrite ltb_irrefl in Gx. discriminate.
        -- apply ltb_asym in Lx. congruence.
      * intros _. exists x. split; [exact Rx|]. split.
        { destruct Cx as [[-> _]|[Lx _]]; [apply le_refl|apply lt_le; exact Lx]. }
        split.
        -- intros It. destruct Cx as [Cx|[Lx Gt]]; [exact Cx|]. exfalso.
           apply In_rd in It. destruct It as [j Rj].
           pose proof (rd_bounds _ _ _ Rj) as Bj.
           destruct (Z.le_gt_cases j r) as [Hjr|Hjr].
           ++ assert (le t x) as C by (apply (HS j r); try assumption; lia).
              unfold le in C. congruence.
           ++ assert ((t << t) = true) as C
                by (apply (Gt j); [unfold e, size; lia|exact Rj]).
              rewrite ltb_irrefl in C. discriminate.
        -- intros Nt. destruct Cx as [[-> _]|[_ Gt]]; [|exact Gt].
           exfalso. apply Nt. eapply rd_In. exact Rx.
  - destruct (find_ceil_spec sv t npos e Hc Hmax) as [r [Hr Cases]];
      [lia|right; auto|exact HS|].
    exists r. split; [exact Hr|].
    destruct Cases as [[-> [xe [Re Le]]]|[Br [x [Rx Cx]]]].
    + split; [|congruence]. split; [|reflexivity].
      intros _ y Iy. apply In_rd in Iy. destruct Iy as [j Rj].
      eapply le_lt_trans; [|exact Le].
      apply (HS j e); try assumption; pose proof (rd_bounds _ _ _ Rj); unfold e, size; lia.
    + assert (r <> npos) as Nr by (unfold e in Br; size_t).
      split.
      * split; [congruence|]. intros All. exfalso.
        pose proof (All x (rd_In _ _ _ Rx)) as Lx.
        destruct Cx as [[-> _]|[Gx _]].
        -- rewrite ltb_irrefl in Lx. discriminate.
        -- apply ltb_asym in Gx. congruence.
      * intros _. exists x. split; [exact Rx|]. split.
        { destruct Cx as [[-> _]|[Gx _]]; [apply le_refl|apply lt_le; exact Gx]. }
        split.
        -- intros It. destruct Cx as [Cx|[Gx Lt]]; [exact Cx|]. exfalso.
           apply In_rd in It. destruct It as [j Rj].
           pose proof (rd_bounds _ _ _ Rj) as Bj.
           destruct (Z.lt_ge_cases j r) as [Hjr|Hjr].
           ++ assert ((t << t) = true) as C by (apply (Lt j); [lia|exact Rj]).
              rewrite ltb_irrefl in C. discriminate.
           ++ assert (le x t) as C by (apply (HS r j); try assumption; unfold e, size; lia).
              unfold le in C. congruence.
        -- intros Nt. destruct Cx as [[-> _]|[_ Lt]]; [|exact Lt].
           exfalso. apply Nt. eapply rd_In. exact Rx.
Qed.

(** C8. In a sorted container that does not store [t], [find_floor t] and
    [find_ceil t] over the default range both return, and when both return a
    position, the position after the floor is the ceiling. *)
Theorem find_floor_succ_is_find_ceil (sv : sorted_vector T) (t : T) :
  _is_corrupted sv = false -> size sv <= max_size -> ascending (_storage sv) ->
  ~ In t (_storage sv) ->
  exists rf rc,
    find_floor sv t 0 npos = Done rf /\ find_ceil sv t 0 npos = Done rc /\
    (rf <> npos -> rc <> npos -> sz_add rf 1 = rc).
Proof.
  intros Hc Hmax HA Nt.
  destruct (Z.eq_dec (size sv) 0) as [Z0|NZ].
  { exists npos, npos. unfold find_floor, find_ceil. rewrite (empty_true sv Z0).
    split; [reflexivity|]. split; [reflexivity|]. congruence. }
  assert (0 < size sv) as Hpos by (unfold size in *; pose proof (vsize_nonneg (_storage sv)); lia).
  set (e := size sv - 1).
  pose proof (ascending_sorted_range (_storage sv) 0 e HA) as HS.
  destruct (find_floor_spec sv t 0 npos e Hc Hmax) as [rf [Hf Cf]];
    [lia|lia|right; auto|exact HS|].
  destruct (find_ceil_spec sv t npos e Hc Hmax) as [rc [Hcl Cc]];
    [lia|right; auto|exact HS|].
  exists rf, rc. split; [exact Hf|]. split; [exact Hcl|]. intros Nf Ncl.
  destruct Cf as [[? _]|[Bf [x [Rx Cx]]]]; [contradiction|].
  destruct Cc as [[? _]|[Bc [y [Ry Cy]]]]; [contradiction|].
  destruct Cx as [[-> _]|[Lx Gt]]; [exfalso; apply Nt; eapply rd_In; exact Rx|].
  destruct Cy as [[-> _]|[Gy Lt]]; [exfalso; apply Nt; eapply rd_In; exact Ry|].
  assert (rf + 1 = rc) as <-.
  { destruct (Z.lt_trichotomy (rf + 1) rc) as [Lt1|[Eq|Gt1]]; [exfalso| exact Eq |exfalso].
    - destruct (rd_ok (_storage sv) (rf + 1)) as [z Rz]; [unfold e, size in *; lia|].
      assert ((t << z) = true) as A by (apply (Gt (rf + 1)); [lia|exact Rz]).
      assert ((z << t) = true) as B by (apply (Lt (rf + 1)); [lia|exact Rz]).
      apply ltb_asym in A. congruence.
    - assert (le y x) as Lyx by (apply (HS rc rf); try assumption; lia).
      assert ((t << x) = true) as A by (eapply lt_le_trans; [exact Gy|exact Lyx]).
      apply ltb_asym in A. congruence. }
  apply sz_add_small. unfold e in *. size_t.
Qed.

(** ** Repair of a single displaced element *)

Lemma firstn_app_left (a b : list T) : firstn (length a) (a ++ b) = a.
Proof. induction a as [|x a IH]; simpl; [destruct b; reflexivity|f_equal; exact IH]. Qed.

Lemma skipn_app_left (a b : list T) : skipn (length a) (a ++ b) = b.
Proof. induction a as [|x a IH]; simpl; [reflexivity|exact IH]. Qed.

Lemma skipn_cons_nth (st : list T) :
  forall (k : nat) (x : T), nth_error st k = Some x -> skipn k st = x :: skipn (S k) st.
Proof.
  induction st as [|y st IH]; intros [|k] x N; simpl in *; try discriminate.
  - injection N as ->. reflexivity.
  - apply IH. exact N.
Qed.

Lemma to_nat_vsize (a : list T) : Z.to_nat (vsize a) = length a.
Proof. unfold vsize. lia. Qed.

Lemma rd_mid (a b : list T) (v : T) : rd (a ++ v :: b) (vsize a) = Done v.
Proof.
  rewrite rd_app_r by lia. rewrite Z.sub_diag. apply rd_cons_0.
Qed.

Lemma rd_before_mid (a b : list T) (v : T) (j : Z) :
  0 <= j < vsize a -> rd (a ++ v :: b) j = rd (a ++ b) j.
Proof. intros Hj. rewrite !rd_app_l by lia. reflexivity. Qed.

Lemma rd_after_mid (a b : list T) (v : T) (j : Z) :
  vsize a < j -> rd (a ++ v :: b) j = rd (a ++ b) (j - 1).
Proof.
  intros Hj. rewrite !rd_app_r by lia. rewrite rd_cons_S by lia.
  f_equal. lia.
Qed.

Lemma vec_erase_mid (a b : list T) (v : T) :
  vec_erase (a ++ v :: b) (vsize a) = Done (a ++ b).
Proof.
  unfold vec_erase. rewrite vsize_app.
  replace ((0 <=? vsize a) && (vsize a <? vsize a + vsize (v :: b))) with true.
  - rewrite to_nat_vsize. rewrite firstn_app_left.
    change (S (length a)) with (1 + length a)%nat. rewrite <- skipn_skipn.
    rewrite skipn_app_left. reflexivity.
  - symmetry. apply andb_true_iff. unfold vsize. simpl length.
    split; [apply Z.leb_le|apply Z.ltb_lt]; lia.
Qed.

Lemma vec_insert_ok (l0 : list T) (p : Z) (v : T) :
  0 <= p <= vsize l0 ->
  vec_insert l0 p v = Done (firstn (Z.to_nat p) l0 ++ v :: skipn (Z.to_nat p) l0).
Proof.
  intros Hp. unfold vec_insert.
  replace ((0 <=? p) && (p <=? vsize l0)) with true; [reflexivity|].
  symmetry. apply andb_true_iff. split; apply Z.leb_le; lia.
Qed.

(** Overwriting a position with the value it already holds. *)
Lemma wr_same (a b : list T) (v : T) :
  wr (a ++ v :: b) (vsize a) v = Done (a ++ v :: b).
Proof.
  unfold wr. rewrite vsize_app.
  replace ((0 <=? vsize a) && (vsize a <? vsize a + vsize (v :: b))) with true.
  - rewrite to_nat_vsize. rewrite firstn_app_left.
    change (S (length a)) with (1 + length a)%nat. rewrite <- skipn_skipn.
    rewrite skipn_app_left. reflexivity.
  - symmetry. apply andb_true_iff. unfold vsize. simpl length.
    split; [apply Z.leb_le|apply Z.ltb_lt]; lia.
Qed.

Lemma wr_after_insert (l0 : list T) (p : Z) (v : T) :
  0 <= p <= vsize l0 ->
  wr (firstn (Z.to_nat p) l0 ++ v :: skipn (Z.to_nat p) l0) p v
  = Done (firstn (Z.to_nat p) l0 ++ v :: skipn (Z.to_nat p) l0).
Proof.
  intros Hp.
  pose proof (wr_same (firstn (Z.to_nat p) l0) (skipn (Z.to_nat p) l0) v) as W.
  rewrite (vsize_firstn l0 p Hp) in W. exact W.
Qed.

Lemma wr_read_back (st : list T) (p : Z) (x : T) :
  rd st p = Done x -> wr st p x = Done st.
Proof.
  intros R. apply rd_Done in R. destruct R as [B N].
  pose proof (skipn_cons_nth st _ _ N) as E.
  pose proof (wr_same (firstn (Z.to_nat p) st) (skipn (S (Z.to_nat p)) st) x) as W.
  rewrite <- E, firstn_skipn in W.
  rewrite (vsize_firstn st p) in W by lia. exact W.
Qed.

Lemma SS_remove_middle (a b : list T) (x : T) :
  StronglySorted le (a ++ x :: b) -> StronglySorted le (a ++ b).
Proof.
  intros HS. apply SS_app.
  - eapply SS_app_inv_l. exact HS.
  - apply SS_app_inv_r in HS. inversion HS; assumption.
  - intros y z Iy Iz. eapply SS_app_inv_cross; [exact HS|exact Iy|simpl; auto].
Qed.

Lemma perm_insert_at (l0 : list T) (n : nat) (v : T) :
  Permutation (v :: l0) (firstn n l0 ++ v :: skipn n l0).
Proof.
  rewrite <- (firstn_skipn n l0) at 1. apply Permutation_middle.
Qed.

(** The storage is [a ++ v :: b], ascending apart from [v], and position
    [vsize a] is the recorded dirty index: [repair] puts [v] in its place. *)
Lemma repair_single (a b : list T) (v : T) (flag : bool) :
  StronglySorted le (a ++ b) -> vsize (a ++ v :: b) <= max_size ->
  exists st2,
    repair (mk_sv (a ++ v :: b) (vsize a) true flag) = Done (mk_sv st2 npos false flag) /\
    StronglySorted le st2 /\ Permutation (a ++ v :: b) st2.
Proof.
  intros HS Hmax.
  set (i := vsize a) in *. set (st := a ++ v :: b) in *. set (l0 := a ++ b) in *.
  assert (vsize st = vsize l0 + 1) as Hsz
    by (unfold st, l0; rewrite !vsize_app; unfold vsize; simpl length; lia).
  assert (0 <= i <= vsize l0) as Hi
    by (unfold i, l0; rewrite vsize_app; unfold vsize; lia).
  assert (rd st i = Done v) as Rmid by apply rd_mid.
  assert (forall j, 0 <= j < i -> rd st j = rd l0 j) as Rlo
    by (intros; apply rd_before_mid; assumption).
  assert (forall j, i < j -> rd st j = rd l0 (j - 1)) as Rhi
    by (intros; apply rd_after_mid; assumption).
  assert (forall j k x y, j <= k -> rd l0 j = Done x -> rd l0 k = Done y -> le x y) as HL
    by (intros j k x y; apply SS_rd; exact HS).
  unfold repair, set_is_corrupted.
  cbn [_is_corrupted _last_modified _storage _flag_suspend_autorepair].
  replace (i =? npos) with false by (symmetry; apply Z.eqb_neq; size_t).
  set (sv2 := mk_sv st i false flag).
  assert (size sv2 = vsize l0 + 1) as Hsz2 by exact Hsz.
  (* does [v] sit below its left neighbour? *)
  assert (exists c1,
    (if 0 <? i then a0 <- rd st i ;; b0 <- rd st (sz_sub i 1) ;; Done (a0 << b0)
     else Done false) = Done c1 /\
    (c1 = true -> 0 < i /\ exists y, rd l0 (i - 1) = Done y /\ (v << y) = true) /\
    (c1 = false -> forall j x, 0 <= j < i -> rd l0 j = Done x -> le x v)) as [c1 [-> [C1t C1f]]].
  { destruct (Z.ltb_spec 0 i) as [Pos|Npos].
    - rewrite Rmid. simpl. rewrite sz_sub_small by size_t.
      destruct (rd_ok st (i - 1)) as [y Ry]; [lia|]. rewrite Ry. simpl.
      rewrite Rlo in Ry by lia.
      exists (v << y). split; [reflexivity|]. split.
      + intros E. split; [exact Pos|]. exists y. auto.
      + intros E j x Hj Rj. eapply le_trans; [|exact E].
        apply (HL j (i - 1)); [lia|exact Rj|exact Ry].
    - exists false. split; [reflexivity|]. split; [discriminate|].
      intros _ j x Hj. lia. }
  cbn [bind]. destruct c1.
  - (* shift towards the front *)
    destruct (C1t eq_refl) as [Pos [y [Ry Ly]]]. clear C1t C1f.
    rewrite Rmid. cbn [bind]. rewrite sz_sub_small by size_t.
    assert (sorted_range st 0 (i - 1)) as HSr.
    { intros j k x z Hj Hjk Hk Rj Rk. rewrite Rlo in Rj, Rk by lia.
      apply (HL j k); assumption. }
    destruct (find_ceil_spec sv2 v (i - 1) (i - 1)) as [r [Hr Cases]];
      [reflexivity|rewrite Hsz2; lia|rewrite Hsz2; lia|left; reflexivity|exact HSr|].
    rewrite Hr. cbn [bind].
    destruct Cases as [[_ [xe [Re Le]]]|[Br [x [Rx Cx]]]].
    { exfalso. cbn [_storage sv2] in Re. rewrite Rlo in Re by lia.
      rewrite Ry in Re. injection Re as <-. apply ltb_asym in Ly. congruence. }
    cbn [_storage sv2] in Rx, Cx.
    unfold single_shift_right.
    replace (r =? i) with false by (symmetry; apply Z.eqb_neq; lia).
    replace (i =? npos) with false by (symmetry; apply Z.eqb_neq; size_t).
    cbn [_storage sv2]. rewrite Rmid. cbn [bind].
    unfold st at 1, i at 1. rewrite vec_erase_mid. cbn [bind]. fold l0.
    rewrite vec_insert_ok by lia. cbn [bind set_storage _storage].
    rewrite wr_after_insert by lia. cbn [bind].
    eexists. split; [reflexivity|]. split.
    + apply SS_insert_at; [exact HS|lia| |].
      * intros j z Hj Rj. rewrite <- Rlo in Rj by lia.
        destruct Cx as [[-> _]|[_ Lt]].
        -- apply (HSr j r); try assumption; lia.
        -- apply lt_le. apply (Lt j); [lia|exact Rj].
      * intros j z Hj Rj.
        destruct (Z.lt_ge_cases j i) as [Hji|Hji].
        -- rewrite <- Rlo in Rj by lia.
           assert (le x z) as Lxz by (apply (HSr r j); try assumption; lia).
           destruct Cx as [[-> _]|[Gx _]]; [exact Lxz|].
           eapply le_trans; [apply lt_le; exact Gx|exact Lxz].
        -- eapply le_trans; [apply lt_le; exact Ly|].
           apply (HL (i - 1) j); [lia|exact Ry|exact Rj].
    + unfold st. eapply Permutation_trans;
        [apply Permutation_sym, Permutation_middle|apply perm_insert_at].
  - (* does [v] sit above its right neighbour? *)
    specialize (C1f eq_refl). clear C1t.
    cbn [_storage sv2]. fold (size sv2). rewrite Hsz2.
    rewrite sz_sub_small by size_t. replace (vsize l0 + 1 - 1) with (vsize l0) by lia.
    assert (exists c2,
      (if i <? vsize l0 then a0 <- rd st i ;; b0 <- rd st (sz_add i 1) ;; Done (a0 >> b0)
       else Done false) = Done c2 /\
      (c2 = true -> i < vsize l0 /\ exists y, rd l0 i = Done y /\ (y << v) = true) /\
      (c2 = false -> forall j x, i <= j -> rd l0 j = Done x -> le v x)) as [c2 [-> [C2t C2f]]].
    { destruct (Z.ltb_spec i (vsize l0)) as [Lt|Ge].
      - rewrite Rmid. simpl. rewrite sz_add_small by size_t.
        destruct (rd_ok st (i + 1)) as [y Ry]; [lia|]. rewrite Ry. simpl.
        rewrite Rhi in Ry by lia. replace (i + 1 - 1) with i in Ry by lia.
        rewrite gtb_ltb.
        exists (y << v). split; [reflexivity|]. split.
        + intros E. split; [exact Lt|]. exists y. auto.
        + intros E j x Hj Rj. eapply le_trans; [exact E|].
          apply (HL i j); [lia|exact Ry|exact Rj].
      - exists false. split; [reflexivity|]. split; [discriminate|].
        intros _ j x Hj Rj. apply rd_bounds in Rj. lia. }
    cbn [bind]. destruct c2.
    + (* shift towards the back *)
      destruct (C2t eq_refl) as [Lt [y [Ry Ly]]]. clear C2t C2f.
      rewrite Rmid. cbn [bind]. rewrite sz_add_small by size_t.
      set (e := vsize l0).
      assert (sorted_range st (i + 1) e) as HSr.
      { intros j k x z Hj Hjk Hk Rj Rk. rewrite Rhi in Rj, Rk by lia.
        apply (HL (j - 1) (k - 1)); [lia|assumption|assumption]. }
      destruct (find_floor_spec sv2 v (i + 1) e e) as [r [Hr Cases]];
        [reflexivity|rewrite Hsz2; lia|unfold e; lia|rewrite Hsz2; unfold e; lia
        |left; reflexivity|exact HSr|].
      rewrite Hr. cbn [bind].
      destruct Cases as [[_ [xs [Rs Gs]]]|[Br [x [Rx Cx]]]].
      { exfalso. cbn [_storage sv2] in Rs. rewrite Rhi in Rs by lia.
        replace (i + 1 - 1) with i in Rs by lia.
        rewrite Ry in Rs. injection Rs as <-. apply ltb_asym in Ly. congruence. }
      cbn [_storage sv2] in Rx, Cx.
      unfold single_shift_left.
      replace (i =? r) with false by (symmetry; apply Z.eqb_neq; lia).
      replace (r =? npos) with false by (symmetry; apply Z.eqb_neq; unfold e in *; size_t).
      cbn [_storage sv2]. rewrite Rmid. cbn [bind].
      unfold st at 1, i at 1. rewrite vec_erase_mid. cbn [bind]. fold l0.
      rewrite vec_insert_ok by (unfold e in *; lia). cbn [bind set_storage _storage].
      rewrite wr_after_insert by (unfold e in *; lia). cbn [bind].
      eexists. split; [reflexivity|]. split.
      * apply SS_insert_at; [exact HS|unfold e in *; lia| |].
        -- intros j z Hj Rj.
           destruct (Z.lt_ge_cases j i) as [Hji|Hji].
           ++ eapply le_trans; [|apply lt_le; exact Ly].
              apply (HL j i); [lia|exact Rj|exact Ry].
           ++ replace j with (j + 1 - 1) in Rj by lia. rewrite <- Rhi in Rj by lia.
              assert (le z x) as Lzx by (apply (HSr (j + 1) r); try assumption; lia).
              destruct Cx as [[-> _]|[Lx _]]; [exact Lzx|].
              eapply le_trans; [exact Lzx|apply lt_le; exact Lx].
        -- intros j z Hj Rj.
           pose proof (rd_bounds _ _ _ Rj) as Bj.
           replace j with (j + 1 - 1) in Rj by lia. rewrite <- Rhi in Rj by lia.
           destruct Cx as [[-> _]|[_ Gt]].
           ++ apply (HSr r (j + 1)); try assumption; unfold e; lia.
           ++ apply lt_le. apply (Gt (j + 1)); [unfold e; lia|exact Rj].
      * unfold st. eapply Permutation_trans;
          [apply Permutation_sym, Permutation_middle|apply perm_insert_at].
    + (* [v] agrees with both neighbours *)
      specialize (C2f eq_refl). cbn [set_last_modified _storage sv2].
      unfold sv2. cbn [_storage _is_corrupted _flag_suspend_autorepair].
      exists st. split; [reflexivity|]. split; [|apply Permutation_refl].
      assert (st = firstn (Z.to_nat i) l0 ++ v :: skipn (Z.to_nat i) l0) as ->.
      { unfold st, i, l0. rewrite to_nat_vsize.
        rewrite firstn_app_left, skipn_app_left. reflexivity. }
      apply SS_insert_at; [exact HS|lia|exact C1f|exact C2f].
Qed.

Lemma repair_not_corrupted (sv : sorted_vector T) :
  _is_corrupted sv = false -> repair sv = Done sv.
Proof. intros Hc. unfold repair. rewrite Hc. reflexivity. Qed.

Lemma wr_ok (st : list T) (p : Z) (v : T) :
  0 <= p < vsize st ->
  wr st p v = Done (firstn (Z.to_nat p) st ++ v :: skipn (S (Z.to_nat p)) st).
Proof.
  intros Hp. unfold wr.
  replace ((0 <=? p) && (p <? vsize st)) with true; [reflexivity|].
  symmetry. apply andb_true_iff. split; [apply Z.leb_le|apply Z.ltb_lt]; lia.
Qed.

Lemma split_at (st : list T) (p : Z) (x : T) :
  rd st p = Done x ->
  st = firstn (Z.to_nat p) st ++ x :: skipn (S (Z.to_nat p)) st.
Proof.
  intros R. apply rd_Done in R. destruct R as [_ N].
  rewrite <- (skipn_cons_nth st _ _ N). symmetry. apply firstn_skipn.
Qed.

(** The state [operator[]] leaves behind on a container in the sorted state. *)
Lemma index_mut_sorted (sv : sorted_vector T) (pos : Z) :
  _is_corrupted sv = false -> 0 <= pos < size sv ->
  index_mut sv pos
  = Done (mk_sv (_storage sv) pos true (_flag_suspend_autorepair sv)).
Proof.
  intros Hc Hp. unfold index_mut.
  assert ((if negb (_flag_suspend_autorepair sv) then repair sv else Done sv) = Done sv) as ->
    by (destruct (negb (_flag_suspend_autorepair sv)); [apply repair_not_corrupted; exact Hc|reflexivity]).
  cbn [bind]. rewrite Hc.
  unfold set_is_corrupted, set_last_modified.
  cbn [_storage _last_modified _is_corrupted _flag_suspend_autorepair].
  destruct (rd_ok (_storage sv) pos) as [x Rx]; [exact Hp|]. rewrite Rx. reflexivity.
Qed.

(** [repair()] on a container whose dirty index is unknown is a full sort. *)
Lemma repair_unknown (st : list T) (flag : bool) :
  repair (mk_sv st npos true flag) = Done (mk_sv (std_sort st) npos false flag).
Proof. reflexivity. Qed.

(** C4. On a container in the sorted state, [sv[i] = v] records [i] as the
    single dirty index (whether or not the autorepair flag is set), and a
    following [repair()] leaves the storage equal to a full sort of the
    content after the mutation.  The same holds when [suspend_autorepair()]
    is called just before the mutation, where the dirty index is recorded as
    unknown and [repair()] sorts. *)
Theorem repair_after_single_mutation (sv : sorted_vector T) (i : Z) (v : T) :
  _is_corrupted sv = false -> ascending (_storage sv) ->
  size sv <= max_size -> 0 <= i < size sv ->
  mutation_then_repair_sorts sv i v i /\
  mutation_then_repair_sorts (suspend_autorepair sv) i v npos.
Proof.
  intros Hc HA Hmax Hi. unfold mutation_then_repair_sorts. split.
  - unfold assign_index. rewrite (index_mut_sorted sv i Hc Hi). cbn [bind].
    unfold store_ref. cbn [_storage]. unfold size in *.
    rewrite wr_ok by exact Hi. cbn [bind]. unfold set_storage.
    cbn [_storage _last_modified _is_corrupted _flag_suspend_autorepair].
    set (a := firstn (Z.to_nat i) (_storage sv)).
    set (b := skipn (S (Z.to_nat i)) (_storage sv)).
    destruct (rd_ok (_storage sv) i) as [x Rx]; [exact Hi|].
    pose proof (split_at _ _ _ Rx) as Est. fold a b in Est.
    assert (vsize a = i) as Ha by (apply vsize_firstn; lia).
    assert (StronglySorted le (a ++ b)) as HS.
    { apply (SS_remove_middle a b x). rewrite <- Est. apply ascending_SS. exact HA. }
    assert (vsize (a ++ v :: b) <= max_size) as Hmax'.
    { rewrite Est in Hmax. rewrite vsize_app in *. unfold vsize in *. simpl length in *. lia. }
    destruct (repair_single a b v (_flag_suspend_autorepair sv) HS Hmax')
      as [st2 [Hr [HS2 HP]]].
    rewrite Ha in Hr.
    eexists. eexists. split; [reflexivity|].
    split; [reflexivity|]. split; [reflexivity|].
    split; [exact Hr|]. split; [|reflexivity].
    cbn [_storage]. apply SS_perm_unique; [exact HS2|apply std_sort_SS|].
    eapply Permutation_trans; [apply Permutation_sym; exact HP|apply std_sort_perm].
  - unfold assign_index, index_mut, suspend_autorepair,
      set_flag_suspend_autorepair, set_last_modified, set_is_corrupted.
    cbn [_storage _last_modified _is_corrupted _flag_suspend_autorepair negb bind].
    destruct (rd_ok (_storage sv) i) as [x Rx]; [exact Hi|]. rewrite Rx. cbn [bind].
    unfold store_ref. cbn [_storage]. unfold size in *.
    rewrite wr_ok by exact Hi. cbn [bind]. unfold set_storage.
    cbn [_storage _last_modified _is_corrupted _flag_suspend_autorepair].
    eexists. eexists. split; [reflexivity|].
    split; [reflexivity|]. split; [reflexivity|].
    split; [apply repair_unknown|]. split; reflexivity.
Qed.

(** ** push, replace and merge keep the storage ascending *)

Lemma find_loop_sound (st : list T) (t : T) :
  vsize st <= max_size ->
  forall (fuel : nat) (f l : Z),
    0 <= f -> l < vsize st -> f <= l + 1 -> Z.of_nat fuel >= l - f + 2 ->
    exists r, find_loop fuel st t f l ((l + f) / 2) = Done r /\
              (r = npos \/ (f <= r <= l /\ rd st r = Done t)).
Proof.
  intros Hmax.
  induction fuel as [|fuel IH]; intros f l Hf Hl Hfl Hfuel; [lia|].
  simpl. destruct (Z.leb_spec f l) as [Le|Gt].
  - pose proof (div2_mid f l Le) as Hm. rewrite (Z.add_comm f l) in Hm.
    set (m := (l + f) / 2) in *.
    destruct (rd_ok st m) as [xm Rm]; [lia|]. rewrite Rm. simpl.
    destruct (xm == t) eqn:Em.
    { apply eqb_eq in Em. subst xm. exists m. split; [reflexivity|]. right. split; [lia|exact Rm]. }
    destruct (rd_ok st f) as [xf Rf]; [lia|]. rewrite Rf. simpl.
    destruct (xf == t) eqn:Ef.
    { apply eqb_eq in Ef. subst xf. exists f. split; [reflexivity|]. right. split; [lia|exact Rf]. }
    destruct (rd_ok st l) as [xl Rl]; [lia|]. rewrite Rl. simpl.
    destruct (xl == t) eqn:El.
    { apply eqb_eq in El. subst xl. exists l. split; [reflexivity|]. right. split; [lia|exact Rl]. }
    destruct (xm << t).
    + rewrite sz_add_small by size_t. rewrite wrap_small by size_t.
      destruct (IH (m + 1) l) as [r [Hr Cr]]; try lia.
      exists r. split; [exact Hr|]. destruct Cr as [->|[Br Rr]]; [left; reflexivity|].
      right. split; [lia|exact Rr].
    + destruct (Z.eqb_spec m 0) as [M0|M0].
      * exists npos. split; [reflexivity|]. left. reflexivity.
      * rewrite sz_sub_small by size_t. rewrite wrap_small by size_t.
        destruct (IH f (m - 1)) as [r [Hr Cr]]; try lia.
        exists r. split; [exact Hr|]. destruct Cr as [->|[Br Rr]]; [left; reflexivity|].
        right. split; [lia|exact Rr].
  - exists npos. split; [reflexivity|]. left. reflexivity.
Qed.

(** [find] over the default range never fails in the sorted state, and a
    position it returns holds [t]. *)
Lemma find_sound (sv : sorted_vector T) (t : T) :
  _is_corrupted sv = false -> size sv <= max_size ->
  exists r, find sv t 0 npos = Done r /\
            (r = npos \/ (0 <= r < size sv /\ rd (_storage sv) r = Done t)).
Proof.
  intros Hc Hmax. unfold find.
  destruct (Z.eq_dec (size sv) 0) as [Z0|NZ].
  { rewrite (empty_true sv Z0). exists npos. auto. }
  assert (0 < size sv) as Hpos
    by (unfold size in *; pose proof (vsize_nonneg (_storage sv)); lia).
  rewrite empty_false by exact Hpos. rewrite Hc. cbn [negb].
  rewrite Z.eqb_refl.
  rewrite sz_sub_small by size_t. rewrite wrap_small by size_t.
  unfold size in *.
  destruct (find_loop_sound (_storage sv) t Hmax (fuel_of sv) 0 (vsize (_storage sv) - 1))
    as [r [Hr Cr]]; try lia.
  { unfold fuel_of, vsize. lia. }
  replace (vsize (_storage sv) - 1 + 0) with (0 + (vsize (_storage sv) - 1)) in Hr by lia.
  exists r. split; [exact Hr|]. destruct Cr as [->|[Br Rr]]; [left; reflexivity|].
  right. split; [lia|exact Rr].
Qed.

Lemma autorepair_settled (sv : sorted_vector T) :
  _is_corrupted sv = false -> autorepair sv = Done sv.
Proof. intros Hc. unfold autorepair. rewrite Hc. reflexivity. Qed.

Lemma SS_push_back (st : list T) (t : T) :
  StronglySorted le st -> (forall x, In x st -> le x t) ->
  StronglySorted le (push_back st t).
Proof.
  intros HS Hle. unfold push_back. apply SS_app; [exact HS|repeat constructor|].
  intros x y Ix [<-|[]]. apply Hle. exact Ix.
Qed.

Lemma vsize_insert (st : list T) (n : nat) (t : T) :
  vsize (firstn n st ++ t :: skipn n st) = vsize st + 1.
Proof.
  unfold vsize. erewrite <- Permutation_length by apply perm_insert_at.
  simpl length. lia.
Qed.

Lemma push_settled (sv : sorted_vector T) (t : T) :
  settled sv -> size sv + 1 <= max_size ->
  exists sv', push sv t = Done sv' /\ settled sv' /\ size sv' = size sv + 1.
Proof.
  intros [Hc HS] Hmax. unfold push. rewrite (autorepair_settled sv Hc). cbn [bind].
  rewrite Hc. cbn [negb].
  assert (forall st', size (set_storage sv st') = vsize st') as Hsize by reflexivity.
  assert (size (set_storage sv (push_back (_storage sv) t)) = size sv + 1) as Hpb.
  { rewrite Hsize. unfold push_back, size. rewrite vsize_app. reflexivity. }
  destruct (Z.eqb_spec (size sv) 0) as [Z0|NZ].
  { eexists. split; [reflexivity|]. split; [|exact Hpb].
    split; [exact Hc|]. cbn [_storage set_storage].
    rewrite (size_zero_storage sv Z0). repeat constructor. }
  assert (0 < size sv) as Hpos
    by (unfold size in *; pose proof (vsize_nonneg (_storage sv)); lia).
  set (e := size sv - 1).
  assert (sorted_range (_storage sv) 0 e) as HSr
    by (intros i j x y _ Hij _; apply SS_rd; [exact HS|exact Hij]).
  destruct (find_ceil_spec sv t npos e Hc) as [r [Hr Cases]];
    [lia|unfold e; lia|right; auto|exact HSr|].
  rewrite Hr. cbn [bind].
  destruct Cases as [[-> [xe [Re Le]]]|[Br [x [Rx Cx]]]].
  - (* every element is smaller: append *)
    simpl. eexists. split; [reflexivity|]. split; [|exact Hpb].
    split; [exact Hc|]. cbn [_storage set_storage].
    apply SS_push_back; [exact HS|].
    intros y Iy. apply In_rd in Iy. destruct Iy as [j Rj].
    apply lt_le. eapply le_lt_trans; [|exact Le].
    apply (HSr j e); try assumption; pose proof (rd_bounds _ _ _ Rj); unfold e, size; lia.
  - replace (r =? npos) with false by (symmetry; apply Z.eqb_neq; unfold e in *; size_t).
    rewrite Rx. cbn [bind]. unfold size in *.
    destruct (x == t) eqn:E.
    + (* after the last element equal to [t] *)
      apply eqb_eq in E. subst x.
      rewrite sz_add_small by (unfold e in *; size_t).
      rewrite vec_insert_ok by (unfold e in *; lia). cbn [bind].
      eexists. split; [reflexivity|]. split; [|rewrite Hsize; apply vsize_insert].
      split; [exact Hc|]. cbn [_storage set_storage].
      apply SS_insert_at; [exact HS|unfold e in *; lia| |].
      * intros j y Hj Rj. apply (HSr j r); try assumption; lia.
      * intros j y Hj Rj. pose proof (rd_bounds _ _ _ Rj) as Bj.
        destruct Cx as [[_ Gt]|[Gx _]].
        -- apply lt_le. apply (Gt j); [unfold e; lia|exact Rj].
        -- rewrite ltb_irrefl in Gx. discriminate.
    + (* before the first larger element *)
      rewrite vec_insert_ok by (unfold e in *; lia). cbn [bind].
      eexists. split; [reflexivity|]. split; [|rewrite Hsize; apply vsize_insert].
      split; [exact Hc|]. cbn [_storage set_storage].
      destruct Cx as [[-> _]|[Gx Lt]]; [rewrite eqb_refl in E; discriminate|].
      apply SS_insert_at; [exact HS|unfold e in *; lia| |].
      * intros j y Hj Rj. apply lt_le. apply (Lt j); [lia|exact Rj].
      * intros j y Hj Rj. pose proof (rd_bounds _ _ _ Rj) as Bj.
        eapply le_trans; [apply lt_le; exact Gx|].
        apply (HSr r j); try assumption; unfold e; lia.
Qed.

Lemma replace_settled (sv : sorted_vector T) (t : T) :
  settled sv -> size sv + 1 <= max_size ->
  exists sv', replace sv t = Done sv' /\ settled sv' /\ size sv' <= size sv + 1.
Proof.
  intros [Hc HS] Hmax. unfold replace. rewrite (autorepair_settled sv Hc). cbn [bind].
  destruct (find_sound sv t Hc) as [r [Hr Cr]]; [lia|].
  rewrite Hr. cbn [bind].
  destruct Cr as [->|[Br Rr]].
  - simpl. destruct (push_settled sv t (conj Hc HS) Hmax) as [sv' [Hp [Hs Hz]]].
    exists sv'. split; [exact Hp|]. split; [exact Hs|lia].
  - replace (r =? npos) with false by (symmetry; apply Z.eqb_neq; size_t).
    cbn [negb]. rewrite (wr_read_back _ _ _ Rr). cbn [bind].
    eexists. split; [reflexivity|]. split; [split; [exact Hc|exact HS]|].
    unfold size. cbn [_storage set_storage]. lia.
Qed.

Lemma merge_settled (sv : sorted_vector T) (v : list T) :
  exists sv', merge sv v = Done sv' /\ settled sv' /\ size sv' = size sv + vsize v.
Proof.
  unfold merge, repair, set_is_corrupted, set_last_modified, set_storage, sort.
  cbn [_storage _last_modified _is_corrupted _flag_suspend_autorepair].
  rewrite Z.eqb_refl. cbn [bind].
  unfold set_is_corrupted, set_last_modified, set_storage.
  cbn [_storage _last_modified _is_corrupted _flag_suspend_autorepair].
  eexists. split; [reflexivity|]. split.
  - split; [reflexivity|]. apply std_sort_SS.
  - unfold size, vsize. cbn [_storage]. rewrite std_sort_length, length_app. lia.
Qed.

Lemma total_growth_nonneg (ops : list (op T)) : 0 <= total_growth ops.
Proof.
  induction ops as [|o ops IH]; cbn [total_growth]; [lia|].
  destruct o as [t|t|v]; cbn [growth]; [lia|lia|].
  pose proof (vsize_nonneg v). lia.
Qed.

Lemma run_settled (ops : list (op T)) :
  forall sv, settled sv -> size sv + total_growth ops <= max_size ->
    exists sv', run ops sv = Done sv' /\ settled sv'.
Proof.
  induction ops as [|o ops IH]; intros sv Hs Hmax; cbn [run total_growth] in *.
  - exists sv. auto.
  - pose proof (total_growth_nonneg ops) as G.
    assert (exists sv1, apply_op sv o = Done sv1 /\ settled sv1 /\
                        size sv1 <= size sv + growth o) as [sv1 [H1 [S1 Z1]]].
    { destruct o as [t|t|v]; cbn [apply_op growth] in *.
      - destruct (push_settled sv t Hs) as [sv1 [? [? ?]]]; [lia|].
        exists sv1. split; [assumption|]. split; [assumption|lia].
      - destruct (replace_settled sv t Hs) as [sv1 [? [? ?]]]; [lia|].
        exists sv1. split; [assumption|]. split; [assumption|lia].
      - destruct (merge_settled sv v) as [sv1 [? [? ?]]].
        exists sv1. split; [assumption|]. split; [assumption|lia]. }
    rewrite H1. cbn [bind]. apply IH; [exact S1|lia].
Qed.

Lemma sv_of_vector_settled (v0 : list T) : settled (sv_of_vector v0).
Proof. split; [reflexivity|]. apply std_sort_SS. Qed.

Lemma sv_empty_is_sv_of_vector : @sv_empty T = sv_of_vector [].
Proof. reflexivity. Qed.

(** C5. Start from the empty container or from one constructed from a
    vector, apply any sequence of [push], [replace] and [merge] (the vector
    never outgrowing [max_size]), then call [repair()]: every adjacent pair of
    the resulting storage is in order. *)
Theorem sorted_after_repair (v0 : list T) (ops : list (op T)) (sv0 : sorted_vector T) :
  sv0 = sv_empty \/ sv0 = sv_of_vector v0 ->
  size sv0 + total_growth ops <= max_size ->
  exists sv1 sv2,
    run ops sv0 = Done sv1 /\ repair sv1 = Done sv2 /\
    ascending (_storage sv2) /\ _is_corrupted sv2 = false.
Proof.
  intros Hstart Hmax.
  assert (settled sv0) as Hs.
  { destruct Hstart as [->| ->];
      [rewrite sv_empty_is_sv_of_vector|]; apply sv_of_vector_settled. }
  destruct (run_settled ops sv0 Hs Hmax) as [sv1 [Hrun [Hc HS]]].
  exists sv1, sv1. split; [exact Hrun|].
  split; [apply repair_not_corrupted; exact Hc|].
  split; [apply SS_ascending; exact HS|exact Hc].
Qed.

(** ** What [find] and [find_linear] compute *)

Lemma find_loop_complete (st : list T) (t : T) (e : Z) :
  vsize st <= max_size -> e < vsize st -> sorted_range st 0 e ->
  forall (fuel : nat) (f l : Z),
    0 <= f -> l <= e -> f <= l + 1 ->
    all_lt st 0 f t -> all_gt st l e t ->
    Z.of_nat fuel >= l - f + 2 ->
    find_loop fuel st t f l ((l + f) / 2) = Done npos ->
    forall j x, 0 <= j <= e -> rd st j = Done x -> x <> t.
Proof.
  intros Hmax He HS.
  assert (forall x, (x << t) = true -> x <> t) as Lne
    by (intros x L ->; rewrite ltb_irrefl in L; discriminate).
  assert (forall x, (t << x) = true -> x <> t) as Gne
    by (intros x L ->; rewrite ltb_irrefl in L; discriminate).
  induction fuel as [|fuel IH]; intros f l Hf Hl Hfl Hlt Hgt Hfuel; [lia|].
  simpl. destruct (Z.leb_spec f l) as [Le|Gt].
  - pose proof (div2_mid f l Le) as Hm. rewrite (Z.add_comm f l) in Hm.
    set (m := (l + f) / 2) in *.
    destruct (rd_ok st m) as [xm Rm]; [lia|]. rewrite Rm. simpl.
    destruct (xm == t) eqn:Em; [intros [= E]; size_t|].
    destruct (rd_ok st f) as [xf Rf]; [lia|]. rewrite Rf. simpl.
    destruct (xf == t) eqn:Ef; [intros [= E]; size_t|].
    destruct (rd_ok st l) as [xl Rl]; [lia|]. rewrite Rl. simpl.
    destruct (xl == t) eqn:El; [intros [= E]; size_t|].
    destruct (xm << t) eqn:Lm.
    + rewrite sz_add_small by size_t. rewrite wrap_small by size_t.
      apply IH; try lia; try assumption.
      intros j y Hj Rj. eapply le_lt_trans; [|exact Lm].
      apply (HS j m); try assumption; lia.
    + assert ((t << xm) = true) as Gm.
      { apply le_neq_lt; [exact Lm|]. apply eqb_neq in Em. congruence. }
      destruct (Z.eqb_spec m 0) as [M0|M0].
      * intros _ j y Hj Rj. apply Gne.
        eapply lt_le_trans; [exact Gm|].
        apply (HS m j); try assumption; lia.
      * rewrite sz_sub_small by size_t. rewrite wrap_small by size_t.
        apply IH; try lia; try assumption.
        intros j y Hj Rj.
        destruct (Z.le_gt_cases j l) as [Hjl|Hjl].
        -- eapply lt_le_trans; [exact Gm|].
           apply (HS m j); try assumption; lia.
        -- apply (Hgt j); [lia|exact Rj].
  - intros _ j y Hj Rj.
    destruct (Z.lt_ge_cases j f) as [Hjf|Hjf].
    + apply Lne. apply (Hlt j); [lia|exact Rj].
    + apply Gne. apply (Hgt j); [lia|exact Rj].
Qed.

(** In the sorted state [find] over the default range is right: it returns
    a position holding [t] when [t] is stored and not-found otherwise. *)
Lemma find_sorted_state (sv : sorted_vector T) (t : T) :
  _is_corrupted sv = false -> size sv <= max_size -> ascending (_storage sv) ->
  exists r, find sv t 0 npos = Done r /\
    ((0 <= r < size sv /\ rd (_storage sv) r = Done t) \/
     (r = npos /\ ~ In t (_storage sv))).
Proof.
  intros Hc Hmax HA.
  destruct (find_sound sv t Hc Hmax) as [r [Hr Cr]].
  exists r. split; [exact Hr|].
  destruct Cr as [->|Cr]; [right; split; [reflexivity|]|left; exact Cr].
  intros It. apply In_rd in It. destruct It as [j Rj].
  pose proof (rd_bounds _ _ _ Rj) as Bj.
  assert (0 < size sv) as Hpos by (unfold size; lia).
  unfold find in Hr. rewrite empty_false in Hr by exact Hpos.
  rewrite Hc in Hr. cbn [negb] in Hr. rewrite Z.eqb_refl in Hr.
  rewrite sz_sub_small in Hr by size_t. rewrite wrap_small in Hr by size_t.
  rewrite Z.add_comm in Hr. unfold size in *.
  set (e := vsize (_storage sv) - 1) in *.
  apply (find_loop_complete (_storage sv) t e Hmax ltac:(lia)
           (ascending_sorted_range _ 0 e HA) (fuel_of sv) 0 e) with (j := j) (x := t);
    try lia; try assumption.
  - intros k y Hk. lia.
  - intros k y Hk. lia.
  - unfold fuel_of, vsize in *. lia.
  - reflexivity.
Qed.

(** The loop of [find_linear] visits the positions [start_pos .. end_pos - 1]:
    the element at [end_pos] is never compared. *)
Lemma find_linear_loop_half_open (st : list T) (t : T) (e : Z) :
  vsize st <= max_size -> e < vsize st ->
  forall (fuel : nat) (s : Z),
    0 <= s <= e -> Z.of_nat fuel >= e - s + 1 ->
    exists r, find_linear_loop fuel st t s e = Done r /\
      ((s <= r < e /\ rd st r = Done t) \/
       (r = npos /\ forall j x, s <= j < e -> rd st j = Done x -> x <> t)).
Proof.
  intros Hmax He.
  induction fuel as [|fuel IH]; intros s Hs Hfuel; [lia|].
  simpl. destruct (Z.eqb_spec s e) as [->|Ne]; simpl.
  - exists npos. split; [reflexivity|]. right. split; [reflexivity|]. intros; lia.
  - destruct (rd_ok st s) as [x Rx]; [lia|]. rewrite Rx. simpl.
    rewrite sz_add_small by size_t.
    destruct (x == t) eqn:E.
    + apply eqb_eq in E. subst x. rewrite sz_sub_small by size_t.
      replace (s + 1 - 1) with s by lia.
      exists s. split; [reflexivity|]. left. split; [lia|exact Rx].
    + destruct (IH (s + 1)) as [r [Hr Cr]]; [lia|lia|].
      exists r. split; [exact Hr|].
      destruct Cr as [[Br Rr]|[-> Hall]]; [left; split; [lia|exact Rr]|].
      right. split; [reflexivity|]. intros j y Hj Rj.
      destruct (Z.eq_dec j s) as [->|Njs].
      * rewrite Rx in Rj. injection Rj as <-. apply eqb_neq. exact E.
      * apply (Hall j); [lia|exact Rj].
Qed.

Lemma find_linear_half_open (sv : sorted_vector T) (t : T) (s e : Z) :
  size sv <= max_size -> 0 <= s <= e -> e < size sv ->
  exists r, find_linear sv t s e = Done r /\
    ((s <= r < e /\ rd (_storage sv) r = Done t) \/
     (r = npos /\ forall j x, s <= j < e -> rd (_storage sv) j = Done x -> x <> t)).
Proof.
  intros Hmax Hs He. unfold find_linear.
  assert ((e =? npos) = false) as Hnp by (apply Z.eqb_neq; size_t).
  replace (size sv =? 0) with false by (symmetry; apply Z.eqb_neq; lia).
  cbv zeta. rewrite Hnp.
  replace (e <? s) with false by (symmetry; apply Z.ltb_ge; lia).
  rewrite Hnp. unfold size in *.
  apply find_linear_loop_half_open; try assumption.
  unfold fuel_of, vsize in *. lia.
Qed.

(** ** Dirty tracking *)

Tactic Notation "bind_inv" hyp(H) "as" ident(x) :=
  match type of H with
  | bind ?c _ = Done _ =>
      let E := fresh "E" in
      destruct c as [x| | |] eqn:E; cbn [bind] in H; try discriminate H
  end.

Lemma single_shift_right_flags (sv sv' : sorted_vector T) (p q : Z) :
  single_shift_right sv p q = Done sv' ->
  _is_corrupted sv' = _is_corrupted sv /\
  _flag_suspend_autorepair sv' = _flag_suspend_autorepair sv.
Proof.
  unfold single_shift_right. destruct (p =? q).
  - intros [= <-]. auto.
  - intros Hb. bind_inv Hb as t. bind_inv Hb as st1. bind_inv Hb as st2.
    injection Hb as <-. auto.
Qed.

Lemma single_shift_left_flags (sv sv' : sorted_vector T) (p q : Z) :
  single_shift_left sv p q = Done sv' ->
  _is_corrupted sv' = _is_corrupted sv /\
  _flag_suspend_autorepair sv' = _flag_suspend_autorepair sv.
Proof.
  unfold single_shift_left. destruct (p =? q).
  - intros [= <-]. auto.
  - intros Hb. bind_inv Hb as t. bind_inv Hb as st1. bind_inv Hb as st2.
    injection Hb as <-. auto.
Qed.

(** Whatever [repair()] does to a corrupted container, when it returns the
    container is flagged sorted and no dirty index is recorded. *)
Lemma repair_clears (sv sv1 : sorted_vector T) :
  _is_corrupted sv = true -> repair sv = Done sv1 ->
  _is_corrupted sv1 = false /\
  _last_modified sv1 = npos /\
  _flag_suspend_autorepair sv1 = _flag_suspend_autorepair sv.
Proof.
  intros Hc Hr. unfold repair in Hr. rewrite Hc in Hr.
  bind_inv Hr as sv'. injection Hr as <-.
  cbn [set_last_modified _is_corrupted _last_modified _flag_suspend_autorepair].
  assert (_is_corrupted sv' = false /\
          _flag_suspend_autorepair sv' = _flag_suspend_autorepair sv) as [A B];
    [|auto].
  destruct (_last_modified sv =? npos); [injection E as <-; auto|].
  bind_inv E as c1. destruct c1.
  - bind_inv E as x. bind_inv E as pos_ceil. bind_inv E as sv2. bind_inv E as st.
    injection E as <-.
    cbn [set_storage _is_corrupted _flag_suspend_autorepair].
    match goal with
    | Hs : single_shift_right _ _ _ = Done _ |- _ =>
        apply single_shift_right_flags in Hs; destruct Hs as [-> ->]
    end. auto.
  - bind_inv E as c2. destruct c2.
    + bind_inv E as x. bind_inv E as pos_floor. bind_inv E as sv2. bind_inv E as st.
      injection E as <-.
      cbn [set_storage _is_corrupted _flag_suspend_autorepair].
      match goal with
      | Hs : single_shift_left _ _ _ = Done _ |- _ =>
          apply single_shift_left_flags in Hs; destruct Hs as [-> ->]
      end. auto.
    + injection E as <-. auto.
Qed.

(** C7 (amended). Non-const [operator[](pos)] with a valid [pos] always
    leaves the container flagged corrupted.  On a container in the sorted
    state it records [pos] as the dirty index.  On a container that is
    already dirty it records "unknown" when autorepair is suspended; when
    autorepair is active it first runs [repair()] and then records [pos].
    Dereferencing a non-const iterator is the same call. *)
Theorem index_mut_marks (sv : sorted_vector T) (pos : Z) :
  (_is_corrupted sv = false -> 0 <= pos < size sv ->
     index_mut sv pos
     = Done (mk_sv (_storage sv) pos true (_flag_suspend_autorepair sv)))
  /\
  (_is_corrupted sv = true -> _flag_suspend_autorepair sv = true ->
   0 <= pos < size sv ->
     index_mut sv pos = Done (mk_sv (_storage sv) npos true true))
  /\
  (forall sv1,
     _is_corrupted sv = true -> _flag_suspend_autorepair sv = false ->
     repair sv = Done sv1 -> 0 <= pos < size sv1 ->
     index_mut sv pos = Done (mk_sv (_storage sv1) pos true false))
  /\
  iterator_deref sv pos = index_mut sv pos.
Proof.
  split; [|split; [|split]].
  - apply index_mut_sorted.
  - intros Hc Hf Hp. unfold index_mut. rewrite Hf. cbn [negb bind]. rewrite Hc.
    unfold set_is_corrupted, set_last_modified.
    cbn [_storage _last_modified _is_corrupted _flag_suspend_autorepair].
    destruct (rd_ok (_storage sv) pos) as [x Rx]; [exact Hp|]. rewrite Rx, Hf. reflexivity.
  - intros sv1 Hc Hf Hr Hp. unfold index_mut. rewrite Hf. cbn [negb]. rewrite Hr.
    cbn [bind].
    destruct (repair_clears sv sv1 Hc Hr) as [Hc1 [_ Hf1]].
    rewrite Hc1. unfold set_is_corrupted, set_last_modified.
    cbn [_storage _last_modified _is_corrupted _flag_suspend_autorepair].
    destruct (rd_ok (_storage sv1) pos) as [x Rx]; [exact Hp|].
    rewrite Rx, Hf1, Hf. reflexivity.
  - reflexivity.
Qed.

(** ** Searching a container flagged corrupted *)

Lemma end_pos_idempotent (n end_pos : Z) :
  let e := if end_pos =? npos then sz_sub n 1 else end_pos in
  (if e =? npos then sz_sub n 1 else e) = e.
Proof.
  simpl. destruct (end_pos =? npos) eqn:E.
  - destruct (sz_sub n 1 =? npos); reflexivity.
  - rewrite E. reflexivity.
Qed.

(** Where the searches go in a container flagged corrupted: [find] and
    [find_first] hand over to [find_linear] and [find_linear_first] with the
    range they were given, [find_last] calls [find_linear_last] without the
    range, and [find_floor] and [find_ceil] return not-found without looking
    at the storage. *)
Lemma searches_when_corrupted (sv : sorted_vector T) (t : T) (start_pos end_pos : Z) :
  _is_corrupted sv = true ->
  find sv t start_pos end_pos = find_linear sv t start_pos end_pos /\
  find_first sv t start_pos end_pos = find_linear_first sv t start_pos end_pos /\
  find_last sv t start_pos end_pos = find_linear_last sv t 0 npos /\
  find_floor sv t start_pos end_pos = Done npos /\
  find_ceil sv t start_pos end_pos = Done npos.
Proof.
  intros Hc.
  assert (empty sv = true -> (size sv =? 0) = true) as Hemp.
  { unfold empty, size, vsize. destruct (_storage sv); [reflexivity|discriminate]. }
  split; [|split; [|split; [|split]]].
  - unfold find. rewrite Hc. cbn [negb].
    destruct (empty sv) eqn:E; [|reflexivity].
    unfold find_linear. rewrite (Hemp eq_refl). reflexivity.
  - unfold find_first. rewrite Hc. cbn [negb].
    destruct (empty sv) eqn:E.
    + unfold find_linear_first. rewrite (Hemp eq_refl). reflexivity.
    + unfold find_linear_first. destruct (size sv =? 0); [reflexivity|].
      rewrite !(end_pos_idempotent (size sv) end_pos). reflexivity.
  - unfold find_last. rewrite Hc. reflexivity.
  - unfold find_floor. rewrite Hc. destruct (empty sv); reflexivity.
  - unfold find_ceil. rewrite Hc. destruct (empty sv); reflexivity.
Qed.

(** ** Searching the empty container *)

(** Eight of the ten searches return not-found on an empty container
    whatever the value and the positions passed; [find_next] and [find_prev]
    are the two that index the storage first. *)
Lemma searches_on_empty (sv : sorted_vector T) (t : T) (start_pos end_pos : Z) :
  _storage sv = [] ->
  find sv t start_pos end_pos = Done npos /\
  find_first sv t start_pos end_pos = Done npos /\
  find_last sv t start_pos end_pos = Done npos /\
  find_linear sv t start_pos end_pos = Done npos /\
  find_linear_first sv t start_pos end_pos = Done npos /\
  find_linear_last sv t start_pos end_pos = Done npos /\
  find_floor sv t start_pos end_pos = Done npos /\
  find_ceil sv t start_pos end_pos = Done npos.
Proof.
  intros E.
  assert (find sv t start_pos
            (if end_pos =? npos then sz_sub (size sv) 1 else end_pos) = Done npos) as F
    by (unfold find, empty; rewrite E; reflexivity).
  unfold find_last, find_first, find, find_linear, find_linear_first,
    find_linear_last, find_floor, find_ceil, empty, size in *.
  rewrite E in *. cbn [vsize length Z.of_nat Z.eqb] in *.
  repeat split; try reflexivity.
  destruct (_is_corrupted sv); reflexivity.
Qed.

Lemma rd_nil (i : Z) : rd (@nil T) i = Undefined.
Proof.
  unfold rd. destruct ((0 <=? i) && (i <? vsize [])); [|reflexivity].
  destruct (Z.to_nat i); reflexivity.
Qed.

Lemma find_next_on_empty (sv : sorted_vector T) (current_pos : Z) :
  _storage sv = [] -> current_pos <> npos ->
  find_next sv current_pos npos = Undefined.
Proof.
  intros E N. unfold find_next, size. rewrite E.
  change (sz_sub (vsize []) 1) with npos. rewrite Z.eqb_refl.
  replace (current_pos =? npos) with false by (symmetry; apply Z.eqb_neq; exact N).
  rewrite rd_nil.
  destruct (negb (_is_corrupted sv)); reflexivity.
Qed.

Lemma find_prev_on_empty (sv : sorted_vector T) (current_pos start_pos : Z) :
  _storage sv = [] -> start_pos < current_pos ->
  find_prev sv current_pos start_pos = Undefined.
Proof.
  intros E N. unfold find_prev. rewrite E.
  replace (current_pos <=? start_pos) with false by (symmetry; apply Z.leb_gt; exact N).
  rewrite rd_nil.
  destruct (negb (_is_corrupted sv)); reflexivity.
Qed.

(** ** The walks over a run of equal elements *)

Lemma rd_npos (st : list T) : vsize st <= max_size -> rd st npos = Undefined.
Proof.
  intros Hmax. unfold rd.
  replace (npos <? vsize st) with false by (symmetry; apply Z.ltb_ge; size_t).
  rewrite andb_false_r. reflexivity.
Qed.

Lemma rd_size (st : list T) : rd st (vsize st) = Undefined.
Proof. unfold rd. rewrite Z.ltb_irrefl, andb_false_r. reflexivity. Qed.

(** When the run of [t] reaches position 0 and [start_pos] is 0, the walk of
    [find_first] goes on to position [(size_t)-1] and reads there. *)
Lemma find_first_walk_below_zero (st : list T) (t : T) (fuel : nat) (prev : option Z) :
  vsize st <= max_size -> rd st 0 = Done t ->
  find_first_walk (S (S fuel)) st t 0 0 prev = Undefined.
Proof.
  intros Hmax R0. cbn [find_first_walk]. rewrite R0. cbn [bind].
  rewrite eqb_refl. cbn [Z.leb Z.compare andb]. rewrite sz_sub_zero_one.
  rewrite (rd_npos st Hmax). reflexivity.
Qed.

(** When the run of [t] reaches the last position and [end_pos] is that
    position, the walk of [find_last] goes on to position [size] and reads
    there. *)
Lemma find_last_walk_past_end (st : list T) (t : T) (fuel : nat) (prev : option Z) :
  0 < vsize st <= max_size -> rd st (vsize st - 1) = Done t ->
  find_last_walk (S (S fuel)) st t (vsize st - 1) (vsize st - 1) prev = Undefined.
Proof.
  intros Hmax Re. cbn [find_last_walk]. rewrite Re. cbn [bind].
  rewrite eqb_refl, Z.leb_refl. cbn [andb].
  rewrite sz_add_small by size_t. replace (vsize st - 1 + 1) with (vsize st) by lia.
  rewrite rd_size. reflexivity.
Qed.

(** ** Content of the container after push, replace and merge *)

Lemma set_storage_same (sv : sorted_vector T) : set_storage sv (_storage sv) = sv.
Proof. destruct sv. reflexivity. Qed.

Lemma firstn_vsize (st : list T) : firstn (Z.to_nat (vsize st)) st = st.
Proof. rewrite to_nat_vsize. apply firstn_all. Qed.

Lemma skipn_vsize (st : list T) : skipn (Z.to_nat (vsize st)) st = [].
Proof. rewrite to_nat_vsize. apply skipn_all. Qed.

(** [push] on a container in the sorted state puts [t] at some position of
    the storage and leaves the other fields alone. *)
Lemma push_shape (sv : sorted_vector T) (t : T) :
  settled sv -> size sv + 1 <= max_size ->
  exists p, 0 <= p <= size sv /\
    push sv t
    = Done (set_storage sv (firstn (Z.to_nat p) (_storage sv)
                            ++ t :: skipn (Z.to_nat p) (_storage sv))).
Proof.
  intros [Hc HS] Hmax. unfold push. rewrite (autorepair_settled sv Hc). cbn [bind].
  rewrite Hc. cbn [negb].
  assert (push_back (_storage sv) t
          = firstn (Z.to_nat (size sv)) (_storage sv)
            ++ t :: skipn (Z.to_nat (size sv)) (_storage sv)) as Hpb.
  { unfold push_back, size. rewrite firstn_vsize, skipn_vsize. reflexivity. }
  pose proof (vsize_nonneg (_storage sv)) as Hnn. fold (size sv) in Hnn.
  destruct (Z.eqb_spec (size sv) 0) as [Z0|NZ].
  { exists (size sv). split; [lia|]. rewrite Hpb. reflexivity. }
  set (e := size sv - 1).
  assert (sorted_range (_storage sv) 0 e) as HSr
    by (intros i j x y _ Hij _; apply SS_rd; [exact HS|exact Hij]).
  destruct (find_ceil_spec sv t npos e Hc) as [r [Hr Cases]];
    [lia|unfold e; lia|right; auto|exact HSr|].
  rewrite Hr. cbn [bind].
  destruct Cases as [[-> _]|[Br [x [Rx _]]]].
  - exists (size sv). split; [lia|]. rewrite Z.eqb_refl, Hpb. reflexivity.
  - replace (r =? npos) with false by (symmetry; apply Z.eqb_neq; unfold e in *; size_t).
    rewrite Rx. cbn [bind]. unfold size in *.
    destruct (x == t).
    + rewrite sz_add_small by (unfold e in *; size_t).
      rewrite vec_insert_ok by (unfold e in *; lia). cbn [bind].
      exists (r + 1). split; [unfold e in *; lia|reflexivity].
    + rewrite vec_insert_ok by (unfold e in *; lia). cbn [bind].
      exists r. split; [unfold e in *; lia|reflexivity].
Qed.

(** The storage [push] leaves is the sorted arrangement of the old content
    and [t]. *)
Lemma push_storage (sv : sorted_vector T) (t : T) :
  settled sv -> size sv + 1 <= max_size ->
  push sv t = Done (set_storage sv (std_sort (_storage sv ++ [t]))).
Proof.
  intros Hs Hmax.
  destruct (push_shape sv t Hs Hmax) as [p [Hp E]].
  destruct (push_settled sv t Hs Hmax) as [sv' [E' [[_ HS'] _]]].
  rewrite E in E'. injection E' as <-. cbn [_storage set_storage] in HS'.
  rewrite E. f_equal. f_equal.
  apply SS_perm_unique; [exact HS'|apply std_sort_SS|].
  eapply Permutation_trans; [apply Permutation_sym, perm_insert_at|].
  eapply Permutation_trans; [|apply std_sort_perm].
  change (t :: _storage sv) with ([t] ++ _storage sv). apply Permutation_app_comm.
Qed.

Lemma In_std_sort (l : list T) (x : T) : In x (std_sort l) <-> In x l.
Proof.
  split; apply Permutation_in;
    [apply Permutation_sym|]; apply std_sort_perm.
Qed.

Lemma settled_set_storage_sort (sv : sorted_vector T) (l : list T) :
  _is_corrupted sv = false -> settled (set_storage sv (std_sort l)).
Proof. intros Hc. split; [exact Hc|apply std_sort_SS]. Qed.

Lemma vsize_std_sort (l : list T) : vsize (std_sort l) = vsize l.
Proof. unfold vsize. rewrite std_sort_length. reflexivity. Qed.

(** X1. Pushing [t] into a container in the sorted state leaves the sorted
    arrangement of the old content and [t], and a [find t] that follows
    returns a position holding [t]. *)
Theorem push_then_find (sv : sorted_vector T) (t : T) :
  settled sv -> size sv + 1 <= max_size ->
  exists sv' r,
    push sv t = Done sv' /\
    _storage sv' = std_sort (_storage sv ++ [t]) /\
    _is_corrupted sv' = false /\
    find sv' t 0 npos = Done r /\
    rd (_storage sv') r = Done t.
Proof.
  intros Hs Hmax. pose proof Hs as [Hc _].
  set (sv' := set_storage sv (std_sort (_storage sv ++ [t]))).
  assert (settled sv') as Hs' by (apply settled_set_storage_sort; exact Hc).
  assert (size sv' <= max_size) as Hmax'.
  { unfold sv', size. cbn [_storage set_storage].
    rewrite vsize_std_sort, vsize_app. unfold size, vsize in *. simpl length. lia. }
  destruct (find_sorted_state sv' t (proj1 Hs') Hmax'
              (SS_ascending _ (proj2 Hs'))) as [r [Hr Cr]].
  exists sv', r. split; [apply push_storage; assumption|].
  split; [reflexivity|]. split; [exact Hc|]. split; [exact Hr|].
  destruct Cr as [[_ Rr]|[_ Nin]]; [exact Rr|].
  exfalso. apply Nin. unfold sv'. cbn [_storage set_storage].
  apply In_std_sort. apply in_or_app. right. simpl. auto.
Qed.

Lemma std_sort_app_sorted (l v : list T) (t : T) :
  std_sort (std_sort (l ++ [t]) ++ v) = std_sort (l ++ t :: v).
Proof.
  apply SS_perm_unique; [apply std_sort_SS|apply std_sort_SS|].
  eapply Permutation_trans; [apply Permutation_sym, std_sort_perm|].
  eapply Permutation_trans; [|apply std_sort_perm].
  replace (l ++ t :: v) with ((l ++ [t]) ++ v) by (rewrite <- app_assoc; reflexivity).
  apply Permutation_app_tail. apply Permutation_sym, std_sort_perm.
Qed.

Lemma push_each_storage (v : list T) :
  forall sv, settled sv -> size sv + vsize v <= max_size ->
    push_each sv v = Done (set_storage sv (std_sort (_storage sv ++ v))).
Proof.
  induction v as [|t v IH]; intros sv Hs Hmax.
  - unfold push_each. cbn [map run]. rewrite app_nil_r.
    rewrite SS_std_sort_id by apply Hs. rewrite set_storage_same. reflexivity.
  - unfold push_each in *. cbn [map run apply_op].
    assert (vsize (t :: v) = vsize v + 1) as Hv by (unfold vsize; simpl length; lia).
    pose proof (vsize_nonneg v) as Hnn.
    rewrite push_storage by (try assumption; lia). cbn [bind].
    rewrite IH.
    + cbn [_storage set_storage]. rewrite std_sort_app_sorted.
      destruct sv; reflexivity.
    + apply settled_set_storage_sort. apply Hs.
    + unfold size in *. cbn [_storage set_storage].
      rewrite vsize_std_sort, vsize_app. unfold vsize at 2. simpl length. lia.
Qed.

(** [merge] returns whatever the state of the container, with the sorted
    arrangement of the old content and [v]. *)
Lemma merge_storage (sv : sorted_vector T) (v : list T) :
  merge sv v
  = Done (mk_sv (std_sort (_storage sv ++ v)) npos false (_flag_suspend_autorepair sv)).
Proof. reflexivity. Qed.

(** X2. On a container in the sorted state, pushing the elements of [v] one
    after the other and merging [v] in one call leave the same storage, the
    sorted arrangement of the old content and [v], and both leave the
    container flagged sorted. *)
Theorem push_each_agrees_with_merge (sv : sorted_vector T) (v : list T) :
  settled sv -> size sv + vsize v <= max_size ->
  exists sv1 sv2,
    push_each sv v = Done sv1 /\ merge sv v = Done sv2 /\
    _storage sv1 = std_sort (_storage sv ++ v) /\
    _storage sv2 = _storage sv1 /\
    _is_corrupted sv1 = false /\ _is_corrupted sv2 = false.
Proof.
  intros Hs Hmax. eexists. eexists.
  split; [apply push_each_storage; assumption|].
  split; [apply merge_storage|].
  split; [reflexivity|]. split; [reflexivity|]. split; [apply Hs|reflexivity].
Qed.

Lemma push_each_suspended (v : list T) :
  forall st, push_each (mk_sv st npos true true) v = Done (mk_sv (st ++ v) npos true true).
Proof.
  induction v as [|t v IH]; intros st.
  - unfold push_each. cbn [map run]. rewrite app_nil_r. reflexivity.
  - unfold push_each in *. cbn [map run apply_op].
    assert (push (mk_sv st npos true true) t = Done (mk_sv (st ++ [t]) npos true true)) as ->
      by reflexivity.
    cbn [bind]. rewrite IH. rewrite <- app_assoc. reflexivity.
Qed.

(** X3. Batch insertion: after [suspend_autorepair()], whatever the state
    was, every [push] appends at the back without searching, and
    [resume_autorepair()] then leaves the sorted arrangement of the old
    content and the pushed elements, flagged sorted. *)
Theorem suspended_pushes_then_resume (sv : sorted_vector T) (v : list T) :
  exists sv1 sv2,
    push_each (suspend_autorepair sv) v = Done sv1 /\
    _storage sv1 = _storage sv ++ v /\
    resume_autorepair sv1 = Done sv2 /\
    _storage sv2 = std_sort (_storage sv ++ v) /\
    _is_corrupted sv2 = false /\ _flag_suspend_autorepair sv2 = false.
Proof.
  exists (mk_sv (_storage sv ++ v) npos true true).
  exists (mk_sv (std_sort (_storage sv ++ v)) npos false false).
  split; [apply (push_each_suspended v (_storage sv))|].
  split; [reflexivity|]. split; [reflexivity|].
  split; [reflexivity|]. split; reflexivity.
Qed.

(** ** replace and merge_replace *)

Lemma replace_present (sv : sorted_vector T) (t : T) :
  settled sv -> size sv <= max_size -> In t (_storage sv) ->
  replace sv t = Done sv.
Proof.
  intros [Hc HS] Hmax It. unfold replace. rewrite (autorepair_settled sv Hc). cbn [bind].
  destruct (find_sorted_state sv t Hc Hmax (SS_ascending _ HS)) as [r [Hr Cr]].
  rewrite Hr. cbn [bind].
  destruct Cr as [[Br Rr]|[_ Nin]]; [|contradiction].
  replace (r =? npos) with false by (symmetry; apply Z.eqb_neq; size_t).
  cbn [negb]. rewrite (wr_read_back _ _ _ Rr). cbn [bind].
  rewrite set_storage_same. reflexivity.
Qed.

Lemma replace_absent (sv : sorted_vector T) (t : T) :
  settled sv -> size sv <= max_size -> ~ In t (_storage sv) ->
  replace sv t = push sv t.
Proof.
  intros [Hc HS] Hmax Nt. unfold replace. rewrite (autorepair_settled sv Hc). cbn [bind].
  destruct (find_sorted_state sv t Hc Hmax (SS_ascending _ HS)) as [r [Hr Cr]].
  rewrite Hr. cbn [bind].
  destruct Cr as [[Br Rr]|[-> _]]; [exfalso; apply Nt; eapply rd_In; exact Rr|].
  rewrite Z.eqb_refl. reflexivity.
Qed.

Lemma In_dec_laws (t : T) (l : list T) : In t l \/ ~ In t l.
Proof.
  induction l as [|x l IH]; [right; intros []|].
  destruct (x == t) eqn:E.
  - apply eqb_eq in E. left. simpl. auto.
  - apply eqb_neq in E. destruct IH as [I|N]; [left; simpl; auto|].
    right. intros [C|C]; contradiction.
Qed.

(** [replace] on a container in the sorted state either finds [t] and
    returns the container as it is, or inserts [t] in order. *)
Lemma replace_cases (sv : sorted_vector T) (t : T) :
  settled sv -> size sv + 1 <= max_size ->
  (In t (_storage sv) /\ replace sv t = Done sv) \/
  (~ In t (_storage sv) /\
   replace sv t = Done (set_storage sv (std_sort (_storage sv ++ [t])))).
Proof.
  intros Hs Hmax.
  destruct (In_dec_laws t (_storage sv)) as [It|Nt].
  - left. split; [exact It|]. apply replace_present; [exact Hs|lia|exact It].
  - right. split; [exact Nt|].
    rewrite replace_absent by (try assumption; lia). apply push_storage; assumption.
Qed.

(** X4. [replace t] on a container in the sorted state: when [t] is stored
    the container is returned as it is, otherwise [t] is inserted in order.
    Either way [t] is stored afterwards, the container stays in the sorted
    state, and a second [replace t] changes nothing. *)
Theorem replace_stores_once (sv : sorted_vector T) (t : T) :
  settled sv -> size sv + 1 <= max_size ->
  exists sv',
    replace sv t = Done sv' /\
    settled sv' /\ In t (_storage sv') /\
    (In t (_storage sv) -> sv' = sv) /\
    (~ In t (_storage sv) -> _storage sv' = std_sort (_storage sv ++ [t])) /\
    replace sv' t = Done sv'.
Proof.
  intros Hs Hmax.
  destruct (replace_cases sv t Hs Hmax) as [[It E]|[Nt E]].
  - exists sv. split; [exact E|].
    split; [exact Hs|]. split; [exact It|]. split; [reflexivity|].
    split; [contradiction|exact E].
  - set (sv' := set_storage sv (std_sort (_storage sv ++ [t]))) in *.
    assert (settled sv') as Hs' by (apply settled_set_storage_sort; apply Hs).
    assert (In t (_storage sv')) as It'.
    { unfold sv'. cbn [_storage set_storage]. apply In_std_sort.
      apply in_or_app. right. simpl. auto. }
    assert (size sv' <= max_size) as Hmax'.
    { unfold sv', size. cbn [_storage set_storage].
      rewrite vsize_std_sort, vsize_app. unfold size, vsize in *. simpl length. lia. }
    exists sv'. split; [exact E|].
    split; [exact Hs'|]. split; [exact It'|]. split; [contradiction|].
    split; [reflexivity|]. apply replace_present; assumption.
Qed.

Lemma NoDup_std_sort (l : list T) : NoDup l -> NoDup (std_sort l).
Proof. intros N. eapply Permutation_NoDup; [apply std_sort_perm|exact N]. Qed.

(** X5. [merge_replace v] on a container in the sorted state behaves as a
    set union: the container stays in the sorted state, afterwards it stores
    exactly the values stored before or listed in [v], and a storage without
    repeated values stays without repeated values. *)
Theorem merge_replace_is_union (v : list T) :
  forall sv : sorted_vector T,
    settled sv -> size sv + vsize v <= max_size ->
    exists sv',
      merge_replace sv v = Done sv' /\
      settled sv' /\
      (forall x, In x (_storage sv') <-> In x (_storage sv) \/ In x v) /\
      (NoDup (_storage sv) -> NoDup (_storage sv')) /\
      size sv' <= size sv + vsize v.
Proof.
  induction v as [|t v IH]; intros sv Hs Hmax.
  - exists sv. split; [reflexivity|]. split; [exact Hs|].
    split; [intros x; simpl; tauto|]. split; [auto|]. unfold vsize. simpl. lia.
  - assert (vsize (t :: v) = vsize v + 1) as Hv by (unfold vsize; simpl length; lia).
    pose proof (vsize_nonneg v) as Hnn.
    assert (exists sv1, replace sv t = Done sv1 /\ settled sv1 /\
              (forall x, In x (_storage sv1) <-> In x (_storage sv) \/ x = t) /\
              (NoDup (_storage sv) -> NoDup (_storage sv1)) /\
              size sv1 <= size sv + 1) as [sv1 [E1 [Hs1 [M1 [N1 Z1]]]]].
    { destruct (replace_cases sv t Hs ltac:(lia)) as [[It E]|[Nt E]].
      - exists sv. split; [exact E|]. split; [exact Hs|]. split; [|split; [auto|lia]].
        intros x. split; [auto|]. intros [I| ->]; assumption.
      - eexists. split; [exact E|].
        split; [apply settled_set_storage_sort; apply Hs|].
        unfold size. cbn [_storage set_storage]. split; [|split].
        + intros x. rewrite In_std_sort, in_app_iff. simpl. intuition congruence.
        + intros N. apply NoDup_std_sort.
          eapply Permutation_NoDup; [apply Permutation_cons_append|].
          constructor; assumption.
        + rewrite vsize_std_sort, vsize_app. unfold vsize. simpl length. lia. }
    destruct (IH sv1 Hs1 ltac:(lia)) as [sv' [E' [Hs' [M' [N' Z']]]]].
    exists sv'. cbn [merge_replace]. rewrite E1. cbn [bind].
    split; [exact E'|]. split; [exact Hs'|]. split; [|split; [auto|lia]].
    intros x. rewrite M', M1. simpl. intuition congruence.
Qed.

(** ** repair on any storage *)

(** X6. [repair()] is idempotent: whenever it returns, the container is
    flagged sorted, and calling it again returns the same container. *)
Theorem repair_idempotent (sv sv1 : sorted_vector T) :
  repair sv = Done sv1 ->
  _is_corrupted sv1 = false /\ repair sv1 = Done sv1.
Proof.
  intros Hr.
  assert (_is_corrupted sv1 = false) as Hc1.
  { destruct (_is_corrupted sv) eqn:Hc.
    - apply (repair_clears sv sv1 Hc Hr).
    - rewrite (repair_not_corrupted sv Hc) in Hr. injection Hr as <-. exact Hc. }
  split; [exact Hc1|apply repair_not_corrupted; exact Hc1].
Qed.

Lemma find_ceil_walk_range (st : list T) (t : T) (l : Z) :
  vsize st <= max_size -> l < vsize st ->
  forall (fuel : nat) (m : Z),
    0 <= m <= l -> Z.of_nat fuel > l - m ->
    exists r, find_ceil_walk fuel st t l m = Done r /\ m <= r <= l.
Proof.
  intros Hmax Hl.
  induction fuel as [|fuel IH]; intros m Hm Hfuel; [lia|].
  simpl. destruct (Z.ltb_spec m l) as [Lt|Ge].
  - rewrite sz_add_small by size_t.
    destruct (rd_ok st (m + 1)) as [x Rx]; [lia|]. rewrite Rx. simpl.
    destruct (x == t); simpl.
    + destruct (IH (m + 1)) as [r [Hr Br]]; [lia|lia|].
      exists r. split; [exact Hr|lia].
    + rewrite sz_sub_small by size_t. exists (m + 1 - 1). split; [reflexivity|lia].
  - exists l. split; [reflexivity|lia].
Qed.

Lemma find_floor_walk_range (st : list T) (t : T) (f : Z) :
  vsize st <= max_size -> 0 <= f ->
  forall (fuel : nat) (m : Z),
    f <= m < vsize st -> Z.of_nat fuel > m - f ->
    exists r, find_floor_walk fuel st t f m = Done r /\ f <= r <= m.
Proof.
  intros Hmax Hf.
  induction fuel as [|fuel IH]; intros m Hm Hfuel; [lia|].
  simpl. destruct (Z.ltb_spec f m) as [Lt|Ge].
  - rewrite sz_sub_small by size_t.
    destruct (rd_ok st (m - 1)) as [x Rx]; [lia|]. rewrite Rx. simpl.
    destruct (x == t); simpl.
    + destruct (IH (m - 1)) as [r [Hr Br]]; [lia|lia|].
      exists r. split; [exact Hr|lia].
    + rewrite sz_add_small by size_t. exists (m - 1 + 1). split; [reflexivity|lia].
  - exists f. split; [reflexivity|lia].
Qed.

(** Three outcomes of comparing with [t] cannot all fail. *)
Lemma not_eq_not_lt_gt (x t : T) :
  (x == t) = false -> (x << t) = false -> (t << x) = true.
Proof.
  intros E L. apply le_neq_lt; [exact L|]. apply eqb_neq in E. congruence.
Qed.

(** The loop of [find_ceil] stays inside [0 .. e] on any storage, ordered or
    not, once the two tests before it have passed. *)
Lemma find_ceil_loop_range (st : list T) (t : T) (e : Z) :
  vsize st <= max_size -> 0 <= e < vsize st ->
  (exists x0, rd st 0 = Done x0 /\ le x0 t) ->
  (exists xe, rd st e = Done xe /\ le t xe) ->
  forall (fuel : nat) (f l : Z),
    0 <= f <= e -> 0 <= l <= e -> f <= l + 1 ->
    Z.of_nat fuel >= l - f + 2 ->
    exists r, find_ceil_loop fuel st t f l ((f + l) / 2) = Done r /\ 0 <= r <= e.
Proof.
  intros Hmax He [x0 [R0 L0]] [xe [Re Le]].
  induction fuel as [|fuel IH]; intros f l Hf Hl Hfl Hfuel; [lia|].
  simpl. destruct (Z.ltb_spec f l) as [Lt|Ge].
  - pose proof (div2_mid_lt f l Lt) as Hm. set (m := (f + l) / 2) in *.
    destruct (rd_ok st m) as [xm Rm]; [lia|]. rewrite Rm. simpl.
    destruct (xm == t) eqn:E.
    + destruct (find_ceil_walk_range st t l Hmax ltac:(lia) (S (length st)) m)
        as [r [Hr Br]]; [lia|unfold vsize in *; lia|].
      exists r. split; [exact Hr|lia].
    + destruct (xm << t) eqn:Lm.
      * rewrite sz_add_small by size_t. rewrite wrap_small by size_t.
        apply IH; lia.
      * assert (0 < m) as Hm0.
        { destruct (Z.eq_dec m 0) as [Em|]; [|lia].
          rewrite Em in Rm. rewrite Rm in R0. injection R0 as <-.
          pose proof (not_eq_not_lt_gt _ _ E Lm) as G. unfold le in L0. congruence. }
        rewrite sz_sub_small by size_t. rewrite wrap_small by size_t.
        apply IH; lia.
  - assert ((f + l) / 2 = l) as ->.
    { assert (f = l \/ f = l + 1) as [->| ->] by lia;
        [apply div2_same|apply div2_adjacent]. }
    destruct (rd_ok st l) as [xl Rl]; [lia|]. rewrite Rl. simpl.
    destruct (xl == t) eqn:E; [exists l; split; [reflexivity|lia]|].
    rewrite gtb_ltb. destruct (t << xl) eqn:G; [exists l; split; [reflexivity|lia]|].
    assert (l < e) as Hle.
    { destruct (Z.eq_dec l e) as [->|]; [|lia].
      rewrite Rl in Re. injection Re as <-.
      assert ((xl << t) = true) as C.
      { apply le_neq_lt; [exact G|]. apply eqb_neq in E. exact E. }
      unfold le in Le. congruence. }
    rewrite sz_add_small by size_t. exists (l + 1). split; [reflexivity|lia].
Qed.

Lemma find_floor_loop_range (st : list T) (t : T) (s e : Z) :
  vsize st <= max_size -> 0 <= s <= e -> e < vsize st ->
  (exists xs, rd st s = Done xs /\ le xs t) ->
  (exists xe, rd st e = Done xe /\ le t xe) ->
  forall (fuel : nat) (f l : Z),
    s <= f <= e -> s <= l <= e -> f <= l + 1 ->
    Z.of_nat fuel >= l - f + 2 ->
    exists r, find_floor_loop fuel st t f l ((l + f) / 2) = Done r /\ s <= r <= e.
Proof.
  intros Hmax Hse He [xs [Rs Ls]] [xe [Re Le]].
  induction fuel as [|fuel IH]; intros f l Hf Hl Hfl Hfuel; [lia|].
  simpl. destruct (Z.ltb_spec f l) as [Lt|Ge].
  - pose proof (div2_mid_lt f l Lt) as Hm. rewrite (Z.add_comm f l) in Hm.
    set (m := (l + f) / 2) in *.
    destruct (rd_ok st m) as [xm Rm]; [lia|]. rewrite Rm. simpl.
    destruct (xm == t) eqn:E.
    + destruct (find_floor_walk_range st t f Hmax ltac:(lia) (S (length st)) m)
        as [r [Hr Br]]; [lia|unfold vsize in *; lia|].
      exists r. split; [exact Hr|lia].
    + destruct (xm << t) eqn:Lm.
      * rewrite sz_add_small by size_t. rewrite wrap_small by size_t.
        apply IH; lia.
      * assert (s < m) as Hm0.
        { destruct (Z.eq_dec m s) as [Em|]; [|lia].
          rewrite Em in Rm. rewrite Rm in Rs. injection Rs as <-.
          pose proof (not_eq_not_lt_gt _ _ E Lm) as G. unfold le in Ls. congruence. }
        rewrite sz_sub_small by size_t. rewrite wrap_small by size_t.
        apply IH; lia.
  - assert ((l + f) / 2 = l) as ->.
    { assert (f = l \/ f = l + 1) as [->| ->] by lia;
        [apply div2_same|rewrite Z.add_comm; apply div2_adjacent]. }
    destruct (rd_ok st l) as [xl Rl]; [lia|]. rewrite Rl. simpl.
    destruct (xl == t) eqn:E; [exists l; split; [reflexivity|lia]|].
    destruct (xl << t) eqn:L; [exists l; split; [reflexivity|lia]|].
    assert (s < l) as Hsl.
    { destruct (Z.eq_dec l s) as [El|]; [|lia].
      rewrite El in Rl. rewrite Rl in Rs. injection Rs as <-.
      pose proof (not_eq_not_lt_gt _ _ E L) as G. unfold le in Ls. congruence. }
    rewrite sz_sub_small by size_t. exists (l - 1). split; [reflexivity|lia].
Qed.

(** [find_ceil] over [0 .. e] returns on any storage, with not-found or a
    position of the range. *)
Lemma find_ceil_range (sv : sorted_vector T) (t : T) (end_pos e : Z) :
  _is_corrupted sv = false -> size sv <= max_size -> 0 <= e < size sv ->
  end_pos = e \/ (end_pos = npos /\ e = size sv - 1) ->
  exists r, find_ceil sv t 0 end_pos = Done r /\
    ((r = npos /\ exists xe, rd (_storage sv) e = Done xe /\ (xe << t) = true)
     \/ 0 <= r <= e).
Proof.
  intros Hc Hmax He Hend.
  unfold find_ceil. rewrite empty_false by lia.
  rewrite (end_pos_resolved sv end_pos e Hmax He Hend). rewrite Hc. simpl.
  unfold size in *.
  destruct (rd_ok (_storage sv) 0) as [x0 R0]; [lia|]. rewrite R0. simpl.
  rewrite gtb_ltb. destruct (t << x0) eqn:G0; [exists 0; split; [reflexivity|right; lia]|].
  destruct (rd_ok (_storage sv) e) as [xe Re]; [lia|]. rewrite Re. simpl.
  destruct (xe << t) eqn:Le.
  - exists npos. split; [reflexivity|]. left. split; [reflexivity|]. exists xe. auto.
  - rewrite wrap_small by size_t.
    destruct (find_ceil_loop_range (_storage sv) t e Hmax He) with
      (fuel := fuel_of sv) (f := 0) (l := e) as [r [Hr Br]];
      try lia; [exists x0; auto|exists xe; auto|unfold fuel_of, vsize in *; lia|].
    exists r. split; [exact Hr|right; exact Br].
Qed.

Lemma find_floor_range (sv : sorted_vector T) (t : T) (s end_pos e : Z) :
  _is_corrupted sv = false -> size sv <= max_size -> 0 <= s <= e -> e < size sv ->
  end_pos = e \/ (end_pos = npos /\ e = size sv - 1) ->
  exists r, find_floor sv t s end_pos = Done r /\
    ((r = npos /\ exists xs, rd (_storage sv) s = Done xs /\ (t << xs) = true)
     \/ s <= r <= e).
Proof.
  intros Hc Hmax Hse He Hend.
  unfold find_floor. rewrite empty_false by lia.
  rewrite (end_pos_resolved sv end_pos e Hmax ltac:(lia) Hend). rewrite Hc. simpl.
  unfold size in *.
  destruct (rd_ok (_storage sv) s) as [xs Rs]; [lia|]. rewrite Rs. simpl.
  rewrite gtb_ltb. destruct (t << xs) eqn:G0.
  - exists npos. split; [reflexivity|]. left. split; [reflexivity|]. exists xs. auto.
  - destruct (rd_ok (_storage sv) e) as [xe Re]; [lia|]. rewrite Re. simpl.
    destruct (xe << t) eqn:Le; [exists e; split; [reflexivity|right; lia]|].
    rewrite wrap_small by size_t. rewrite (Z.add_comm s e).
    destruct (find_floor_loop_range (_storage sv) t s e Hmax Hse He) with
      (fuel := fuel_of sv) (f := s) (l := e) as [r [Hr Br]];
      try lia; [exists xs; auto|exists xe; auto|unfold fuel_of, vsize in *; lia|].
    exists r. split; [exact Hr|right; exact Br].
Qed.

(** The storage is [a ++ v :: b] in any order and position [vsize a] is the
    recorded dirty index: [repair] returns and only moves [v]. *)
Lemma repair_single_total (a b : list T) (v : T) (flag : bool) :
  vsize (a ++ v :: b) <= max_size ->
  exists p,
    0 <= p <= vsize (a ++ b) /\
    repair (mk_sv (a ++ v :: b) (vsize a) true flag)
    = Done (mk_sv (firstn (Z.to_nat p) (a ++ b) ++ v :: skipn (Z.to_nat p) (a ++ b))
                  npos false flag).
Proof.
  intros Hmax.
  set (i := vsize a) in *. set (st := a ++ v :: b) in *. set (l0 := a ++ b) in *.
  assert (vsize st = vsize l0 + 1) as Hsz
    by (unfold st, l0; rewrite !vsize_app; unfold vsize; simpl length; lia).
  assert (0 <= i <= vsize l0) as Hi
    by (unfold i, l0; rewrite vsize_app; unfold vsize; lia).
  assert (rd st i = Done v) as Rmid by apply rd_mid.
  assert (st = firstn (Z.to_nat i) l0 ++ v :: skipn (Z.to_nat i) l0) as Hst.
  { unfold st, i, l0. rewrite to_nat_vsize.
    rewrite firstn_app_left, skipn_app_left. reflexivity. }
  unfold repair, set_is_corrupted.
  cbn [_is_corrupted _last_modified _storage _flag_suspend_autorepair].
  replace (i =? npos) with false by (symmetry; apply Z.eqb_neq; size_t).
  set (sv2 := mk_sv st i false flag).
  assert (size sv2 = vsize l0 + 1) as Hsz2 by exact Hsz.
  assert (exists c1,
    (if 0 <? i then a0 <- rd st i ;; b0 <- rd st (sz_sub i 1) ;; Done (a0 << b0)
     else Done false) = Done c1 /\
    (c1 = true -> 0 < i /\ exists y, rd st (i - 1) = Done y /\ (v << y) = true))
    as [c1 [-> C1t]].
  { destruct (Z.ltb_spec 0 i) as [Pos|Npos].
    - rewrite Rmid. simpl. rewrite sz_sub_small by size_t.
      destruct (rd_ok st (i - 1)) as [y Ry]; [lia|]. rewrite Ry. simpl.
      exists (v << y). split; [reflexivity|].
      intros E. split; [exact Pos|]. exists y. auto.
    - exists false. split; [reflexivity|discriminate]. }
  cbn [bind]. destruct c1.
  - destruct (C1t eq_refl) as [Pos [y [Ry Ly]]]. clear C1t.
    rewrite Rmid. cbn [bind]. rewrite sz_sub_small by size_t.
    destruct (find_ceil_range sv2 v (i - 1) (i - 1)) as [r [Hr Cases]];
      [reflexivity|rewrite Hsz2; lia|rewrite Hsz2; lia|left; reflexivity|].
    rewrite Hr. cbn [bind].
    destruct Cases as [[_ [xe [Re Le]]]|Br].
    { exfalso. cbn [_storage sv2] in Re.
      rewrite Ry in Re. injection Re as <-. apply ltb_asym in Ly. congruence. }
    unfold single_shift_right.
    replace (r =? i) with false by (symmetry; apply Z.eqb_neq; lia).
    replace (i =? npos) with false by (symmetry; apply Z.eqb_neq; size_t).
    cbn [_storage sv2]. rewrite Rmid. cbn [bind].
    unfold st at 1, i at 1. rewrite vec_erase_mid. cbn [bind]. fold l0.
    rewrite vec_insert_ok by lia. cbn [bind set_storage _storage].
    rewrite wr_after_insert by lia. cbn [bind].
    exists r. split; [lia|reflexivity].
  - clear C1t. cbn [_storage sv2]. fold (size sv2). rewrite Hsz2.
    rewrite sz_sub_small by size_t. replace (vsize l0 + 1 - 1) with (vsize l0) by lia.
    assert (exists c2,
      (if i <? vsize l0 then a0 <- rd st i ;; b0 <- rd st (sz_add i 1) ;; Done (a0 >> b0)
       else Done false) = Done c2 /\
      (c2 = true -> i < vsize l0 /\ exists y, rd st (i + 1) = Done y /\ (y << v) = true))
      as [c2 [-> C2t]].
    { destruct (Z.ltb_spec i (vsize l0)) as [Lt|Ge].
      - rewrite Rmid. simpl. rewrite sz_add_small by size_t.
        destruct (rd_ok st (i + 1)) as [y Ry]; [lia|]. rewrite Ry. simpl.
        rewrite gtb_ltb.
        exists (y << v). split; [reflexivity|].
        intros E. split; [exact Lt|]. exists y. auto.
      - exists false. split; [reflexivity|discriminate]. }
    cbn [bind]. destruct c2.
    + destruct (C2t eq_refl) as [Lt [y [Ry Ly]]]. clear C2t.
      rewrite Rmid. cbn [bind]. rewrite sz_add_small by size_t.
      set (e := vsize l0).
      destruct (find_floor_range sv2 v (i + 1) e e) as [r [Hr Cases]];
        [reflexivity|rewrite Hsz2; lia|unfold e; lia|rewrite Hsz2; unfold e; lia
        |left; reflexivity|].
      rewrite Hr. cbn [bind].
      destruct Cases as [[_ [xs [Rs Gs]]]|Br].
      { exfalso. cbn [_storage sv2] in Rs.
        rewrite Ry in Rs. injection Rs as <-. apply ltb_asym in Ly. congruence. }
      unfold single_shift_left.
      replace (i =? r) with false by (symmetry; apply Z.eqb_neq; lia).
      replace (r =? npos) with false by (symmetry; apply Z.eqb_neq; unfold e in *; size_t).
      cbn [_storage sv2]. rewrite Rmid. cbn [bind].
      unfold st at 1, i at 1. rewrite vec_erase_mid. cbn [bind]. fold l0.
      rewrite vec_insert_ok by (unfold e in *; lia). cbn [bind set_storage _storage].
      rewrite wr_after_insert by (unfold e in *; lia). cbn [bind].
      exists r. split; [unfold e in *; lia|reflexivity].
    + exists i. split; [lia|]. cbn [set_last_modified _storage sv2].
      unfold sv2. cbn [_storage _is_corrupted _flag_suspend_autorepair].
      rewrite <- Hst. reflexivity.
Qed.

(** X7. [repair()] on a corrupted container returns whenever the recorded
    dirty index is "unknown" or a position of the vector, whatever the order
    of the storage: it never drops or invents an element (the new storage is
    a permutation of the old one), it flags the container sorted and resets
    the recorded index. *)
Theorem repair_keeps_content (sv : sorted_vector T) :
  size sv <= max_size -> _is_corrupted sv = true ->
  _last_modified sv = npos \/ 0 <= _last_modified sv < size sv ->
  exists sv1,
    repair sv = Done sv1 /\
    Permutation (_storage sv) (_storage sv1) /\
    _is_corrupted sv1 = false /\ _last_modified sv1 = npos /\
    _flag_suspend_autorepair sv1 = _flag_suspend_autorepair sv.
Proof.
  destruct sv as [st lm c flag]. unfold size. cbn [_storage _is_corrupted _last_modified
    _flag_suspend_autorepair]. intros Hmax -> [-> |Hlm].
  - exists (mk_sv (std_sort st) npos false flag).
    split; [reflexivity|]. split; [apply std_sort_perm|]. auto.
  - destruct (rd_ok st lm Hlm) as [x Rx].
    pose proof (split_at _ _ _ Rx) as Est.
    set (a := firstn (Z.to_nat lm) st) in *.
    set (b := skipn (S (Z.to_nat lm)) st) in *.
    assert (vsize a = lm) as Ha by (apply vsize_firstn; lia).
    rewrite Est in Hmax.
    destruct (repair_single_total a b x flag Hmax) as [p [Hp Hr]].
    rewrite Ha, <- Est in Hr.
    eexists. split; [exact Hr|]. cbn [_storage _is_corrupted _last_modified
      _flag_suspend_autorepair].
    split; [|auto].
    rewrite Est at 1. eapply Permutation_trans;
      [apply Permutation_sym, Permutation_middle|apply perm_insert_at].
Qed.

(** X8. A non-const access that writes nothing does not disturb the order:
    on a container in the sorted state, [operator[](pos)] (and so [front()],
    [back()] and a dereferenced iterator) flags the container corrupted with
    [pos] recorded, and the [repair()] that follows gives back the same
    storage, flagged sorted. *)
Theorem access_then_repair_restores (sv : sorted_vector T) (pos : Z) :
  settled sv -> size sv <= max_size -> 0 <= pos < size sv ->
  exists sv1,
    index_mut sv pos = Done sv1 /\
    _is_corrupted sv1 = true /\ _last_modified sv1 = pos /\
    repair sv1
    = Done (mk_sv (_storage sv) npos false (_flag_suspend_autorepair sv)).
Proof.
  intros [Hc HS] Hmax Hp.
  rewrite (index_mut_sorted sv pos Hc Hp).
  eexists. split; [reflexivity|]. split; [reflexivity|]. split; [reflexivity|].
  unfold size in *.
  destruct (rd_ok (_storage sv) pos Hp) as [x Rx].
  pose proof (split_at _ _ _ Rx) as Est.
  set (a := firstn (Z.to_nat pos) (_storage sv)) in *.
  set (b := skipn (S (Z.to_nat pos)) (_storage sv)) in *.
  assert (vsize a = pos) as Ha by (apply vsize_firstn; lia).
  assert (StronglySorted le (a ++ b)) as HS0
    by (apply (SS_remove_middle a b x); rewrite <- Est; exact HS).
  assert (vsize (a ++ x :: b) <= max_size) as Hmax' by (rewrite <- Est; exact Hmax).
  destruct (repair_single a b x (_flag_suspend_autorepair sv) HS0 Hmax')
    as [st2 [Hr [HS2 HP]]].
  rewrite Ha, <- Est in Hr. rewrite Hr. f_equal. f_equal.
  apply SS_perm_unique; [exact HS2|exact HS|].
  apply Permutation_sym. rewrite Est at 1. exact HP.
Qed.

(** ** erase *)

Lemma vec_erase_ok (st : list T) (pos : Z) :
  0 <= pos < vsize st ->
  vec_erase st pos = Done (firstn (Z.to_nat pos) st ++ skipn (S (Z.to_nat pos)) st).
Proof.
  intros Hp. unfold vec_erase.
  replace ((0 <=? pos) && (pos <? vsize st)) with true; [reflexivity|].
  symmetry. apply andb_true_iff. split; [apply Z.leb_le|apply Z.ltb_lt]; lia.
Qed.

(** X9. [erase(pos)] on a container in the sorted state: with [pos] a
    position of the vector it removes exactly the element at [pos], keeps
    the others in their order and the container in the sorted state; with
    [pos] at or past the size it is undefined behaviour of the vector. *)
Theorem erase_keeps_sorted (sv : sorted_vector T) (pos : Z) :
  settled sv ->
  (0 <= pos < size sv ->
   exists x sv',
     rd (_storage sv) pos = Done x /\
     erase sv pos = Done sv' /\
     _storage sv = firstn (Z.to_nat pos) (_storage sv') ++ x
                   :: skipn (Z.to_nat pos) (_storage sv') /\
     settled sv' /\ size sv' = size sv - 1) /\
  (size sv <= pos -> erase sv pos = Undefined).
Proof.
  intros [Hc HS]. unfold erase. rewrite (autorepair_settled sv Hc). cbn [bind]. split.
  - intros Hp. unfold size in *.
    destruct (rd_ok (_storage sv) pos Hp) as [x Rx].
    pose proof (split_at _ _ _ Rx) as Est.
    rewrite vec_erase_ok by exact Hp. cbn [bind].
    set (a := firstn (Z.to_nat pos) (_storage sv)) in *.
    set (b := skipn (S (Z.to_nat pos)) (_storage sv)) in *.
    assert (vsize a = pos) as Ha by (apply vsize_firstn; lia).
    exists x, (set_storage sv (a ++ b)).
    split; [exact Rx|]. split; [reflexivity|]. cbn [_storage set_storage].
    split; [|split; [split; [exact Hc|]|]].
    + rewrite <- Ha, to_nat_vsize, firstn_app_left, skipn_app_left. exact Est.
    + apply (SS_remove_middle a b x). rewrite <- Est. exact HS.
    + rewrite Est at 1. rewrite !vsize_app. unfold vsize. simpl length. lia.
  - intros Hp. unfold vec_erase, size in *.
    replace (pos <? vsize (_storage sv)) with false by (symmetry; apply Z.ltb_ge; lia).
    rewrite andb_false_r. reflexivity.
Qed.

(** X10. [erase(pos_start, pos_end)] on a container in the sorted state
    removes the positions [pos_start .. pos_end], both ends included, keeps
    the remaining elements in their order and the container in the sorted
    state. *)
Theorem erase_range_keeps_sorted (sv : sorted_vector T) (pos_start pos_end : Z) :
  settled sv -> 0 <= pos_start <= pos_end -> pos_end < size sv ->
  exists sv',
    erase_range sv pos_start pos_end = Done sv' /\
    _storage sv' = firstn (Z.to_nat pos_start) (_storage sv)
                   ++ skipn (Z.to_nat (pos_end + 1)) (_storage sv) /\
    settled sv' /\
    size sv' = size sv - (pos_end - pos_start + 1).
Proof.
  intros [Hc HS] Hs He. unfold erase_range. rewrite (autorepair_settled sv Hc).
  cbn [bind]. unfold size in *.
  replace ((0 <=? pos_end) && (pos_end <? vsize (_storage sv))) with true
    by (symmetry; apply andb_true_iff; split; [apply Z.leb_le|apply Z.ltb_lt]; lia).
  unfold vec_erase_range.
  replace ((0 <=? pos_start) && (pos_start <=? pos_end + 1)
           && (pos_end + 1 <=? vsize (_storage sv))) with true
    by (symmetry; rewrite !andb_true_iff; repeat split; apply Z.leb_le; lia).
  cbn [bind]. eexists. split; [reflexivity|]. cbn [_storage set_storage].
  split; [reflexivity|]. split; [split; [exact Hc|]|].
  - apply SS_app; [apply SS_firstn; exact HS|apply SS_skipn; exact HS|].
    intros x y Ix Iy.
    apply In_firstn_rd in Ix; [|lia]. destruct Ix as [i [Bi Ri]].
    apply In_skipn_rd in Iy; [|lia]. destruct Iy as [j [Bj Rj]].
    apply (SS_rd (_storage sv) i j); [exact HS|lia|exact Ri|exact Rj].
  - rewrite vsize_app, vsize_firstn, vsize_skipn by lia. lia.
Qed.

(** ** front and back *)

(** X11. The const [front()] and [back()] of an empty container index the
    empty vector.  On a non-empty container in the sorted state they return
    the least and the greatest stored element. *)
Theorem front_back_are_extremes (sv : sorted_vector T) :
  (_storage sv = [] -> front_const sv = Undefined /\ back_const sv = Undefined) /\
  (settled sv -> 0 < size sv <= max_size ->
   exists lo hi,
     front_const sv = Done lo /\ back_const sv = Done hi /\
     forall x, In x (_storage sv) -> le lo x /\ le x hi).
Proof.
  unfold front_const, back_const, index_const. split.
  - intros E. rewrite E. split; apply rd_nil.
  - intros [Hc HS] Hsz. unfold size in *.
    rewrite sz_sub_small by size_t.
    destruct (rd_ok (_storage sv) 0) as [lo Rlo]; [lia|].
    destruct (rd_ok (_storage sv) (vsize (_storage sv) - 1)) as [hi Rhi]; [lia|].
    exists lo, hi. split; [exact Rlo|]. split; [exact Rhi|].
    intros x Ix. apply In_rd in Ix. destruct Ix as [j Rj].
    pose proof (rd_bounds _ _ _ Rj) as Bj. split.
    + apply (SS_rd (_storage sv) 0 j); [exact HS|lia|exact Rlo|exact Rj].
    + apply (SS_rd (_storage sv) j (vsize (_storage sv) - 1));
        [exact HS|lia|exact Rj|exact Rhi].
Qed.

(** ** Binary search over a range *)

Lemma find_loop_complete_range (st : list T) (t : T) (s e : Z) :
  vsize st <= max_size -> 0 <= s -> e < vsize st -> sorted_range st s e ->
  forall (fuel : nat) (f l : Z),
    s <= f -> l <= e -> f <= l + 1 ->
    all_lt st s f t -> all_gt st l e t ->
    Z.of_nat fuel >= l - f + 2 ->
    find_loop fuel st t f l ((l + f) / 2) = Done npos ->
    forall j x, s <= j <= e -> rd st j = Done x -> x <> t.
Proof.
  intros Hmax Hs He HS.
  assert (forall x, (x << t) = true -> x <> t) as Lne
    by (intros x L ->; rewrite ltb_irrefl in L; discriminate).
  assert (forall x, (t << x) = true -> x <> t) as Gne
    by (intros x L ->; rewrite ltb_irrefl in L; discriminate).
  induction fuel as [|fuel IH]; intros f l Hf Hl Hfl Hlt Hgt Hfuel; [lia|].
  simpl. destruct (Z.leb_spec f l) as [Le|Gt].
  - pose proof (div2_mid f l Le) as Hm. rewrite (Z.add_comm f l) in Hm.
    set (m := (l + f) / 2) in *.
    destruct (rd_ok st m) as [xm Rm]; [lia|]. rewrite Rm. simpl.
    destruct (xm == t) eqn:Em; [intros [= E]; size_t|].
    destruct (rd_ok st f) as [xf Rf]; [lia|]. rewrite Rf. simpl.
    destruct (xf == t) eqn:Ef; [intros [= E]; size_t|].
    destruct (rd_ok st l) as [xl Rl]; [lia|]. rewrite Rl. simpl.
    destruct (xl == t) eqn:El; [intros [= E]; size_t|].
    destruct (xm << t) eqn:Lm.
    + rewrite sz_add_small by size_t. rewrite wrap_small by size_t.
      apply IH; try lia; try assumption.
      intros j y Hj Rj. eapply le_lt_trans; [|exact Lm].
      apply (HS j m); try assumption; lia.
    + pose proof (not_eq_not_lt_gt _ _ Em Lm) as Gm.
      destruct (Z.eqb_spec m 0) as [M0|M0].
      * intros _ j y Hj Rj. apply Gne.
        eapply lt_le_trans; [exact Gm|].
        apply (HS m j); try assumption; lia.
      * rewrite sz_sub_small by size_t. rewrite wrap_small by size_t.
        apply IH; try lia; try assumption.
        intros j y Hj Rj.
        destruct (Z.le_gt_cases j l) as [Hjl|Hjl].
        -- eapply lt_le_trans; [exact Gm|].
           apply (HS m j); try assumption; lia.
        -- apply (Hgt j); [lia|exact Rj].
  - intros _ j y Hj Rj.
    destruct (Z.lt_ge_cases j f) as [Hjf|Hjf].
    + apply Lne. apply (Hlt j); [lia|exact Rj].
    + apply Gne. apply (Hgt j); [lia|exact Rj].
Qed.

(** [find] over a range of a container in the sorted state. *)
Lemma find_range_spec (sv : sorted_vector T) (t : T) (s e : Z) :
  _is_corrupted sv = false -> size sv <= max_size -> ascending (_storage sv) ->
  0 <= s <= e -> e < size sv ->
  exists r, find sv t s e = Done r /\
    ((s <= r <= e /\ rd (_storage sv) r = Done t) \/
     (r = npos /\ forall j x, s <= j <= e -> rd (_storage sv) j = Done x -> x <> t)).
Proof.
  intros Hc Hmax HA Hs He. unfold find.
  rewrite empty_false by lia. rewrite Hc. cbn [negb].
  replace (e =? npos) with false by (symmetry; apply Z.eqb_neq; size_t).
  unfold size in *. rewrite wrap_small by size_t. rewrite (Z.add_comm s e).
  destruct (find_loop_sound (_storage sv) t Hmax (fuel_of sv) s e) as [r [Hr Cr]];
    try lia. { unfold fuel_of, vsize in *. lia. }
  exists r. split; [exact Hr|].
  destruct Cr as [->|Cr]; [right; split; [reflexivity|]|left; exact Cr].
  apply (find_loop_complete_range (_storage sv) t s e Hmax ltac:(lia) He
           (ascending_sorted_range _ s e HA) (fuel_of sv) s e); try lia.
  - intros k y Hk. lia.
  - intros k y Hk. lia.
  - unfold fuel_of, vsize in *. lia.
  - exact Hr.
Qed.

(** X12. In the sorted state [find] over any range [start_pos <= end_pos <
    size] returns: not-found exactly when no position of the range,
    [end_pos] included, holds [t], and otherwise a position of the range
    holding [t]. *)
Theorem find_in_range (sv : sorted_vector T) (t : T) (s e : Z) :
  _is_corrupted sv = false -> size sv <= max_size -> ascending (_storage sv) ->
  0 <= s <= e -> e < size sv ->
  exists r, find sv t s e = Done r /\
    (r = npos <->
     forall j x, s <= j <= e -> rd (_storage sv) j = Done x -> x <> t) /\
    (r <> npos -> s <= r <= e /\ rd (_storage sv) r = Done t).
Proof.
  intros Hc Hmax HA Hs He.
  destruct (find_range_spec sv t s e Hc Hmax HA Hs He) as [r [Hr Cr]].
  exists r. split; [exact Hr|].
  destruct Cr as [[Br Rr]|[-> Hnone]].
  - assert (r <> npos) as Nr by size_t. split.
    + split; [congruence|]. intros Hnone. exfalso.
      apply (Hnone r t Br Rr). reflexivity.
    + intros _. split; [exact Br|exact Rr].
  - split; [split; [intros _; exact Hnone|reflexivity]|congruence].
Qed.

(** ** First and last occurrence, away from the ends of the vector *)

Lemma find_first_walk_spec (st : list T) (t : T) (s : Z) :
  vsize st <= max_size -> 0 < s ->
  forall (fuel : nat) (pos : Z) (prev : option Z),
    s <= pos < vsize st -> rd st pos = Done t ->
    Z.of_nat fuel >= pos - s + 2 ->
    exists r, find_first_walk fuel st t s pos prev = Done r /\
      s <= r <= pos /\
      (forall j, r <= j <= pos -> rd st j = Done t) /\
      (r = s \/ exists y, rd st (r - 1) = Done y /\ y <> t).
Proof.
  intros Hmax Hs.
  induction fuel as [|fuel IH]; intros pos prev Hp Rp Hfuel; [lia|].
  cbn [find_first_walk]. rewrite Rp. cbn [bind]. rewrite eqb_refl.
  replace (s <=? pos) with true by (symmetry; apply Z.leb_le; lia).
  cbn [andb]. rewrite sz_sub_small by size_t.
  destruct (rd_ok st (pos - 1)) as [y Ry]; [lia|].
  destruct (Z.leb_spec s (pos - 1)) as [Hin|Hout];
    [destruct (t == y) eqn:E|].
  - apply eqb_eq in E. subst y.
    destruct (IH (pos - 1) (Some pos)) as [r [Hr [Br [Hall Hb]]]]; [lia|exact Ry|lia|].
    exists r. split; [exact Hr|]. split; [lia|]. split; [|exact Hb].
    intros j Hj. destruct (Z.eq_dec j pos) as [->|]; [exact Rp|apply Hall; lia].
  - destruct fuel as [|fuel]; [lia|].
    cbn [find_first_walk]. rewrite Ry. cbn [bind]. rewrite E. cbn [andb].
    exists pos. split; [reflexivity|]. split; [lia|]. split.
    + intros j Hj. replace j with pos by lia. exact Rp.
    + right. exists y. split; [exact Ry|]. intros ->. rewrite eqb_refl in E. discriminate.
  - destruct fuel as [|fuel]; [lia|].
    cbn [find_first_walk]. rewrite Ry. cbn [bind].
    replace (s <=? pos - 1) with false by (symmetry; apply Z.leb_gt; lia).
    rewrite andb_false_r.
    exists pos. split; [reflexivity|]. split; [lia|]. split.
    + intros j Hj. replace j with pos by lia. exact Rp.
    + left. lia.
Qed.

(** X13. In the sorted state, [find_first] over a range that does not start
    at position 0 ([0 < start_pos <= end_pos < size]) returns the smallest
    position of the range holding [t], or not-found when no position of the
    range holds [t]. *)
Theorem find_first_in_range (sv : sorted_vector T) (t : T) (s e : Z) :
  _is_corrupted sv = false -> size sv <= max_size -> ascending (_storage sv) ->
  0 < s <= e -> e < size sv ->
  exists r, find_first sv t s e = Done r /\
    ((s <= r <= e /\ rd (_storage sv) r = Done t /\
      forall j x, s <= j < r -> rd (_storage sv) j = Done x -> x <> t) \/
     (r = npos /\ forall j x, s <= j <= e -> rd (_storage sv) j = Done x -> x <> t)).
Proof.
  intros Hc Hmax HA Hs He. unfold find_first.
  rewrite empty_false by lia.
  replace (e =? npos) with false by (symmetry; apply Z.eqb_neq; size_t).
  rewrite Hc. cbn [negb].
  destruct (find_range_spec sv t s e Hc Hmax HA ltac:(lia) He) as [p [Hp Cp]].
  rewrite Hp. cbn [bind].
  destruct Cp as [[Bp Rp]|[-> Hnone]].
  - replace (p =? npos) with false by (symmetry; apply Z.eqb_neq; size_t).
    unfold size in *.
    destruct (find_first_walk_spec (_storage sv) t s Hmax ltac:(lia)
                (fuel_of sv) p None) as [r [Hr [Br [Hall Hb]]]];
      [lia|exact Rp|unfold fuel_of, vsize in *; lia|].
    exists r. split; [exact Hr|]. left. split; [lia|].
    split; [apply Hall; lia|].
    intros j x Hj Rj ->.
    destruct Hb as [->|[y [Ry Ny]]]; [lia|].
    pose proof (ascending_sorted_range _ 0 e HA) as HS.
    assert (le t y) as L1 by (apply (HS j (r - 1)); try assumption; lia).
    assert (le y t) as L2 by (apply (HS (r - 1) r); try lia; [exact Ry|apply Hall; lia]).
    apply Ny. apply le_antisym; assumption.
  - rewrite Z.eqb_refl. exists npos. split; [reflexivity|]. right. auto.
Qed.

Lemma find_last_walk_spec (st : list T) (t : T) (e : Z) :
  vsize st <= max_size -> e + 1 < vsize st ->
  forall (fuel : nat) (pos : Z) (prev : option Z),
    0 <= pos <= e -> rd st pos = Done t ->
    Z.of_nat fuel >= e - pos + 2 ->
    exists r, find_last_walk fuel st t e pos prev = Done r /\
      pos <= r <= e /\
      (forall j, pos <= j <= r -> rd st j = Done t) /\
      (r = e \/ exists y, rd st (r + 1) = Done y /\ y <> t).
Proof.
  intros Hmax He.
  induction fuel as [|fuel IH]; intros pos prev Hp Rp Hfuel; [lia|].
  cbn [find_last_walk]. rewrite Rp. cbn [bind]. rewrite eqb_refl.
  replace (pos <=? e) with true by (symmetry; apply Z.leb_le; lia).
  cbn [andb]. rewrite sz_add_small by size_t.
  destruct (rd_ok st (pos + 1)) as [y Ry]; [lia|].
  destruct (Z.leb_spec (pos + 1) e) as [Hin|Hout];
    [destruct (t == y) eqn:E|].
  - apply eqb_eq in E. subst y.
    destruct (IH (pos + 1) (Some pos)) as [r [Hr [Br [Hall Hb]]]]; [lia|exact Ry|lia|].
    exists r. split; [exact Hr|]. split; [lia|]. split; [|exact Hb].
    intros j Hj. destruct (Z.eq_dec j pos) as [->|]; [exact Rp|apply Hall; lia].
  - destruct fuel as [|fuel]; [lia|].
    cbn [find_last_walk]. rewrite Ry. cbn [bind]. rewrite E. cbn [andb].
    exists pos. split; [reflexivity|]. split; [lia|]. split.
    + intros j Hj. replace j with pos by lia. exact Rp.
    + right. exists y. split; [exact Ry|]. intros ->. rewrite eqb_refl in E. discriminate.
  - destruct fuel as [|fuel]; [lia|].
    cbn [find_last_walk]. rewrite Ry. cbn [bind].
    replace (pos + 1 <=? e) with false by (symmetry; apply Z.leb_gt; lia).
    rewrite andb_false_r.
    exists pos. split; [reflexivity|]. split; [lia|]. split.
    + intros j Hj. replace j with pos by lia. exact Rp.
    + left. lia.
Qed.

(** X14. In the sorted state, [find_last] over a range that ends before the
    last position ([start_pos <= end_pos] and [end_pos + 1 < size]) returns
    the largest position of the range holding [t], or not-found when no
    position of the range holds [t]. *)
Theorem find_last_in_range (sv : sorted_vector T) (t : T) (s e : Z) :
  _is_corrupted sv = false -> size sv <= max_size -> ascending (_storage sv) ->
  0 <= s <= e -> e + 1 < size sv ->
  exists r, find_last sv t s e = Done r /\
    ((s <= r <= e /\ rd (_storage sv) r = Done t /\
      forall j x, r < j <= e -> rd (_storage sv) j = Done x -> x <> t) \/
     (r = npos /\ forall j x, s <= j <= e -> rd (_storage sv) j = Done x -> x <> t)).
Proof.
  intros Hc Hmax HA Hs He. unfold find_last.
  replace (e =? npos) with false by (symmetry; apply Z.eqb_neq; size_t).
  rewrite Hc. cbn [negb].
  destruct (find_range_spec sv t s e Hc Hmax HA Hs ltac:(lia)) as [p [Hp Cp]].
  rewrite Hp. cbn [bind].
  destruct Cp as [[Bp Rp]|[-> Hnone]].
  - replace (p =? npos) with false by (symmetry; apply Z.eqb_neq; size_t).
    unfold size in *.
    destruct (find_last_walk_spec (_storage sv) t e Hmax He
                (fuel_of sv) p None) as [r [Hr [Br [Hall Hb]]]];
      [lia|exact Rp|unfold fuel_of, vsize in *; lia|].
    exists r. split; [exact Hr|]. left. split; [lia|].
    split; [apply Hall; lia|].
    intros j x Hj Rj ->.
    destruct Hb as [->|[y [Ry Ny]]]; [lia|].
    pose proof (ascending_sorted_range _ 0 (e + 1) HA) as HS.
    assert (le y t) as L1 by (apply (HS (r + 1) j); try assumption; lia).
    assert (le t y) as L2 by (apply (HS r (r + 1)); try lia; [apply Hall; lia|exact Ry]).
    apply Ny. apply le_antisym; assumption.
  - rewrite Z.eqb_refl. exists npos. split; [reflexivity|]. right. auto.
Qed.

(** ** The linear searches *)

Lemma find_linear_loop_first (st : list T) (t : T) (e : Z) :
  vsize st <= max_size -> e < vsize st ->
  forall (fuel : nat) (s : Z),
    0 <= s <= e -> Z.of_nat fuel >= e - s + 1 ->
    exists r, find_linear_loop fuel st t s e = Done r /\
      ((s <= r < e /\ rd st r = Done t /\
        forall j x, s <= j < r -> rd st j = Done x -> x <> t) \/
       (r = npos /\ forall j x, s <= j < e -> rd st j = Done x -> x <> t)).
Proof.
  intros Hmax He.
  induction fuel as [|fuel IH]; intros s Hs Hfuel; [lia|].
  simpl. destruct (Z.eqb_spec s e) as [->|Ne]; simpl.
  - exists npos. split; [reflexivity|]. right. split; [reflexivity|]. intros; lia.
  - destruct (rd_ok st s) as [x Rx]; [lia|]. rewrite Rx. simpl.
    rewrite sz_add_small by size_t.
    destruct (x == t) eqn:E.
    + apply eqb_eq in E. subst x. rewrite sz_sub_small by size_t.
      replace (s + 1 - 1) with s by lia.
      exists s. split; [reflexivity|]. left. split; [lia|]. split; [exact Rx|].
      intros; lia.
    + assert (forall j y, j = s -> rd st j = Done y -> y <> t) as Hs0.
      { intros j y -> Rj. rewrite Rx in Rj. injection Rj as <-. apply eqb_neq. exact E. }
      destruct (IH (s + 1)) as [r [Hr Cr]]; [lia|lia|].
      exists r. split; [exact Hr|].
      destruct Cr as [[Br [Rr Hbefore]]|[-> Hall]].
      * left. split; [lia|]. split; [exact Rr|]. intros j y Hj Rj.
        destruct (Z.eq_dec j s) as [Ej|Nj]; [apply (Hs0 j y Ej Rj)|apply (Hbefore j); [lia|exact Rj]].
      * right. split; [reflexivity|]. intros j y Hj Rj.
        destruct (Z.eq_dec j s) as [Ej|Nj]; [apply (Hs0 j y Ej Rj)|apply (Hall j); [lia|exact Rj]].
Qed.

Lemma find_linear_last_loop_last (st : list T) (t : T) (s : Z) :
  vsize st <= max_size -> 0 <= s ->
  forall (fuel : nat) (e : Z),
    s <= e < vsize st -> Z.of_nat fuel >= e - s + 1 ->
    exists r, find_linear_last_loop fuel st t s e = Done r /\
      ((s < r <= e /\ rd st r = Done t /\
        forall j x, r < j <= e -> rd st j = Done x -> x <> t) \/
       (r = npos /\ forall j x, s < j <= e -> rd st j = Done x -> x <> t)).
Proof.
  intros Hmax Hs.
  induction fuel as [|fuel IH]; intros e He Hfuel; [lia|].
  simpl. destruct (Z.eqb_spec s e) as [->|Ne]; simpl.
  - exists npos. split; [reflexivity|]. right. split; [reflexivity|]. intros; lia.
  - destruct (rd_ok st e) as [x Rx]; [lia|]. rewrite Rx. simpl.
    rewrite sz_sub_small by size_t.
    destruct (x == t) eqn:E.
    + apply eqb_eq in E. subst x. rewrite sz_add_small by size_t.
      replace (e - 1 + 1) with e by lia.
      exists e. split; [reflexivity|]. left. split; [lia|]. split; [exact Rx|].
      intros; lia.
    + assert (forall j y, j = e -> rd st j = Done y -> y <> t) as He0.
      { intros j y -> Rj. rewrite Rx in Rj. injection Rj as <-. apply eqb_neq. exact E. }
      destruct (IH (e - 1)) as [r [Hr Cr]]; [lia|lia|].
      exists r. split; [exact Hr|].
      destruct Cr as [[Br [Rr Hafter]]|[-> Hall]].
      * left. split; [lia|]. split; [exact Rr|]. intros j y Hj Rj.
        destruct (Z.eq_dec j e) as [Ej|Nj]; [apply (He0 j y Ej Rj)|apply (Hafter j); [lia|exact Rj]].
      * right. split; [reflexivity|]. intros j y Hj Rj.
        destruct (Z.eq_dec j e) as [Ej|Nj]; [apply (He0 j y Ej Rj)|apply (Hall j); [lia|exact Rj]].
Qed.

(** X15. Whatever the state of the container, over a range
    [start_pos <= end_pos < size] the linear searches scan half-open ranges:
    [find_linear] and [find_linear_first] return the smallest position in
    [[start_pos, end_pos)] holding [t], and [find_linear_last] returns the
    largest position in [(start_pos, end_pos]] holding [t]; each returns
    not-found when its half-open range holds no [t]. *)
Theorem linear_searches_scan_half_open (sv : sorted_vector T) (t : T) (s e : Z) :
  size sv <= max_size -> 0 <= s <= e -> e < size sv ->
  (exists r,
     find_linear sv t s e = Done r /\ find_linear_first sv t s e = Done r /\
     ((s <= r < e /\ rd (_storage sv) r = Done t /\
       forall j x, s <= j < r -> rd (_storage sv) j = Done x -> x <> t) \/
      (r = npos /\ forall j x, s <= j < e -> rd (_storage sv) j = Done x -> x <> t)))
  /\
  (exists r,
     find_linear_last sv t s e = Done r /\
     ((s < r <= e /\ rd (_storage sv) r = Done t /\
       forall j x, r < j <= e -> rd (_storage sv) j = Done x -> x <> t) \/
      (r = npos /\ forall j x, s < j <= e -> rd (_storage sv) j = Done x -> x <> t))).
Proof.
  intros Hmax Hs He.
  assert ((e =? npos) = false) as Hnp by (apply Z.eqb_neq; size_t).
  assert ((size sv =? 0) = false) as Hnz by (apply Z.eqb_neq; lia).
  assert ((e <? s) = false) as Hlt by (apply Z.ltb_ge; lia).
  unfold find_linear, find_linear_first, find_linear_last.
  rewrite Hnz. cbv zeta. rewrite Hnp, Hlt, Hnp. unfold size in *. split.
  - destruct (find_linear_loop_first (_storage sv) t e Hmax He (fuel_of sv) s)
      as [r [Hr Cr]]; [lia|unfold fuel_of, vsize in *; lia|].
    exists r. auto.
  - destruct (find_linear_last_loop_last (_storage sv) t s Hmax ltac:(lia) (fuel_of sv) e)
      as [r [Hr Cr]]; [lia|unfold fuel_of, vsize in *; lia|].
    exists r. auto.
Qed.

(** ** What repair moves, and the two searches it relies on *)

(** X18. With a position of the vector recorded as the dirty index,
    [repair()] moves the element at that position and nothing else: the new
    storage is the old one with that element taken out and put back at some
    position, so the other elements keep their relative order, whether they
    were in order or not. *)
Theorem repair_moves_only_tracked (sv : sorted_vector T) :
  size sv <= max_size -> _is_corrupted sv = true ->
  0 <= _last_modified sv < size sv ->
  exists x p sv1,
    rd (_storage sv) (_last_modified sv) = Done x /\
    repair sv = Done sv1 /\
    0 <= p < size sv /\
    _storage sv1
    = firstn (Z.to_nat p)
        (firstn (Z.to_nat (_last_modified sv)) (_storage sv)
         ++ skipn (S (Z.to_nat (_last_modified sv))) (_storage sv))
      ++ x :: skipn (Z.to_nat p)
                (firstn (Z.to_nat (_last_modified sv)) (_storage sv)
                 ++ skipn (S (Z.to_nat (_last_modified sv))) (_storage sv)).
Proof.
  destruct sv as [st lm c flag]. unfold size. cbn [_storage _is_corrupted _last_modified].
  intros Hmax -> Hlm.
  destruct (rd_ok st lm Hlm) as [x Rx].
  pose proof (split_at _ _ _ Rx) as Est.
  set (a := firstn (Z.to_nat lm) st) in *.
  set (b := skipn (S (Z.to_nat lm)) st) in *.
  assert (vsize a = lm) as Ha by (apply vsize_firstn; lia).
  assert (vsize st = vsize (a ++ b) + 1) as Hsz
    by (rewrite Est at 1; rewrite !vsize_app; unfold vsize; simpl length; lia).
  rewrite Est in Hmax.
  destruct (repair_single_total a b x flag Hmax) as [p [Hp Hr]].
  rewrite Ha, <- Est in Hr.
  exists x, p. eexists. split; [exact Rx|]. split; [exact Hr|].
  split; [lia|reflexivity].
Qed.

(** X19. In the sorted state [find_floor] over a range
    [start_pos <= end_pos < size] is not-found exactly when the first
    element of the range is greater than [t]; otherwise it returns a
    position of the range that splits it: the element there is [<= t],
    every element of the range before it is [< t] and every element of the
    range after it is [>= t]. *)
Theorem find_floor_in_range (sv : sorted_vector T) (t : T) (s e : Z) :
  _is_corrupted sv = false -> size sv <= max_size -> ascending (_storage sv) ->
  0 <= s <= e -> e < size sv ->
  exists r xs,
    find_floor sv t s e = Done r /\ rd (_storage sv) s = Done xs /\
    (r = npos <-> (t << xs) = true) /\
    (r <> npos ->
     s <= r <= e /\
     exists x, rd (_storage sv) r = Done x /\ le x t /\
       (forall j y, s <= j < r -> rd (_storage sv) j = Done y -> (y << t) = true) /\
       (forall j y, r < j <= e -> rd (_storage sv) j = Done y -> le t y)).
Proof.
  intros Hc Hmax HA Hs He.
  pose proof (ascending_sorted_range (_storage sv) s e HA) as HS.
  destruct (find_floor_spec sv t s e e Hc Hmax Hs He (or_introl eq_refl) HS)
    as [r [Hr Cases]].
  destruct (rd_ok (_storage sv) s) as [xs Rs]; [unfold size in *; lia|].
  exists r, xs. split; [exact Hr|]. split; [exact Rs|].
  destruct Cases as [[-> [xs' [Rs' Gs]]]|[Br [x [Rx Cx]]]].
  - rewrite Rs in Rs'. injection Rs' as <-.
    split; [tauto|congruence].
  - assert (r <> npos) as Nr by size_t.
    assert (le xs x) as Lsx by (apply (HS s r); try assumption; lia).
    assert (le x t) as Lxt
      by (destruct Cx as [[-> _]|[Lx _]]; [apply le_refl|apply lt_le; exact Lx]).
    split.
    + split; [congruence|]. intros G. exfalso.
      pose proof (le_trans _ _ _ Lsx Lxt) as C. unfold le in C. congruence.
    + intros _. split; [exact Br|]. exists x. split; [exact Rx|]. split; [exact Lxt|].
      destruct Cx as [[-> Lt]|[Lx Gt]].
      * split; [exact Lt|]. intros j y Hj Rj. apply (HS r j); try assumption; lia.
      * split.
        -- intros j y Hj Rj. eapply le_lt_trans; [|exact Lx].
           apply (HS j r); try assumption; lia.
        -- intros j y Hj Rj. apply lt_le. apply (Gt j); [lia|exact Rj].
Qed.

(** X20. In the sorted state [find_ceil] over a range starting at position
    0 ([0 <= end_pos < size]) is not-found exactly when the last element of
    the range is less than [t]; otherwise it returns a position of the range
    that splits it: the element there is [>= t], every element before it is
    [<= t] and every element of the range after it is [> t]. *)
Theorem find_ceil_in_prefix (sv : sorted_vector T) (t : T) (e : Z) :
  _is_corrupted sv = false -> size sv <= max_size -> ascending (_storage sv) ->
  0 <= e < size sv ->
  exists r xe,
    find_ceil sv t 0 e = Done r /\ rd (_storage sv) e = Done xe /\
    (r = npos <-> (xe << t) = true) /\
    (r <> npos ->
     0 <= r <= e /\
     exists x, rd (_storage sv) r = Done x /\ le t x /\
       (forall j y, 0 <= j < r -> rd (_storage sv) j = Done y -> le y t) /\
       (forall j y, r < j <= e -> rd (_storage sv) j = Done y -> (t << y) = true)).
Proof.
  intros Hc Hmax HA He.
  pose proof (ascending_sorted_range (_storage sv) 0 e HA) as HS.
  destruct (find_ceil_spec sv t e e Hc Hmax He (or_introl eq_refl) HS)
    as [r [Hr Cases]].
  destruct (rd_ok (_storage sv) e) as [xe Re]; [unfold size in *; lia|].
  exists r, xe. split; [exact Hr|]. split; [exact Re|].
  destruct Cases as [[-> [xe' [Re' Le]]]|[Br [x [Rx Cx]]]].
  - rewrite Re in Re'. injection Re' as <-.
    split; [tauto|congruence].
  - assert (r <> npos) as Nr by size_t.
    assert (le x xe) as Lxe by (apply (HS r e); try assumption; lia).
    assert (le t x) as Ltx
      by (destruct Cx as [[-> _]|[Gx _]]; [apply le_refl|apply lt_le; exact Gx]).
    split.
    + split; [congruence|]. intros G. exfalso.
      pose proof (le_trans _ _ _ Ltx Lxe) as C. unfold le in C. congruence.
    + intros _. split; [exact Br|]. exists x. split; [exact Rx|]. split; [exact Ltx|].
      destruct Cx as [[-> Gt]|[Gx Lt]].
      * split; [|exact Gt]. intros j y Hj Rj. apply (HS j r); try assumption; lia.
      * split.
        -- intros j y Hj Rj. apply lt_le. apply (Lt j); [lia|exact Rj].
        -- intros j y Hj Rj. eapply lt_le_trans; [exact Gx|].
           apply (HS r j); try assumption; lia.
Qed.


End Laws.

(** * sorted_vector_with_key *)

Section KeyedLaws.

Context {T Key : Type} `{ElemLaws Key} (key_of : T -> Key).

Lemma rd_map (st : list T) (i : Z) :
  rd (map key_of st) i
  = match rd st i with
    | Done x => Done (key_of x)
    | OutOfRange => OutOfRange
    | Undefined => Undefined
    | OutOfFuel => OutOfFuel
    end.
Proof.
  unfold rd, vsize. rewrite length_map.
  destruct ((0 <=? i) && (i <? Z.of_nat (length st))); [|reflexivity].
  rewrite nth_error_map. destruct (nth_error st (Z.to_nat i)); reflexivity.
Qed.

Lemma find_loop_with_key_map (st : list T) (key : Key) :
  forall (fuel : nat) (f l m : Z),
    find_loop_with_key key_of fuel st key f l m
    = find_loop fuel (map key_of st) key f l m.
Proof.
  induction fuel as [|fuel IH]; intros f l m; [reflexivity|].
  cbn [find_loop_with_key find_loop]. destruct (f <=? l); [|reflexivity].
  rewrite !rd_map.
  destruct (rd st m) as [xm| | |]; cbn [bind]; try reflexivity.
  destruct (key_of xm == key); [reflexivity|].
  destruct (rd st f) as [xf| | |]; cbn [bind]; try reflexivity.
  destruct (key_of xf == key); [reflexivity|].
  destruct (rd st l) as [xl| | |]; cbn [bind]; try reflexivity.
  destruct (key_of xl == key); [reflexivity|].
  destruct (key_of xm << key); [apply IH|].
  destruct (m =? 0); [reflexivity|apply IH].
Qed.

Lemma find_linear_loop_with_key_map (st : list T) (key : Key) (e : Z) :
  forall (fuel : nat) (s : Z),
    find_linear_loop_with_key key_of fuel st key s e
    = find_linear_loop fuel (map key_of st) key s e.
Proof.
  induction fuel as [|fuel IH]; intros s; [reflexivity|].
  cbn [find_linear_loop_with_key find_linear_loop].
  destruct (negb (s =? e)); [|reflexivity].
  rewrite rd_map. destruct (rd st s) as [x| | |]; cbn [bind]; try reflexivity.
  destruct (key_of x == key); [reflexivity|apply IH].
Qed.

Lemma size_keys_of (sv : sorted_vector T) : size (keys_of key_of sv) = size sv.
Proof. unfold size, keys_of, vsize. cbn [_storage]. rewrite length_map. reflexivity. Qed.

(** In the sorted state the keyed [find] is the loop of [find] on the keys. *)
Lemma find_with_key_sorted_eq (sv : sorted_vector T) (key : Key)
  (start_pos end_pos : Z) :
  _is_corrupted sv = false ->
  find_with_key key_of sv key start_pos end_pos
  = find (keys_of key_of sv) key start_pos end_pos.
Proof.
  intros Hc. unfold find_with_key, find.
  assert (empty (keys_of key_of sv) = (size sv =? 0)) as ->.
  { unfold empty, keys_of, size, vsize. cbn [_storage].
    destruct (_storage sv); reflexivity. }
  destruct (size sv =? 0); [reflexivity|].
  unfold corrupted. change (_is_corrupted (keys_of key_of sv)) with (_is_corrupted sv).
  rewrite Hc. cbn [negb].
  rewrite size_keys_of. unfold fuel_of, keys_of. cbn [_storage]. rewrite length_map.
  apply find_loop_with_key_map.
Qed.

(** X16. The searches of [sorted_vector_with_key] are the searches of the
    base class run on the keys: for every container, key and range,
    [find(key)] and [find_linear(key)] return what [find] and [find_linear]
    return on the container that stores the keys of the elements, in the
    same state. *)
Theorem keyed_search_is_search_on_keys (sv : sorted_vector T) (key : Key)
  (start_pos end_pos : Z) :
  find_with_key key_of sv key start_pos end_pos
  = find (keys_of key_of sv) key start_pos end_pos /\
  find_linear_with_key key_of sv key start_pos end_pos
  = find_linear (keys_of key_of sv) key start_pos end_pos.
Proof.
  assert (find_linear_with_key key_of sv key start_pos end_pos
          = find_linear (keys_of key_of sv) key start_pos end_pos) as HL.
  { unfold find_linear_with_key, find_linear. rewrite size_keys_of.
    destruct (size sv =? 0); [reflexivity|]. cbv zeta.
    destruct (_ <? start_pos); [reflexivity|].
    unfold fuel_of, keys_of. cbn [_storage]. rewrite length_map.
    apply find_linear_loop_with_key_map. }
  split; [|exact HL].
  unfold find_with_key, find. rewrite HL.
  assert (empty (keys_of key_of sv) = (size sv =? 0)) as ->.
  { unfold empty, keys_of, size, vsize. cbn [_storage].
    destruct (_storage sv); reflexivity. }
  destruct (size sv =? 0); [reflexivity|].
  unfold corrupted. change (_is_corrupted (keys_of key_of sv)) with (_is_corrupted sv).
  destruct (negb (_is_corrupted sv)); [|reflexivity].
  rewrite size_keys_of. unfold fuel_of, keys_of. cbn [_storage]. rewrite length_map.
  apply find_loop_with_key_map.
Qed.

(** X17. When the container is in the sorted state and its elements are
    stored in ascending order of their keys, [find(key)] of
    [sorted_vector_with_key] over the default range returns a position whose
    element has that key when some element has it, and not-found otherwise. *)
Theorem keyed_find_in_sorted_state (sv : sorted_vector T) (key : Key) :
  _is_corrupted sv = false -> size sv <= max_size ->
  ascending (map key_of (_storage sv)) ->
  exists r, find_with_key key_of sv key 0 npos = Done r /\
    ((0 <= r < size sv /\
      exists x, rd (_storage sv) r = Done x /\ key_of x = key) \/
     (r = npos /\ forall x, In x (_storage sv) -> key_of x <> key)).
Proof.
  intros Hc Hmax HA.
  rewrite (find_with_key_sorted_eq sv key 0 npos Hc).
  destruct (find_sorted_state (keys_of key_of sv) key Hc
              ltac:(rewrite size_keys_of; exact Hmax) HA) as [r [Hr Cr]].
  exists r. split; [exact Hr|].
  destruct Cr as [[Br Rr]|[-> Nin]].
  - left. rewrite size_keys_of in Br. split; [exact Br|].
    unfold keys_of in Rr. cbn [_storage] in Rr. rewrite rd_map in Rr.
    destruct (rd (_storage sv) r) as [x| | |]; try discriminate.
    injection Rr as Rr. exists x. auto.
  - right. split; [reflexivity|]. intros x Ix E. apply Nin.
    unfold keys_of. cbn [_storage]. rewrite <- E. apply in_map. exact Ix.
Qed.

End KeyedLaws.

(** * Concrete containers of integers *)

(** ** C1: [find] on a dirty container *)

(** C1 (code defect). After one non-const [operator[]] the container
    [{1, 2}] is dirty with a single tracked index, position 1 holds [2], and
    [find(2)] answers not-found: the linear fallback stops before [end_pos].
    The same happens in the unknown-dirty state left by
    [suspend_autorepair()]. *)
Theorem find_dirty_misses_last_element :
  (exists sv : sorted_vector Z,
     index_mut (sv_of_vector [1; 2]) 0 = Done sv /\
     _is_corrupted sv = true /\ _last_modified sv = 0 /\
     rd (_storage sv) 1 = Done 2 /\
     ref_find (_storage sv) 2 = Some 1 /\
     find sv 2 0 npos = Done npos)
  /\
  (_is_corrupted (suspend_autorepair (sv_of_vector [1; 2])) = true /\
   _last_modified (suspend_autorepair (sv_of_vector [1; 2])) = npos /\
   rd (_storage (suspend_autorepair (sv_of_vector [1; 2]))) 1 = Done 2 /\
   ref_find (_storage (suspend_autorepair (sv_of_vector [1; 2]))) 2 = Some 1 /\
   find (suspend_autorepair (sv_of_vector [1; 2])) 2 0 npos = Done npos).
Proof.
  split.
  - eexists. split; [reflexivity|]. repeat split; reflexivity.
  - repeat split; reflexivity.
Qed.

(** ** C2: floor, ceiling and last occurrence on a corrupted container *)

(** C2 (code defect). [{1, 2, 3}] flagged corrupted by
    [suspend_autorepair()]: a linear scan finds the floor and the ceiling of
    [2] at position 1, yet [find_floor(2)] and [find_ceil(2)] answer
    not-found without scanning, where the sibling searches fall back to a
    linear search.  [find_last(3, 0, 1)] drops its range on the way to
    [find_linear_last] and answers position 2, outside [0 .. 1], although no
    position of the range holds [3]. *)
Theorem find_floor_ceil_corrupted_not_found :
  _is_corrupted (suspend_autorepair (sv_of_vector [1; 2; 3])) = true /\
  ref_floor (_storage (suspend_autorepair (sv_of_vector [1; 2; 3]))) 2 = Some 1 /\
  find_floor (suspend_autorepair (sv_of_vector [1; 2; 3])) 2 0 npos = Done npos /\
  ref_ceil (_storage (suspend_autorepair (sv_of_vector [1; 2; 3]))) 2 = Some 1 /\
  find_ceil (suspend_autorepair (sv_of_vector [1; 2; 3])) 2 0 npos = Done npos /\
  rd (_storage (suspend_autorepair (sv_of_vector [1; 2; 3]))) 0 = Done 1 /\
  rd (_storage (suspend_autorepair (sv_of_vector [1; 2; 3]))) 1 = Done 2 /\
  find_last (suspend_autorepair (sv_of_vector [1; 2; 3])) 3 0 1 = Done 2.
Proof. repeat split; reflexivity. Qed.

(** ** C6: the linear searches *)

(** C6 (code defect). With [start_pos = 0 <= end_pos = 1 < size], position
    [end_pos] of [{1, 2}] holds [2], yet [find_linear] and
    [find_linear_first] answer not-found: their loop runs while
    [start_pos != end_pos] and never reads [_storage[end_pos]].
    [find_linear_last] misses [_storage[start_pos]] the same way. *)
Theorem find_linear_skips_end_pos :
  rd (_storage (sv_of_vector [1; 2])) 1 = Done 2 /\
  find_linear (sv_of_vector [1; 2]) 2 0 1 = Done npos /\
  find_linear_first (sv_of_vector [1; 2]) 2 0 1 = Done npos /\
  rd (_storage (sv_of_vector [1; 2])) 0 = Done 1 /\
  find_linear_last (sv_of_vector [1; 2]) 1 0 1 = Done npos.
Proof. repeat split; reflexivity. Qed.

(** ** C9: searches on the empty container *)

(** C9 (code defect). On the default-constructed container [find_next(0)]
    and [find_prev(1)] do not return not-found: they index the empty
    storage. *)
Theorem find_next_prev_on_empty_read_storage :
  find_next (@sv_empty Z) 0 npos = Undefined /\
  find_prev (@sv_empty Z) 1 0 = Undefined.
Proof. split; reflexivity. Qed.

(** ** C10: the equal-run walks *)

(** C10 (code defect). On the sorted one-element container [{5}] with the
    valid range [0 .. 0], the walk of [find_first] steps from position 0 to
    [(size_t)-1] and reads there, and the walk of [find_last] reads position
    [size] (lemmas [find_first_walk_below_zero], [find_last_walk_past_end]). *)
Theorem find_first_last_walk_out_of_bounds :
  _is_corrupted (sv_of_vector [5]) = false /\ size (sv_of_vector [5]) = 1 /\
  find (sv_of_vector [5]) 5 0 0 = Done 0 /\
  find_first (sv_of_vector [5]) 5 0 0 = Undefined /\
  find_last (sv_of_vector [5]) 5 0 0 = Undefined.
Proof. repeat split; reflexivity. Qed.

(** ** C3, C7: what the code does instead *)

(** C3 (counterexample). In the sorted container [{2, 2}], [find_floor(2)]
    is position 0, which is not the largest position holding a value [<= 2],
    and [find_ceil(2)] is position 1, which is not the smallest position
    holding a value [>= 2]. *)
Lemma find_floor_ceil_equal_run :
  _is_corrupted (sv_of_vector [2; 2]) = false /\
  find_floor (sv_of_vector [2; 2]) 2 0 npos = Done 0 /\
  ~ is_largest_le (_storage (sv_of_vector [2; 2])) 2 0 /\
  find_ceil (sv_of_vector [2; 2]) 2 0 npos = Done 1 /\
  ~ is_smallest_ge (_storage (sv_of_vector [2; 2])) 2 1.
Proof.
  split; [reflexivity|]. split; [reflexivity|]. split; [|split; [reflexivity|]].
  - intros [_ Hmax]. specialize (Hmax 1 2 eq_refl eq_refl). lia.
  - intros [_ Hmin]. specialize (Hmin 0 2 eq_refl eq_refl). lia.
Qed.

(** C7 (counterexample). Non-const [at(1)] on the sorted container
    [{1, 3, 5}] returns with the container unchanged and not flagged
    corrupted.  And [operator[](2)] on a container already dirty at index 0
    (autorepair active) repairs first and then records index 2, not
    "unknown". *)
Lemma at_mut_does_not_mark :
  _is_corrupted (sv_of_vector [1; 3; 5]) = false /\
  at_mut (sv_of_vector [1; 3; 5]) 1 = Done (sv_of_vector [1; 3; 5]) /\
  (exists sv1 sv2,
     index_mut (sv_of_vector [1; 3; 5]) 0 = Done sv1 /\
     _is_corrupted sv1 = true /\ _last_modified sv1 = 0 /\
     index_mut sv1 2 = Done sv2 /\
     _is_corrupted sv2 = true /\ _last_modified sv2 = 2 /\ 2 <> npos).
Proof.
  split; [reflexivity|]. split; [reflexivity|].
  eexists. eexists. split; [reflexivity|]. split; [reflexivity|].
  split; [reflexivity|]. split; [reflexivity|]. split; [reflexivity|].
  split; [reflexivity|]. discriminate.
Qed.

(** ** The theorems at concrete containers *)

Lemma find_floor_ceil_boundaries_witness :
  _is_corrupted (sv_of_vector [1; 2; 2; 3]) = false /\
  size (sv_of_vector [1; 2; 2; 3]) <= max_size /\
  ascending (_storage (sv_of_vector [1; 2; 2; 3])) /\
  floor_boundary (sv_of_vector [1; 2; 2; 3]) 2 /\
  ceil_boundary (sv_of_vector [1; 2; 2; 3]) 2.
Proof.
  assert (ascending (_storage (sv_of_vector [1; 2; 2; 3]))) as HA
    by (apply SS_ascending; repeat constructor).
  assert (size (sv_of_vector [1; 2; 2; 3]) <= max_size) as Hmax
    by (vm_compute; discriminate).
  split; [reflexivity|]. split; [exact Hmax|]. split; [exact HA|].
  apply (find_floor_ceil_boundaries (sv_of_vector [1; 2; 2; 3]) 2 eq_refl Hmax HA).
Defined.

Lemma repair_after_single_mutation_witness :
  _is_corrupted (sv_of_vector [1; 3; 5; 7; 9]) = false /\
  ascending (_storage (sv_of_vector [1; 3; 5; 7; 9])) /\
  size (sv_of_vector [1; 3; 5; 7; 9]) <= max_size /\
  0 <= 2 < size (sv_of_vector [1; 3; 5; 7; 9]) /\
  mutation_then_repair_sorts (sv_of_vector [1; 3; 5; 7; 9]) 2 20 2 /\
  mutation_then_repair_sorts (suspend_autorepair (sv_of_vector [1; 3; 5; 7; 9])) 2 20 npos.
Proof.
  assert (ascending (_storage (sv_of_vector [1; 3; 5; 7; 9]))) as HA
    by (apply SS_ascending; repeat constructor).
  assert (size (sv_of_vector [1; 3; 5; 7; 9]) <= max_size) as Hmax
    by (vm_compute; discriminate).
  assert (0 <= 2 < size (sv_of_vector [1; 3; 5; 7; 9])) as Hi
    by (split; vm_compute; [discriminate|reflexivity]).
  split; [reflexivity|]. split; [exact HA|]. split; [exact Hmax|]. split; [exact Hi|].
  apply (repair_after_single_mutation (sv_of_vector [1; 3; 5; 7; 9]) 2 20 eq_refl HA Hmax Hi).
Defined.

Lemma sorted_after_repair_witness :
  (sv_of_vector [3; 1] = sv_empty \/ sv_of_vector [3; 1] = sv_of_vector [3; 1]) /\
  size (sv_of_vector [3; 1]) + total_growth [Push 2; Replace 3; Merge [5; 0]] <= max_size /\
  exists sv1 sv2,
    run [Push 2; Replace 3; Merge [5; 0]] (sv_of_vector [3; 1]) = Done sv1 /\
    repair sv1 = Done sv2 /\
    ascending (_storage sv2) /\ _is_corrupted sv2 = false.
Proof.
  assert (size (sv_of_vector [3; 1]) + total_growth [Push 2; Replace 3; Merge [5; 0]]
          <= max_size) as Hmax by (vm_compute; discriminate).
  split; [right; reflexivity|]. split; [exact Hmax|].
  apply (sorted_after_repair [3; 1] [Push 2; Replace 3; Merge [5; 0]]
           (sv_of_vector [3; 1]) (or_intror eq_refl) Hmax).
Defined.

Lemma index_mut_marks_witness :
  index_mut (sv_of_vector [1; 3; 5]) 1 = Done (mk_sv [1; 3; 5] 1 true false) /\
  index_mut (suspend_autorepair (sv_of_vector [1; 3; 5])) 1
  = Done (mk_sv [1; 3; 5] npos true true) /\
  index_mut (mk_sv [1; 9; 5] 1 true false) 0 = Done (mk_sv [1; 5; 9] 0 true false).
Proof.
  assert (forall l : list Z, 0 <= 1 < vsize (3 :: 5 :: l)) as R1
    by (intros l; unfold vsize; simpl length; lia).
  assert (forall l : list Z, 0 <= 0 < vsize (1 :: l)) as R0
    by (intros l; unfold vsize; simpl length; lia).
  split; [|split].
  - exact (proj1 (index_mut_marks (sv_of_vector [1; 3; 5]) 1) eq_refl (R1 [5])).
  - exact (proj1 (proj2 (index_mut_marks (suspend_autorepair (sv_of_vector [1; 3; 5])) 1))
             eq_refl eq_refl (R1 [5])).
  - exact (proj1 (proj2 (proj2 (index_mut_marks (mk_sv [1; 9; 5] 1 true false) 0)))
             (mk_sv [1; 5; 9] npos false false) eq_refl eq_refl eq_refl (R0 [5; 9])).
Defined.

Lemma find_floor_succ_is_find_ceil_witness :
  _is_corrupted (sv_of_vector [1; 3]) = false /\
  size (sv_of_vector [1; 3]) <= max_size /\
  ascending (_storage (sv_of_vector [1; 3])) /\
  ~ In 2 (_storage (sv_of_vector [1; 3])) /\
  exists rf rc,
    find_floor (sv_of_vector [1; 3]) 2 0 npos = Done rf /\
    find_ceil (sv_of_vector [1; 3]) 2 0 npos = Done rc /\
    (rf <> npos -> rc <> npos -> sz_add rf 1 = rc).
Proof.
  assert (ascending (_storage (sv_of_vector [1; 3]))) as HA
    by (apply SS_ascending; repeat constructor).
  assert (size (sv_of_vector [1; 3]) <= max_size) as Hmax
    by (vm_compute; discriminate).
  assert (~ In 2 (_storage (sv_of_vector [1; 3]))) as Nt
    by (intros [E|[E|[]]]; discriminate E).
  split; [reflexivity|]. split; [exact Hmax|]. split; [exact HA|]. split; [exact Nt|].
  apply (find_floor_succ_is_find_ceil (sv_of_vector [1; 3]) 2 eq_refl Hmax HA Nt).
Defined.

(** ** Further theorems at concrete containers *)

Ltac bounds := repeat split; vm_compute; first [discriminate | reflexivity].

Lemma push_then_find_witness :
  settled (sv_of_vector [1; 3; 5]) /\
  size (sv_of_vector [1; 3; 5]) + 1 <= max_size /\
  exists sv' r,
    push (sv_of_vector [1; 3; 5]) 4 = Done sv' /\
    _storage sv' = std_sort (_storage (sv_of_vector [1; 3; 5]) ++ [4]) /\
    _is_corrupted sv' = false /\
    find sv' 4 0 npos = Done r /\
    rd (_storage sv') r = Done 4.
Proof.
  assert (size (sv_of_vector [1; 3; 5]) + 1 <= max_size) as Hmax by bounds.
  split; [apply sv_of_vector_settled|]. split; [exact Hmax|].
  apply (push_then_find (sv_of_vector [1; 3; 5]) 4 (sv_of_vector_settled [1; 3; 5]) Hmax).
Defined.

Lemma push_each_agrees_with_merge_witness :
  settled (sv_of_vector [1; 5]) /\
  size (sv_of_vector [1; 5]) + vsize [4; 2] <= max_size /\
  exists sv1 sv2,
    push_each (sv_of_vector [1; 5]) [4; 2] = Done sv1 /\
    merge (sv_of_vector [1; 5]) [4; 2] = Done sv2 /\
    _storage sv1 = std_sort (_storage (sv_of_vector [1; 5]) ++ [4; 2]) /\
    _storage sv2 = _storage sv1 /\
    _is_corrupted sv1 = false /\ _is_corrupted sv2 = false.
Proof.
  assert (size (sv_of_vector [1; 5]) + vsize [4; 2] <= max_size) as Hmax by bounds.
  split; [apply sv_of_vector_settled|]. split; [exact Hmax|].
  apply (push_each_agrees_with_merge (sv_of_vector [1; 5]) [4; 2]
           (sv_of_vector_settled [1; 5]) Hmax).
Defined.

Lemma replace_stores_once_witness :
  settled (sv_of_vector [1; 3]) /\
  size (sv_of_vector [1; 3]) + 1 <= max_size /\
  exists sv',
    replace (sv_of_vector [1; 3]) 2 = Done sv' /\
    settled sv' /\ In 2 (_storage sv') /\
    (In 2 (_storage (sv_of_vector [1; 3])) -> sv' = sv_of_vector [1; 3]) /\
    (~ In 2 (_storage (sv_of_vector [1; 3])) ->
     _storage sv' = std_sort (_storage (sv_of_vector [1; 3]) ++ [2])) /\
    replace sv' 2 = Done sv'.
Proof.
  assert (size (sv_of_vector [1; 3]) + 1 <= max_size) as Hmax by bounds.
  split; [apply sv_of_vector_settled|]. split; [exact Hmax|].
  apply (replace_stores_once (sv_of_vector [1; 3]) 2 (sv_of_vector_settled [1; 3]) Hmax).
Defined.

Lemma merge_replace_is_union_witness :
  settled (sv_of_vector [1; 3]) /\
  size (sv_of_vector [1; 3]) + vsize [3; 2] <= max_size /\
  exists sv',
    merge_replace (sv_of_vector [1; 3]) [3; 2] = Done sv' /\
    settled sv' /\
    (forall x, In x (_storage sv') <->
               In x (_storage (sv_of_vector [1; 3])) \/ In x [3; 2]) /\
    (NoDup (_storage (sv_of_vector [1; 3])) -> NoDup (_storage sv')) /\
    size sv' <= size (sv_of_vector [1; 3]) + vsize [3; 2].
Proof.
  assert (size (sv_of_vector [1; 3]) + vsize [3; 2] <= max_size) as Hmax by bounds.
  split; [apply sv_of_vector_settled|]. split; [exact Hmax|].
  apply (merge_replace_is_union [3; 2] (sv_of_vector [1; 3])
           (sv_of_vector_settled [1; 3]) Hmax).
Defined.

Lemma repair_idempotent_witness :
  repair (mk_sv [3; 1; 2] npos true false) = Done (mk_sv [1; 2; 3] npos false false) /\
  _is_corrupted (mk_sv [1; 2; 3] npos false false) = false /\
  repair (mk_sv [1; 2; 3] npos false false) = Done (mk_sv [1; 2; 3] npos false false).
Proof.
  assert (repair (mk_sv [3; 1; 2] npos true false)
          = Done (mk_sv [1; 2; 3] npos false false)) as Hr by reflexivity.
  split; [exact Hr|].
  apply (repair_idempotent (mk_sv [3; 1; 2] npos true false)
           (mk_sv [1; 2; 3] npos false false) Hr).
Defined.

Lemma repair_keeps_content_witness :
  size (mk_sv [5; 1; 9; 2] 1 true false) <= max_size /\
  _is_corrupted (mk_sv [5; 1; 9; 2] 1 true false) = true /\
  (_last_modified (mk_sv [5; 1; 9; 2] 1 true false) = npos \/
   0 <= _last_modified (mk_sv [5; 1; 9; 2] 1 true false)
     < size (mk_sv [5; 1; 9; 2] 1 true false)) /\
  exists sv1,
    repair (mk_sv [5; 1; 9; 2] 1 true false) = Done sv1 /\
    Permutation (_storage (mk_sv [5; 1; 9; 2] 1 true false)) (_storage sv1) /\
    _is_corrupted sv1 = false /\ _last_modified sv1 = npos /\
    _flag_suspend_autorepair sv1
    = _flag_suspend_autorepair (mk_sv [5; 1; 9; 2] 1 true false).
Proof.
  assert (size (mk_sv [5; 1; 9; 2] 1 true false) <= max_size) as Hmax by bounds.
  assert (0 <= _last_modified (mk_sv [5; 1; 9; 2] 1 true false)
            < size (mk_sv [5; 1; 9; 2] 1 true false)) as Hlm by bounds.
  split; [exact Hmax|]. split; [reflexivity|]. split; [right; exact Hlm|].
  apply (repair_keeps_content (mk_sv [5; 1; 9; 2] 1 true false) Hmax eq_refl
           (or_intror Hlm)).
Defined.

Lemma access_then_repair_restores_witness :
  settled (sv_of_vector [1; 3; 5]) /\
  size (sv_of_vector [1; 3; 5]) <= max_size /\
  0 <= 1 < size (sv_of_vector [1; 3; 5]) /\
  exists sv1,
    index_mut (sv_of_vector [1; 3; 5]) 1 = Done sv1 /\
    _is_corrupted sv1 = true /\ _last_modified sv1 = 1 /\
    repair sv1
    = Done (mk_sv (_storage (sv_of_vector [1; 3; 5])) npos false
                  (_flag_suspend_autorepair (sv_of_vector [1; 3; 5]))).
Proof.
  assert (size (sv_of_vector [1; 3; 5]) <= max_size) as Hmax by bounds.
  assert (0 <= 1 < size (sv_of_vector [1; 3; 5])) as Hp by bounds.
  split; [apply sv_of_vector_settled|]. split; [exact Hmax|]. split; [exact Hp|].
  apply (access_then_repair_restores (sv_of_vector [1; 3; 5]) 1
           (sv_of_vector_settled [1; 3; 5]) Hmax Hp).
Defined.

Lemma erase_keeps_sorted_witness :
  settled (sv_of_vector [1; 3; 5]) /\
  0 <= 1 < size (sv_of_vector [1; 3; 5]) /\
  size (sv_of_vector [1; 3; 5]) <= 3 /\
  (exists x sv',
     rd (_storage (sv_of_vector [1; 3; 5])) 1 = Done x /\
     erase (sv_of_vector [1; 3; 5]) 1 = Done sv' /\
     _storage (sv_of_vector [1; 3; 5])
     = firstn (Z.to_nat 1) (_storage sv') ++ x :: skipn (Z.to_nat 1) (_storage sv') /\
     settled sv' /\ size sv' = size (sv_of_vector [1; 3; 5]) - 1) /\
  erase (sv_of_vector [1; 3; 5]) 3 = Undefined.
Proof.
  assert (0 <= 1 < size (sv_of_vector [1; 3; 5])) as Hp by bounds.
  assert (size (sv_of_vector [1; 3; 5]) <= 3) as Hq by bounds.
  split; [apply sv_of_vector_settled|]. split; [exact Hp|]. split; [exact Hq|]. split.
  - apply (proj1 (erase_keeps_sorted (sv_of_vector [1; 3; 5]) 1
                    (sv_of_vector_settled [1; 3; 5])) Hp).
  - apply (proj2 (erase_keeps_sorted (sv_of_vector [1; 3; 5]) 3
                    (sv_of_vector_settled [1; 3; 5])) Hq).
Defined.

Lemma erase_range_keeps_sorted_witness :
  settled (sv_of_vector [1; 2; 3; 4; 5]) /\
  0 <= 1 <= 3 /\ 3 < size (sv_of_vector [1; 2; 3; 4; 5]) /\
  exists sv',
    erase_range (sv_of_vector [1; 2; 3; 4; 5]) 1 3 = Done sv' /\
    _storage sv' = firstn (Z.to_nat 1) (_storage (sv_of_vector [1; 2; 3; 4; 5]))
                   ++ skipn (Z.to_nat (3 + 1)) (_storage (sv_of_vector [1; 2; 3; 4; 5])) /\
    settled sv' /\
    size sv' = size (sv_of_vector [1; 2; 3; 4; 5]) - (3 - 1 + 1).
Proof.
  assert (0 <= 1 <= 3) as Hs by bounds.
  assert (3 < size (sv_of_vector [1; 2; 3; 4; 5])) as He by bounds.
  split; [apply sv_of_vector_settled|]. split; [exact Hs|]. split; [exact He|].
  apply (erase_range_keeps_sorted (sv_of_vector [1; 2; 3; 4; 5]) 1 3
           (sv_of_vector_settled [1; 2; 3; 4; 5]) Hs He).
Defined.

Lemma front_back_are_extremes_witness :
  settled (sv_of_vector [2; 7; 4]) /\
  0 < size (sv_of_vector [2; 7; 4]) <= max_size /\
  (exists lo hi,
     front_const (sv_of_vector [2; 7; 4]) = Done lo /\
     back_const (sv_of_vector [2; 7; 4]) = Done hi /\
     forall x, In x (_storage (sv_of_vector [2; 7; 4])) -> le lo x /\ le x hi) /\
  front_const (@sv_empty Z) = Undefined /\ back_const (@sv_empty Z) = Undefined.
Proof.
  assert (0 < size (sv_of_vector [2; 7; 4]) <= max_size) as Hsz by bounds.
  split; [apply sv_of_vector_settled|]. split; [exact Hsz|]. split.
  - apply (proj2 (front_back_are_extremes (sv_of_vector [2; 7; 4]))
             (sv_of_vector_settled [2; 7; 4]) Hsz).
  - apply (proj1 (front_back_are_extremes (@sv_empty Z)) eq_refl).
Defined.

Lemma find_in_range_witness :
  _is_corrupted (sv_of_vector [1; 3; 5; 7]) = false /\
  size (sv_of_vector [1; 3; 5; 7]) <= max_size /\
  ascending (_storage (sv_of_vector [1; 3; 5; 7])) /\
  0 <= 1 <= 3 /\ 3 < size (sv_of_vector [1; 3; 5; 7]) /\
  exists r, find (sv_of_vector [1; 3; 5; 7]) 7 1 3 = Done r /\
    (r = npos <->
     forall j x, 1 <= j <= 3 ->
       rd (_storage (sv_of_vector [1; 3; 5; 7])) j = Done x -> x <> 7) /\
    (r <> npos -> 1 <= r <= 3 /\ rd (_storage (sv_of_vector [1; 3; 5; 7])) r = Done 7).
Proof.
  assert (size (sv_of_vector [1; 3; 5; 7]) <= max_size) as Hmax by bounds.
  assert (ascending (_storage (sv_of_vector [1; 3; 5; 7]))) as HA
    by (apply SS_ascending; repeat constructor).
  assert (0 <= 1 <= 3) as Hs by bounds.
  assert (3 < size (sv_of_vector [1; 3; 5; 7])) as He by bounds.
  split; [reflexivity|]. split; [exact Hmax|]. split; [exact HA|].
  split; [exact Hs|]. split; [exact He|].
  apply (find_in_range (sv_of_vector [1; 3; 5; 7]) 7 1 3 eq_refl Hmax HA Hs He).
Defined.

Lemma find_first_in_range_witness :
  _is_corrupted (sv_of_vector [1; 5; 5; 7]) = false /\
  size (sv_of_vector [1; 5; 5; 7]) <= max_size /\
  ascending (_storage (sv_of_vector [1; 5; 5; 7])) /\
  0 < 1 <= 3 /\ 3 < size (sv_of_vector [1; 5; 5; 7]) /\
  exists r, find_first (sv_of_vector [1; 5; 5; 7]) 5 1 3 = Done r /\
    ((1 <= r <= 3 /\ rd (_storage (sv_of_vector [1; 5; 5; 7])) r = Done 5 /\
      forall j x, 1 <= j < r ->
        rd (_storage (sv_of_vector [1; 5; 5; 7])) j = Done x -> x <> 5) \/
     (r = npos /\ forall j x, 1 <= j <= 3 ->
        rd (_storage (sv_of_vector [1; 5; 5; 7])) j = Done x -> x <> 5)).
Proof.
  assert (size (sv_of_vector [1; 5; 5; 7]) <= max_size) as Hmax by bounds.
  assert (ascending (_storage (sv_of_vector [1; 5; 5; 7]))) as HA
    by (apply SS_ascending; repeat constructor).
  assert (0 < 1 <= 3) as Hs by bounds.
  assert (3 < size (sv_of_vector [1; 5; 5; 7])) as He by bounds.
  split; [reflexivity|]. split; [exact Hmax|]. split; [exact HA|].
  split; [exact Hs|]. split; [exact He|].
  apply (find_first_in_range (sv_of_vector [1; 5; 5; 7]) 5 1 3 eq_refl Hmax HA Hs He).
Defined.

Lemma find_last_in_range_witness :
  _is_corrupted (sv_of_vector [1; 5; 5; 7]) = false /\
  size (sv_of_vector [1; 5; 5; 7]) <= max_size /\
  ascending (_storage (sv_of_vector [1; 5; 5; 7])) /\
  0 <= 0 <= 2 /\ 2 + 1 < size (sv_of_vector [1; 5; 5; 7]) /\
  exists r, find_last (sv_of_vector [1; 5; 5; 7]) 5 0 2 = Done r /\
    ((0 <= r <= 2 /\ rd (_storage (sv_of_vector [1; 5; 5; 7])) r = Done 5 /\
      forall j x, r < j <= 2 ->
        rd (_storage (sv_of_vector [1; 5; 5; 7])) j = Done x -> x <> 5) \/
     (r = npos /\ forall j x, 0 <= j <= 2 ->
        rd (_storage (sv_of_vector [1; 5; 5; 7])) j = Done x -> x <> 5)).
Proof.
  assert (size (sv_of_vector [1; 5; 5; 7]) <= max_size) as Hmax by bounds.
  assert (ascending (_storage (sv_of_vector [1; 5; 5; 7]))) as HA
    by (apply SS_ascending; repeat constructor).
  assert (0 <= 0 <= 2) as Hs by bounds.
  assert (2 + 1 < size (sv_of_vector [1; 5; 5; 7])) as He by bounds.
  split; [reflexivity|]. split; [exact Hmax|]. split; [exact HA|].
  split; [exact Hs|]. split; [exact He|].
  apply (find_last_in_range (sv_of_vector [1; 5; 5; 7]) 5 0 2 eq_refl Hmax HA Hs He).
Defined.

Lemma linear_searches_scan_half_open_witness :
  size (sv_of_vector [1; 2; 2; 3]) <= max_size /\
  0 <= 0 <= 3 /\ 3 < size (sv_of_vector [1; 2; 2; 3]) /\
  (exists r,
     find_linear (sv_of_vector [1; 2; 2; 3]) 2 0 3 = Done r /\
     find_linear_first (sv_of_vector [1; 2; 2; 3]) 2 0 3 = Done r /\
     ((0 <= r < 3 /\ rd (_storage (sv_of_vector [1; 2; 2; 3])) r = Done 2 /\
       forall j x, 0 <= j < r ->
         rd (_storage (sv_of_vector [1; 2; 2; 3])) j = Done x -> x <> 2) \/
      (r = npos /\ forall j x, 0 <= j < 3 ->
         rd (_storage (sv_of_vector [1; 2; 2; 3])) j = Done x -> x <> 2)))
  /\
  (exists r,
     find_linear_last (sv_of_vector [1; 2; 2; 3]) 2 0 3 = Done r /\
     ((0 < r <= 3 /\ rd (_storage (sv_of_vector [1; 2; 2; 3])) r = Done 2 /\
       forall j x, r < j <= 3 ->
         rd (_storage (sv_of_vector [1; 2; 2; 3])) j = Done x -> x <> 2) \/
      (r = npos /\ forall j x, 0 < j <= 3 ->
         rd (_storage (sv_of_vector [1; 2; 2; 3])) j = Done x -> x <> 2))).
Proof.
  assert (size (sv_of_vector [1; 2; 2; 3]) <= max_size) as Hmax by bounds.
  assert (0 <= 0 <= 3) as Hs by bounds.
  assert (3 < size (sv_of_vector [1; 2; 2; 3])) as He by bounds.
  split; [exact Hmax|]. split; [exact Hs|]. split; [exact He|].
  apply (linear_searches_scan_half_open (sv_of_vector [1; 2; 2; 3]) 2 0 3 Hmax Hs He).
Defined.

Lemma keyed_find_in_sorted_state_witness :
  _is_corrupted (mk_sv [(1, 10); (3, 30); (5, 50)] npos false false) = false /\
  size (mk_sv [(1, 10); (3, 30); (5, 50)] npos false false) <= max_size /\
  ascending (map fst (_storage (mk_sv [(1, 10); (3, 30); (5, 50)] npos false false))) /\
  exists r,
    find_with_key fst (mk_sv [(1, 10); (3, 30); (5, 50)] npos false false) 3 0 npos
    = Done r /\
    ((0 <= r < size (mk_sv [(1, 10); (3, 30); (5, 50)] npos false false) /\
      exists x, rd (_storage (mk_sv [(1, 10); (3, 30); (5, 50)] npos false false)) r
                = Done x /\ fst x = 3) \/
     (r = npos /\
      forall x, In x (_storage (mk_sv [(1, 10); (3, 30); (5, 50)] npos false false)) ->
                fst x <> 3)).
Proof.
  assert (size (mk_sv [(1, 10); (3, 30); (5, 50)] npos false false) <= max_size)
    as Hmax by bounds.
  assert (ascending
            (map fst (_storage (mk_sv [(1, 10); (3, 30); (5, 50)] npos false false))))
    as HA by (apply SS_ascending; repeat constructor).
  split; [reflexivity|]. split; [exact Hmax|]. split; [exact HA|].
  apply (keyed_find_in_sorted_state fst
           (mk_sv [(1, 10); (3, 30); (5, 50)] npos false false) 3 eq_refl Hmax HA).
Defined.

Lemma repair_moves_only_tracked_witness :
  size (mk_sv [5; 1; 9; 2] 1 true false) <= max_size /\
  _is_corrupted (mk_sv [5; 1; 9; 2] 1 true false) = true /\
  0 <= _last_modified (mk_sv [5; 1; 9; 2] 1 true false)
    < size (mk_sv [5; 1; 9; 2] 1 true false) /\
  exists x p sv1,
    rd [5; 1; 9; 2] 1 = Done x /\
    repair (mk_sv [5; 1; 9; 2] 1 true false) = Done sv1 /\
    0 <= p < size (mk_sv [5; 1; 9; 2] 1 true false) /\
    _storage sv1
    = firstn (Z.to_nat p) (firstn (Z.to_nat 1) [5; 1; 9; 2]
                           ++ skipn (S (Z.to_nat 1)) [5; 1; 9; 2])
      ++ x :: skipn (Z.to_nat p) (firstn (Z.to_nat 1) [5; 1; 9; 2]
                                  ++ skipn (S (Z.to_nat 1)) [5; 1; 9; 2]).
Proof.
  assert (size (mk_sv [5; 1; 9; 2] 1 true false) <= max_size) as Hmax by bounds.
  assert (0 <= _last_modified (mk_sv [5; 1; 9; 2] 1 true false)
            < size (mk_sv [5; 1; 9; 2] 1 true false)) as Hlm by bounds.
  split; [exact Hmax|]. split; [reflexivity|]. split; [exact Hlm|].
  apply (repair_moves_only_tracked (mk_sv [5; 1; 9; 2] 1 true false) Hmax eq_refl Hlm).
Defined.

Lemma find_floor_in_range_witness :
  _is_corrupted (sv_of_vector [1; 3; 5; 7]) = false /\
  size (sv_of_vector [1; 3; 5; 7]) <= max_size /\
  ascending (_storage (sv_of_vector [1; 3; 5; 7])) /\
  0 <= 1 <= 3 /\ 3 < size (sv_of_vector [1; 3; 5; 7]) /\
  exists r xs,
    find_floor (sv_of_vector [1; 3; 5; 7]) 6 1 3 = Done r /\
    rd (_storage (sv_of_vector [1; 3; 5; 7])) 1 = Done xs /\
    (r = npos <-> (6 << xs) = true) /\
    (r <> npos ->
     1 <= r <= 3 /\
     exists x, rd (_storage (sv_of_vector [1; 3; 5; 7])) r = Done x /\ le x 6 /\
       (forall j y, 1 <= j < r ->
          rd (_storage (sv_of_vector [1; 3; 5; 7])) j = Done y -> (y << 6) = true) /\
       (forall j y, r < j <= 3 ->
          rd (_storage (sv_of_vector [1; 3; 5; 7])) j = Done y -> le 6 y)).
Proof.
  assert (size (sv_of_vector [1; 3; 5; 7]) <= max_size) as Hmax by bounds.
  assert (ascending (_storage (sv_of_vector [1; 3; 5; 7]))) as HA
    by (apply SS_ascending; repeat constructor).
  assert (0 <= 1 <= 3) as Hs by bounds.
  assert (3 < size (sv_of_vector [1; 3; 5; 7])) as He by bounds.
  split; [reflexivity|]. split; [exact Hmax|]. split; [exact HA|].
  split; [exact Hs|]. split; [exact He|].
  apply (find_floor_in_range (sv_of_vector [1; 3; 5; 7]) 6 1 3 eq_refl Hmax HA Hs He).
Defined.

Lemma find_ceil_in_prefix_witness :
  _is_corrupted (sv_of_vector [1; 3; 5; 7]) = false /\
  size (sv_of_vector [1; 3; 5; 7]) <= max_size /\
  ascending (_storage (sv_of_vector [1; 3; 5; 7])) /\
  0 <= 2 < size (sv_of_vector [1; 3; 5; 7]) /\
  exists r xe,
    find_ceil (sv_of_vector [1; 3; 5; 7]) 4 0 2 = Done r /\
    rd (_storage (sv_of_vector [1; 3; 5; 7])) 2 = Done xe /\
    (r = npos <-> (xe << 4) = true) /\
    (r <> npos ->
     0 <= r <= 2 /\
     exists x, rd (_storage (sv_of_vector [1; 3; 5; 7])) r = Done x /\ le 4 x /\
       (forall j y, 0 <= j < r ->
          rd (_storage (sv_of_vector [1; 3; 5; 7])) j = Done y -> le y 4) /\
       (forall j y, r < j <= 2 ->
          rd (_storage (sv_of_vector [1; 3; 5; 7])) j = Done y -> (4 << y) = true)).
Proof.
  assert (size (sv_of_vector [1; 3; 5; 7]) <= max_size) as Hmax by bounds.
  assert (ascending (_storage (sv_of_vector [1; 3; 5; 7]))) as HA
    by (apply SS_ascending; repeat constructor).
  assert (0 <= 2 < size (sv_of_vector [1; 3; 5; 7])) as He by bounds.
  split; [reflexivity|]. split; [exact Hmax|]. split; [exact HA|]. split; [exact He|].
  apply (find_ceil_in_prefix (sv_of_vector [1; 3; 5; 7]) 4 2 eq_refl Hmax HA He).
Defined.
